(** * Job orchestration and streaming events of the crawl backend

    A shallow embedding of

    - [BaseCrawler.crawl], [crawlList] and [crawlDetail]
      (src/crawlers/baseCrawler.ts),
    - [CrawlService.crawl] (services/crawl.service.ts) and
      [PersistenceService.persist] (services/persistence.service.ts),
    - [CrawlJobService] (services/crawlJob.service.ts),

    followed by the properties of the job registry, of the worker loop and
    of the event stream.

    The code is asynchronous JavaScript on one thread.  An [async] function
    runs synchronously up to its first [await]; the rest runs later, one
    uninterrupted block per resumption.  The embedding follows that: the
    orchestrator is a computation in a small monad (state, emitted events,
    rejection), the job service is a state with one explicit suspended
    continuation (the crawl the worker is awaiting). *)

From stdpp Require Import gmap strings list fin_maps relations.
From Stdlib Require Import ZArith Lia.

Local Open Scope Z_scope.

(** ** Wire types (types/crawl.ts) *)

Inductive Category :=
  news | hotels | restaurant | attraction | maps | landmarks.

Definition category_name (c : Category) : string :=
  match c with
  | news => "news"
  | hotels => "hotels"
  | restaurant => "restaurant"
  | attraction => "attraction"
  | maps => "maps"
  | landmarks => "landmarks"
  end.

(** [options] only parameterises the browser (timeout, headless flag) and
    is left out. *)
Record BaseCrawlRequest := {
  category : Category;
  site : string;
  url : string
}.

(** A crawl result as the orchestrator sees it: the variable [result] is
    [undefined] until a handler has returned; handlers return one item or
    an array of items.  Items are opaque. *)
Inductive Payload :=
| PUndefined
| PItem (item : string)
| PList (items : list string).

(** JavaScript truthiness: objects and arrays, the empty array included,
    are truthy. *)
Definition truthy (p : Payload) : bool :=
  match p with
  | PUndefined => false
  | PItem _ | PList _ => true
  end.

Inductive EventBody :=
| EvProgress (message : string) (percent : option Z)
| EvData (data : Payload) (index total : option Z)
| EvComplete (totalItems duration : option Z)
| EvError (error_text : string).

(** [StreamEvent | PartialStreamEvent]: the two bookkeeping fields are
    present on a full event and absent on a partial one. *)
Record StreamEvent := {
  body : EventBody;
  requestId : option string;
  timestamp : option Z
}.

Definition is_progress (e : StreamEvent) : bool :=
  match body e with EvProgress _ _ => true | _ => false end.
Definition is_complete (e : StreamEvent) : bool :=
  match body e with EvComplete _ _ => true | _ => false end.
Definition is_error (e : StreamEvent) : bool :=
  match body e with EvError _ => true | _ => false end.

(** ** Promises and exceptions *)

(** A thrown value: an [Error] with its message, or anything else. *)
Inductive Thrown :=
| JsError (msg : string)
| JsOther.

(** [error instanceof Error ? error.message : 'Unknown error'] *)
Definition error_message (e : Thrown) : string :=
  match e with
  | JsError m => m
  | JsOther => "Unknown error"
  end.

Inductive Settled (A : Type) :=
| Resolved (a : A)
| Rejected (e : Thrown).
Arguments Resolved {A} a.
Arguments Rejected {A} e.

(** ** The orchestrator monad *)

(** What one call of an orchestrator entry point can change besides the
    events it hands to [onStream]: the captured variable [result], the
    number of [PlaywrightCrawler] instances constructed, the number of
    [Date.now()] readings taken, and the error log. *)
Record RunState := {
  result : Payload;
  contexts : nat;
  reads : nat;
  logged : list string
}.

Definition initRun : RunState :=
  {| result := PUndefined; contexts := 0; reads := 0; logged := [] |}.

(** A computation returns how it settles, the new state, and the events
    it delivered to the sink, in order. *)
Definition M (A : Type) : Type :=
  RunState -> Settled A * RunState * list StreamEvent.

Definition ret {A} (a : A) : M A := fun st => (Resolved a, st, []).

Definition throw {A} (e : Thrown) : M A := fun st => (Rejected e, st, []).

Definition bind {A B} (m : M A) (k : A -> M B) : M B :=
  fun st =>
    match m st with
    | (Resolved a, st1, o1) =>
        match k a st1 with
        | (r, st2, o2) => (r, st2, o1 ++ o2)
        end
    | (Rejected e, st1, o1) => (Rejected e, st1, o1)
    end.

Definition tryCatch {A} (m : M A) (handler : Thrown -> M A) : M A :=
  fun st =>
    match m st with
    | (Resolved a, st1, o1) => (Resolved a, st1, o1)
    | (Rejected e, st1, o1) =>
        match handler e st1 with
        | (r, st2, o2) => (r, st2, o1 ++ o2)
        end
    end.

Declare Scope run_scope.
Delimit Scope run_scope with run.
Notation "x <- m ;; k" := (bind m (fun x => k))
  (at level 100, m at next level, right associativity) : run_scope.
Notation "m ;; k" := (bind m (fun _ => k))
  (at level 100, right associativity) : run_scope.

(** [await p] for a promise whose fate the environment has fixed. *)
Definition await {A} (p : Settled A) : M A := fun st => (p, st, []).

Definition deliver (e : StreamEvent) : M unit :=
  fun st => (Resolved tt, st, [e]).

Definition setResult (p : Payload) : M unit :=
  fun st =>
    (Resolved tt,
     {| result := p; contexts := contexts st; reads := reads st;
        logged := logged st |}, []).

Definition getResultVar : M Payload := fun st => (Resolved (result st), st, []).

Definition newPlaywrightCrawler : M unit :=
  fun st =>
    (Resolved tt,
     {| result := result st; contexts := S (contexts st); reads := reads st;
        logged := logged st |}, []).

Definition logError (line : string) : M unit :=
  fun st =>
    (Resolved tt,
     {| result := result st; contexts := contexts st; reads := reads st;
        logged := logged st ++ [line] |}, []).

(** [Date.now()]: the k-th reading of the run is [clock k]. *)
Definition dateNow (clock : nat -> Z) : M Z :=
  fun st =>
    (Resolved (clock (reads st)),
     {| result := result st; contexts := contexts st; reads := S (reads st);
        logged := logged st |}, []).

Fixpoint forEach {A} (f : A -> M unit) (l : list A) : M unit :=
  match l with
  | [] => ret tt
  | x :: l' => bind (f x) (fun _ => forEach f l')
  end.

Definition outcome {A} (r : Settled A * RunState * list StreamEvent) : Settled A :=
  r.1.1.
Definition final {A} (r : Settled A * RunState * list StreamEvent) : RunState :=
  r.1.2.
Definition events {A} (r : Settled A * RunState * list StreamEvent)
  : list StreamEvent := r.2.

(** ** BaseCrawler (crawlers/baseCrawler.ts) *)

Section Orchestrator.

(** The browser page a handler works on. *)
Context {Page : Type}.

(** [SiteHandler], [ListHandler] and [DetailHandler]: given the page and the
    url, a handler passes events to its [onStream] argument and then
    returns a value or throws. *)
Definition Handler : Type := Page -> string -> list StreamEvent * Settled Payload.

(** [Object.prototype.toString], which [table["toString"]] finds on a
    literal that registers no such site.  Called the way a handler is
    called, with [this] undefined, it passes no event and returns the
    string [[object Undefined]]: a truthy value that is not an array, an
    item as far as the orchestrator can tell. *)
Definition objectToString : Handler :=
  fun _ _ => ([], Resolved (PItem "[object Undefined]")).

(** The three tables handed to the [BaseCrawler] constructor, as finite
    maps: a lookup gives what [table[site]] finds.  The tables are written
    as object literals, so the read finds the handler registered under
    that name and, for a name the literal does not register, the member
    of [Object.prototype] of that name when there is one. *)
Record Crawler := {
  siteHandlers : gmap string Handler;
  listHandlers : gmap string Handler;
  detailHandlers : gmap string Handler
}.

(** One invocation of [requestHandler] by the crawler library: whether
    [page.goto] resolves, and the page the handler then sees. *)
Record Attempt := {
  gotoOutcome : Settled unit;
  page : Page
}.

(** [crawler.run] belongs to the crawler library, not to this repository.
    The embedding fixes nothing about it: it invokes [requestHandler] once
    per element of [attempts], deals with a rejection of the handler as it
    sees fit (retry, give up, reject), and finally settles as [runOutcome]
    says. *)
Record CrawlerRun := {
  attempts : list Attempt;
  runOutcome : Settled unit
}.

(** Everything the outside world decides for one run. *)
Record RunEnv := {
  runId : string;          (* the value of randomUUID() *)
  clock : nat -> Z;        (* the readings of Date.now() *)
  crawlerRun : CrawlerRun;
  adminApi : Settled unit  (* how the admin API call of persist settles *)
}.

(** The three entry points are the same function up to the table they
    consult, their messages and the item count of the complete event. *)
Record Mode := {
  table : Crawler -> gmap string Handler;
  unsupportedMessage : BaseCrawlRequest -> string;
  startMessage : string -> string;
  doneMessage : string;
  handlerErrorLine : string -> string;
  missingMessage : string -> string;
  totalItemsOf : Payload -> option Z
}.

Definition payload_length (p : Payload) : option Z :=
  match p with
  | PList l => Some (Z.of_nat (length l))
  | _ => None
  end.

Definition crawlMode : Mode := {|
  table := siteHandlers;
  unsupportedMessage := fun r =>
    "Unsupported site '" +:+ site r +:+ "' for category " +:+ category_name (category r);
  startMessage := fun s => "Starting crawl for " +:+ s +:+ "...";
  doneMessage := "Crawl completed";
  handlerErrorLine := fun s => "Error in requestHandler for " +:+ s;
  missingMessage := fun s => "Failed to crawl data for site '" +:+ s +:+ "'";
  (* Array.isArray(result) ? result.length : 1 *)
  totalItemsOf := fun p =>
    match p with PList l => Some (Z.of_nat (length l)) | _ => Some 1 end
|}.

Definition listMode : Mode := {|
  table := listHandlers;
  unsupportedMessage := fun r =>
    "Unsupported site '" +:+ site r +:+ "' for list crawl in category "
      +:+ category_name (category r);
  startMessage := fun s => "Starting list crawl for " +:+ s +:+ "...";
  doneMessage := "Crawl list completed";
  handlerErrorLine := fun s => "Error in list requestHandler for " +:+ s;
  missingMessage := fun s => "Failed to crawl list data for site '" +:+ s +:+ "'";
  (* result.length *)
  totalItemsOf := payload_length
|}.

Definition detailMode : Mode := {|
  table := detailHandlers;
  unsupportedMessage := fun r =>
    "Unsupported site '" +:+ site r +:+ "' for detail crawl in category "
      +:+ category_name (category r) +:+ " ";
  startMessage := fun s => "Starting detail crawl for " +:+ s +:+ "...";
  doneMessage := "Crawl detail completed";
  handlerErrorLine := fun s => "Error in detail requestHandler for " +:+ s;
  missingMessage := fun s => "Failed to crawl detail data for site '" +:+ s +:+ "'";
  totalItemsOf := fun _ => Some 1
|}.

Section Run.

Variable mode : Mode.
Variable crawler : Crawler.
Variable request : BaseCrawlRequest.
(** Whether the caller passed [onStream]. *)
Variable onStream : bool.
Variable env : RunEnv.

(** [emitEvent]: the orchestrator's own events. *)
Definition emitEvent (b : EventBody) : M unit :=
  if onStream then
    (t <- dateNow (clock env) ;;
     deliver {| body := b; requestId := Some (runId env); timestamp := Some t |})%run
  else ret tt.

(** [event.requestId || requestId] *)
Definition requestIdOr (e : StreamEvent) : string :=
  match requestId e with
  | Some r => if decide (r = "") then runId env else r
  | None => runId env
  end.

(** [event.timestamp || Date.now()] *)
Definition timestampOr (e : StreamEvent) : M Z :=
  match timestamp e with
  | Some t => if decide (t = 0) then dateNow (clock env) else ret t
  | None => dateNow (clock env)
  end.

(** [wrappedStreamCallback]: the callback handed to the handler. *)
Definition wrappedStreamCallback (e : StreamEvent) : M unit :=
  if onStream then
    (t <- timestampOr e ;;
     deliver {| body := body e; requestId := Some (requestIdOr e);
                timestamp := Some t |})%run
  else ret tt.

(** [smartWait(page, [], 3000)]: it reads the clock, waits, reads the
    clock again and may wait once more; it never rejects. *)
Definition smartWait : M unit :=
  (_ <- dateNow (clock env) ;;
   _ <- dateNow (clock env) ;;
   ret tt)%run.

(** The [requestHandler] given to the crawler. *)
Definition requestHandler (handler : Handler) (a : Attempt) : M unit :=
  tryCatch
    (emitEvent (EvProgress "Loading page..." (Some 10)) ;;
     await (gotoOutcome a) ;;
     emitEvent (EvProgress "Page loaded, extracting data..." (Some 30)) ;;
     smartWait ;;
     emitEvent (EvProgress "Processing data..." (Some 50)) ;;
     forEach wrappedStreamCallback (handler (page a) (url request)).1 ;;
     r <- await (handler (page a) (url request)).2 ;;
     setResult r ;;
     emitEvent (EvProgress (doneMessage mode) (Some 100)))%run
    (fun e =>
       (logError (handlerErrorLine mode (site request)) ;;
        throw e)%run).

(** [crawler.run([{ url }])] *)
Definition runCrawler (handler : Handler) : M unit :=
  (forEach
     (fun a => tryCatch (requestHandler handler a) (fun _ => ret tt))
     (attempts (crawlerRun env)) ;;
   await (runOutcome (crawlerRun env)))%run.

(** The part of an entry point that runs before its first [await]: the
    table lookup, the first progress event and the construction of the
    [PlaywrightCrawler]. *)
Definition crawlPrologue : M (Handler * Z) :=
  match table mode crawler !! site request with
  | None => throw (JsError (unsupportedMessage mode request))
  | Some handler =>
      (setResult PUndefined ;;  (* let result: T | undefined *)
       startTime <- dateNow (clock env) ;;
       emitEvent (EvProgress (startMessage mode (site request)) (Some 0)) ;;
       newPlaywrightCrawler ;;
       ret (handler, startTime))%run
  end.

(** The [try { await crawler.run(...) ... } catch] block. *)
Definition crawlBody (hs : Handler * Z) : M Payload :=
  tryCatch
    (runCrawler hs.1 ;;
     r <- getResultVar ;;
     if truthy r then
       (now <- dateNow (clock env) ;;
        emitEvent (EvComplete (totalItemsOf mode r) (Some (now - hs.2))) ;;
        ret r)
     else throw (JsError (missingMessage mode (site request))))%run
    (fun e => (emitEvent (EvError (error_message e)) ;; throw e)%run).

Definition crawlWith : M Payload :=
  (hs <- crawlPrologue ;; crawlBody hs)%run.

End Run.

Definition crawl := crawlWith crawlMode.
Definition crawlList := crawlWith listMode.
Definition crawlDetail := crawlWith detailMode.

End Orchestrator.

(** ** PersistenceService and CrawlService *)

Inductive PersistHandler := persistHotel | persistLandmark | persistRestaurant.

(** The table built in the constructor of [PersistenceService]; news and
    attraction have no entry. *)
Definition persistHandlers (c : Category) : option PersistHandler :=
  match c with
  | hotels | maps => Some persistHotel
  | landmarks => Some persistLandmark
  | restaurant => Some persistRestaurant
  | news | attraction => None
  end.

(** [persistHotel], [persistLandmark], [persistRestaurant]: each skips a
    payload that is missing and otherwise awaits one admin API call. *)
Definition runPersistHandler (h : PersistHandler) (data : Payload)
    (api : Settled unit) : M unit :=
  match h with
  | persistHotel | persistLandmark | persistRestaurant =>
      if truthy data then await api else ret tt
  end.

Section Services.

Context {Page : Type}.

(** [PersistenceService.persist] *)
Definition persist (request : BaseCrawlRequest) (data : Payload)
    (env : @RunEnv Page) : M unit :=
  match persistHandlers (category request) with
  | None => ret tt
  | Some h =>
      tryCatch (runPersistHandler h data (adminApi env))
        (fun _ => logError "Failed to persist crawl result via admin API")
  end.

(** [CrawlService]: one crawler per category; the object literal has all
    six keys. *)
Record CrawlService := {
  crawlers : Category -> @Crawler Page
}.

Definition service_crawl (cs : CrawlService) (request : BaseCrawlRequest)
    (onStream : bool) (env : RunEnv) : M Payload :=
  (data <- crawl (crawlers cs (category request)) request onStream env ;;
   persist request data env ;;
   ret data)%run.

Definition service_crawlList (cs : CrawlService) (request : BaseCrawlRequest)
    (onStream : bool) (env : RunEnv) : M Payload :=
  (data <- crawlList (crawlers cs (category request)) request onStream env ;;
   ret data)%run.

Definition service_crawlDetail (cs : CrawlService) (request : BaseCrawlRequest)
    (onStream : bool) (env : RunEnv) : M Payload :=
  (data <- crawlDetail (crawlers cs (category request)) request onStream env ;;
   persist request data env ;;
   ret data)%run.

(** [service_crawl] as the job worker meets it: the part that has run when
    the call returns its promise, then the rest. *)
Definition jobPrologue (cs : CrawlService) (request : BaseCrawlRequest)
    (env : RunEnv) : M (Handler * Z) :=
  crawlPrologue crawlMode (crawlers cs (category request)) request true env.

Definition jobBody (cs : CrawlService) (request : BaseCrawlRequest)
    (env : RunEnv) (hs : Handler * Z) : M Payload :=
  (data <- crawlBody crawlMode request true env hs ;;
   persist request data env ;;
   ret data)%run.

Record RunScript := {
  syncEvents : list StreamEvent;   (* delivered before the first await *)
  asyncEvents : list StreamEvent;  (* delivered while the caller awaits *)
  settlesAs : Settled Payload
}.

Definition script_of (cs : CrawlService) (request : BaseCrawlRequest)
    (env : RunEnv) : RunScript :=
  match jobPrologue cs request env initRun with
  | (Resolved hs, st1, o1) =>
      match jobBody cs request env hs st1 with
      | (r, _, o2) => {| syncEvents := o1; asyncEvents := o2; settlesAs := r |}
      end
  | (Rejected e, _, o1) =>
      {| syncEvents := o1; asyncEvents := []; settlesAs := Rejected e |}
  end.

(** ** CrawlJobService (types/jobs.ts, services/crawlJob.service.ts) *)

Inductive CrawlJobStatus := queued | running | done | error.

(** The dates are kept as clock readings; the ISO rendering is left out. *)
Record CrawlJobRecord := {
  jobId : string;
  status : CrawlJobStatus;
  progress : Z;
  currentStep : option string;
  createdAt : Z;
  startedAt : option Z;
  finishedAt : option Z;
  errorMessage : option string;
  params : BaseCrawlRequest
}.

(** The crawl the worker is awaiting inside [runJob]: the events still to
    come through [streamCallback] and the way the promise settles. *)
Record Run := {
  runJobId : string;
  pendingEvents : list StreamEvent;
  settles : Settled Payload
}.

Record Service := {
  jobs : gmap string CrawlJobRecord;
  results : gmap string Payload;
  queue : list string;
  isProcessing : bool;
  inflight : option Run
}.

Definition initial : Service :=
  {| jobs := ∅; results := ∅; queue := []; isProcessing := false;
     inflight := None |}.

Definition set_jobs (f : gmap string CrawlJobRecord -> gmap string CrawlJobRecord)
    (s : Service) : Service :=
  {| jobs := f (jobs s); results := results s; queue := queue s;
     isProcessing := isProcessing s; inflight := inflight s |}.

Definition set_results (f : gmap string Payload -> gmap string Payload)
    (s : Service) : Service :=
  {| jobs := jobs s; results := f (results s); queue := queue s;
     isProcessing := isProcessing s; inflight := inflight s |}.

Definition set_queue (q : list string) (s : Service) : Service :=
  {| jobs := jobs s; results := results s; queue := q;
     isProcessing := isProcessing s; inflight := inflight s |}.

Definition set_isProcessing (b : bool) (s : Service) : Service :=
  {| jobs := jobs s; results := results s; queue := queue s;
     isProcessing := b; inflight := inflight s |}.

Definition set_inflight (r : option Run) (s : Service) : Service :=
  {| jobs := jobs s; results := results s; queue := queue s;
     isProcessing := isProcessing s; inflight := r |}.

(** The body of the [switch] in [handleStreamEvent]. *)
Definition foldEvent (e : StreamEvent) (job : CrawlJobRecord) : CrawlJobRecord :=
  match body e with
  | EvProgress msg pct =>
      {| jobId := jobId job; status := status job;
         (* typeof event.progress === 'number' *)
         progress := match pct with Some n => n | None => progress job end;
         (* if (event.message) *)
         currentStep := if decide (msg = "") then currentStep job else Some msg;
         createdAt := createdAt job; startedAt := startedAt job;
         finishedAt := finishedAt job; errorMessage := errorMessage job;
         params := params job |}
  | EvError err =>
      {| jobId := jobId job; status := status job; progress := progress job;
         currentStep := Some err;
         createdAt := createdAt job; startedAt := startedAt job;
         finishedAt := finishedAt job; errorMessage := Some err;
         params := params job |}
  | EvComplete _ _ =>
      {| jobId := jobId job; status := status job; progress := 100;
         currentStep := Some "Completed";
         createdAt := createdAt job; startedAt := startedAt job;
         finishedAt := finishedAt job; errorMessage := errorMessage job;
         params := params job |}
  | EvData _ _ _ => job
  end.

Definition handleStreamEvent (id : string) (e : StreamEvent) (s : Service)
  : Service :=
  match jobs s !! id with
  | None => s
  | Some job => set_jobs <[id := foldEvent e job]> s
  end.

Definition getJob (s : Service) (id : string) : option CrawlJobRecord :=
  jobs s !! id.

(** [undefined] when nothing is stored under the id. *)
Definition getResult (s : Service) (id : string) : Payload :=
  default PUndefined (results s !! id).

(** The first three assignments of [runJob]. *)
Definition startedRecord (now : Z) (job : CrawlJobRecord) : CrawlJobRecord :=
  {| jobId := jobId job; status := running; progress := progress job;
     currentStep := Some "Initializing crawler";
     createdAt := createdAt job; startedAt := Some now;
     finishedAt := finishedAt job; errorMessage := errorMessage job;
     params := params job |}.

Section Worker.

Variable cs : CrawlService.
(** The environment each job's run will meet, by job id. *)
Variable world : string -> @RunEnv Page.

(** [runJob] up to its [await]: the record is marked running, the crawl is
    called and runs up to its own first [await]. *)
Definition startJob (now : Z) (id : string) (job : CrawlJobRecord) (s : Service)
  : Service :=
  let sc := script_of cs (params job) (world id) in
  let s1 := set_jobs <[id := startedRecord now job]> s in
  let s2 := foldl (fun s e => handleStreamEvent id e s) s1 (syncEvents sc) in
  set_inflight
    (Some {| runJobId := id; pendingEvents := asyncEvents sc;
             settles := settlesAs sc |}) s2.

(** [runJob] after its [await]. *)
Definition finishJob (now : Z) (r : Run) (s : Service) : Service :=
  match jobs s !! runJobId r with
  | None => s
  | Some job =>
      match settles r with
      | Resolved data =>
          set_jobs
            <[runJobId r :=
                {| jobId := jobId job; status := done; progress := 100;
                   currentStep := Some "Completed";
                   createdAt := createdAt job; startedAt := startedAt job;
                   finishedAt := Some now; errorMessage := errorMessage job;
                   params := params job |}]>
            (set_results <[runJobId r := data]> s)
      | Rejected e =>
          set_jobs
            <[runJobId r :=
                {| jobId := jobId job; status := error; progress := progress job;
                   currentStep := Some "Failed";
                   createdAt := createdAt job; startedAt := startedAt job;
                   finishedAt := Some now;
                   errorMessage := Some (error_message e);
                   params := params job |}]> s
      end
  end.

(** The [while] loop of [processQueue], from its head to the next
    suspension or to the exit: [q] is the queue at the loop head. *)
Fixpoint processLoop (now : Z) (q : list string) (s : Service) : Service :=
  match q with
  | [] => set_isProcessing false s
  | id :: q' =>
      let s' := set_queue q' s in
      if decide (id = "") then processLoop now q' s'
      else
        match jobs s' !! id with
        | None => processLoop now q' s'
        | Some job => startJob now id job s'
        end
  end.

(** [processQueue] up to its first suspension. *)
Definition processQueue (now : Z) (s : Service) : Service :=
  if isProcessing s then s
  else processLoop now (queue s) (set_isProcessing true s).

Definition newJob (request : BaseCrawlRequest) (uuid : string) (now : Z)
  : CrawlJobRecord :=
  {| jobId := uuid; status := queued; progress := 0;
     currentStep := Some "Queued"; createdAt := now; startedAt := None;
     finishedAt := None; errorMessage := None; params := request |}.

(** [createJob]: [uuid] is the value of [randomUUID()] and [now] the
    reading of the clock in this block.  [void this.processQueue()] runs
    [processQueue] up to its first [await]; the operand of that [await]
    is the call of [runJob], which in turn runs up to its own [await].  The
    snapshot [{ ...job }] is a copy of the stored object made after that
    call has returned. *)
Definition createJob (s : Service) (request : BaseCrawlRequest) (uuid : string)
    (now : Z) : Service * CrawlJobRecord :=
  let job := newJob request uuid now in
  let s1 := set_queue (queue s ++ [uuid]) (set_jobs <[uuid := job]> s) in
  let s2 := processQueue now s1 in
  (s2, default job (jobs s2 !! uuid)).

(** One resumption of the worker, [now] being the reading of the clock in
    that block: the next event of the awaited crawl is folded into the
    record, or the crawl settles, [runJob] finishes and the loop goes on. *)
Definition workerStep (now : Z) (s : Service) : Service :=
  match inflight s with
  | None => s
  | Some r =>
      match pendingEvents r with
      | e :: es =>
          set_inflight
            (Some {| runJobId := runJobId r; pendingEvents := es;
                     settles := settles r |})
            (handleStreamEvent (runJobId r) e s)
      | [] =>
          let s1 := finishJob now r (set_inflight None s) in
          processLoop now (queue s1) s1
      end
  end.

(** The service is driven by submissions, each with a fresh non-empty
    [randomUUID()], by resumptions of the worker, and by stray events.
    The [streamCallback] that [runJob] hands to the crawl stays callable
    once the awaited crawl has settled, and outside the order in which
    [crawler.run] makes its calls: a request handler that the crawler
    library has given up on, or a site handler that goes on working after
    it has returned, still reaches [handleStreamEvent] with the id of its
    job, whatever the status of that job is by then.  Such an event is a
    progress checkpoint of the request handler or what a site handler
    passes, and no site handler passes an error event: in this repository
    the list handlers alone do, and jobs do not run them. *)
Inductive step : Service -> Service -> Prop :=
| step_create s request uuid now :
    uuid <> "" -> jobs s !! uuid = None ->
    step s (createJob s request uuid now).1
| step_worker s now :
    step s (workerStep now s)
| step_stray s id job e :
    jobs s !! id = Some job -> status job <> queued -> is_error e = false ->
    step s (handleStreamEvent id e s).

Definition reachable (s : Service) : Prop := rtc step initial s.

(** The worker resumed once per clock reading, with no submission in
    between. *)
Definition drain (ts : list Z) (s : Service) : Service :=
  foldl (fun s now => workerStep now s) s ts.

(** The number of resumptions the worker still needs. *)
Definition weight (s : Service) (id : string) : nat :=
  match jobs s !! id with
  | Some job => S (length (asyncEvents (script_of cs (params job) (world id))))
  | None => 1
  end.

Definition work (s : Service) : nat :=
  (match inflight s with
   | Some r => S (length (pendingEvents r))
   | None => 0
   end + sum_list (weight s <$> queue s))%nat.

End Worker.
End Services.

Inductive status_step : CrawlJobStatus -> CrawlJobStatus -> Prop :=
| start_running : status_step queued running
| finish_done : status_step running done
| finish_error : status_step running error.

Definition terminal (st : CrawlJobStatus) : bool :=
  match st with
  | done | error => true
  | queued | running => false
  end.

(** ** Notions used in the statements *)

(** Every event a computation delivers satisfies [P]. *)
Definition emits {A} (P : StreamEvent -> Prop) (m : M A) : Prop :=
  forall st, Forall P (events (m st)).

(** A record seen at two moments: the request is the same and the status
    has moved along [status_step]. *)
Definition evolves (job job' : CrawlJobRecord) : Prop :=
  params job' = params job /\
  rtc status_step (status job) (status job').

Section Notions.
Context {Page : Type}.
Implicit Types (env : @RunEnv Page) (h : @Handler Page).

(** An event stamped by the orchestrator with the id of the run. *)
Definition own env (e : StreamEvent) : Prop :=
  requestId e = Some (runId env) /\ is_Some (timestamp e).

(** [e] is the handler's event [he] as the wrapped callback passes it on. *)
Definition relayed env (he e : StreamEvent) : Prop :=
  body e = body he /\ requestId e = Some (requestIdOr env he) /\
  is_Some (timestamp e).

(** [e] is [he] as the wrapped callback passes it on, the timestamp the
    handler set included: [event.timestamp || Date.now()]. *)
Definition passedOn env (he e : StreamEvent) : Prop :=
  relayed env he e /\
  forall t, timestamp he = Some t -> t <> 0 -> timestamp e = Some t.

(** The events between the first progress event and the last event of a
    run: the orchestrator's progress checkpoints and the handlers' events. *)
Definition checkpoint_or_relayed env h (u : string) (e : StreamEvent) : Prop :=
  (is_progress e = true /\ own env e) \/
  exists a he, a ∈ attempts (crawlerRun env) /\ he ∈ (h (page a) u).1 /\
               relayed env he e.

(** The value a handler call assigns to [result], if it gets that far. *)
Definition attemptResult h (u : string) (a : Attempt) : option Payload :=
  match gotoOutcome a with
  | Rejected _ => None
  | Resolved _ =>
      match (h (page a) u).2 with
      | Resolved p => Some p
      | Rejected _ => None
      end
  end.

(** A handler call that leaves nothing truthy in [result]: it threw, the
    navigation failed, or it returned [undefined]. *)
Definition fruitless h (u : string) (a : Attempt) : Prop :=
  match attemptResult h u a with
  | Some p => truthy p = false
  | None => True
  end.

(** The handler calls made by [crawler.run], each rejection left to the
    library. *)
Definition runAttempts (m : Mode) (req : BaseCrawlRequest) (b : bool)
    env h : M unit :=
  forEach (fun a => tryCatch (requestHandler m req b env h a) (fun _ => ret tt))
    (attempts (crawlerRun env)).

(** A crawler run that calls the handler once and rejects when the call
    does. *)
Definition directRun h (u : string) (a : Attempt) : CrawlerRun :=
  {| attempts := [a];
     runOutcome :=
       match gotoOutcome a with
       | Rejected e => Rejected e
       | Resolved _ =>
           match (h (page a) u).2 with
           | Resolved _ => Resolved tt
           | Rejected e => Rejected e
           end
       end |}.

Section Invariant.
Variable cs : @CrawlService Page.
Variable world : string -> @RunEnv Page.

(** How the run of job [id] settles, as its request and the world fix it. *)
Definition fate (id : string) (job : CrawlJobRecord) : Settled Payload :=
  settlesAs (script_of cs (params job) (world id)).

(** What holds of the registry whenever the worker is suspended or at
    rest, the flag aside. *)
Record Core (s : Service) : Prop := {
  core_queue : forall id, id ∈ queue s ->
    id <> "" /\ exists job, jobs s !! id = Some job /\ status job = queued;
  core_nodup : NoDup (queue s);
  core_queued : forall id job,
    jobs s !! id = Some job -> status job = queued -> id ∈ queue s;
  core_running : forall id job,
    jobs s !! id = Some job -> status job = running ->
    exists r, inflight s = Some r /\ runJobId r = id;
  core_inflight : forall r, inflight s = Some r ->
    exists job, jobs s !! runJobId r = Some job /\ status job = running /\
                settles r = fate (runJobId r) job;
  core_results : forall id p, results s !! id = Some p ->
    truthy p = true /\ exists job, jobs s !! id = Some job /\ status job = done;
  core_done : forall id job,
    jobs s !! id = Some job -> status job = done ->
    exists p, results s !! id = Some p /\ fate id job = Resolved p;
  core_error : forall id job,
    jobs s !! id = Some job -> status job = error ->
    exists e, fate id job = Rejected e /\
              errorMessage job = Some (error_message e) /\
              is_Some (finishedAt job)
}.

Record Inv (s : Service) : Prop := {
  inv_core : Core s;
  inv_flag : match inflight s with
             | Some _ => isProcessing s = true
             | None => isProcessing s = false /\ queue s = []
             end
}.
End Invariant.
End Notions.

(** ** A small world to run the model in *)

Definition dataEvent (name : string) : StreamEvent :=
  {| body := EvData (PItem name) None None; requestId := None;
     timestamp := None |}.

(** A site handler that streams the item it returns. *)
Definition hotelHandler : @Handler unit :=
  fun _ _ => ([dataEvent "Hotel Sol"], Resolved (PItem "Hotel Sol")).

(** A handler that passes a full event, bookkeeping fields included. *)
Definition fullEventHandler : @Handler unit :=
  fun _ _ =>
    ([ {| body := EvData (PItem "Hotel Sol") None None;
          requestId := Some "picked-by-handler"; timestamp := Some 42 |} ],
     Resolved (PItem "Hotel Sol")).

(** A handler that throws. *)
Definition brokenHandler : @Handler unit :=
  fun _ _ => ([], Rejected (JsError "selector not found")).

(** A list handler that finds nothing. *)
Definition emptyListHandler : @Handler unit :=
  fun _ _ => ([], Resolved (PList [])).

Definition demoCrawler : @Crawler unit :=
  {| siteHandlers :=
       {[ "booking" := hotelHandler; "agoda" := fullEventHandler;
          "klook" := brokenHandler ]};
     listHandlers := {[ "booking" := emptyListHandler ]};
     detailHandlers := ∅ |}.

Definition demoService : @CrawlService unit :=
  {| crawlers := fun _ => demoCrawler |}.

Definition demoRequest (s : string) : BaseCrawlRequest :=
  {| category := hotels; site := s; url := "https://example.com/h/1" |}.

Definition visit : @Attempt unit := {| gotoOutcome := Resolved tt; page := tt |}.

(** The page loads, the handler is called once, the admin API is down. *)
Definition demoEnv (h : @Handler unit) : @RunEnv unit :=
  {| runId := "run-1";
     clock := fun k => 1000 + Z.of_nat k;
     crawlerRun := directRun h "https://example.com/h/1" visit;
     adminApi := Rejected (JsError "ECONNREFUSED") |}.

(** Job "job-1" asks for klook, whose handler throws; every other job meets
    the booking handler. *)
Definition demoWorld (id : string) : @RunEnv unit :=
  if decide (id = "job-1") then demoEnv brokenHandler else demoEnv hotelHandler.

Definition oneJob : Service :=
  (createJob demoService demoWorld initial (demoRequest "klook") "job-1" 5).1.

Definition twoJobs : Service :=
  (createJob demoService demoWorld oneJob (demoRequest "booking") "job-2" 6).1.

(** What the first submission got back. *)
Definition klookSnapshot : CrawlJobRecord :=
  (createJob demoService demoWorld initial (demoRequest "klook") "job-1" 5).2.

(** A submission for a site no table knows. *)
Definition strayJob : Service :=
  (createJob demoService demoWorld initial (demoRequest "nowhere") "job-9" 5).1.

Definition ticks (n : nat) : list Z := Z.of_nat <$> seq 0 n.

(** The tables of a crawler as its constructor gets them, written as
    object literals that register the sites of [demoCrawler]: the read
    also finds, under toString, the function every object inherits.  The
    other members of [Object.prototype] are left out; no request below
    names them. *)
Definition literalCrawler : @Crawler unit :=
  {| siteHandlers := <["toString" := objectToString]> (siteHandlers demoCrawler);
     listHandlers := <["toString" := objectToString]> (listHandlers demoCrawler);
     detailHandlers :=
       <["toString" := objectToString]> (detailHandlers demoCrawler) |}.

Definition literalService : @CrawlService unit :=
  {| crawlers := fun _ => literalCrawler |}.

(** A well-formed request for a site nobody registered. *)
Definition toStringRequest : BaseCrawlRequest :=
  {| category := news; site := "toString"; url := "https://example.com/h/1" |}.

Definition literalWorld (id : string) : @RunEnv unit := demoEnv objectToString.

Definition toStringJob : Service :=
  (createJob literalService literalWorld initial toStringRequest "job-3" 5).1.



(** A progress event that reaches [handleStreamEvent] after its job has
    finished. *)
Definition lateEvent : StreamEvent :=
  {| body := EvProgress "late" (Some 10); requestId := Some "run-1";
     timestamp := Some 2000 |}.
(** * More of the code

    The rest of this development embeds, beside the code above,

    - [CrawlController] (controllers/crawl.controller.ts): the three crawl
      endpoints, the job endpoints and the streaming endpoint,
    - [CrawlService.crawlList], [crawlDetail] and [getSupportedCategories],
    - the mappers that build what [AdminApiService] posts
      (services/api-mappers): [extractProvince],
      [mapRestaurantItemToApiRequest] and [mapLandmarkItemToApiRequest],

    together with the notions its properties are stated with. *)

From stdpp Require Import pretty.

Local Open Scope Z_scope.

(** ** Closed forms *)

Section Settlement.
Context {Page : Type}.

(** The value in [result] once [crawler.run] is over: that of the last
    handler call that returned. *)
Definition lastReturned (h : @Handler Page) (u : string) (l : list Attempt)
  : Payload :=
  foldl (fun r a => default r (attemptResult h u a)) PUndefined l.

(** How an entry point settles, read off [crawlPrologue] and [crawlBody]. *)
Definition settlement (m : @Mode Page) (c : Crawler) (request : BaseCrawlRequest)
    (env : RunEnv) : Settled Payload :=
  match table m c !! site request with
  | None => Rejected (JsError (unsupportedMessage m request))
  | Some h =>
      match runOutcome (crawlerRun env) with
      | Rejected e => Rejected e
      | Resolved _ =>
          let p := lastReturned h (url request) (attempts (crawlerRun env)) in
          if truthy p then Resolved p
          else Rejected (JsError (missingMessage m (site request)))
      end
  end.
End Settlement.

(** ** The job registry observed *)

(** What a record looks like in each status, as [createJob], [runJob] and
    [handleStreamEvent] leave it.  The progress and the step of a record
    that has been started are those of the last event that reached it. *)
Definition wellShaped (id : string) (job : CrawlJobRecord) : Prop :=
  jobId job = id /\
  match status job with
  | queued =>
      progress job = 0 /\ currentStep job = Some "Queued" /\
      startedAt job = None /\ finishedAt job = None /\ errorMessage job = None
  | running => is_Some (startedAt job) /\ finishedAt job = None
  | done => is_Some (startedAt job) /\ is_Some (finishedAt job)
  | error =>
      is_Some (errorMessage job) /\
      is_Some (startedAt job) /\ is_Some (finishedAt job)
  end.

Section Observed.
Context {Page : Type}.
Variable cs : @CrawlService Page.
Variable world : string -> @RunEnv Page.

(** The ids of the jobs whose [runJob] finishes while the worker is resumed
    along [ts], in the order in which they finish. *)
Fixpoint finished (ts : list Z) (s : Service) : list string :=
  match ts with
  | [] => []
  | t :: ts' =>
      match inflight s with
      | Some r =>
          match pendingEvents r with
          | [] => [runJobId r]
          | _ :: _ => []
          end
      | None => []
      end ++ finished ts' (workerStep cs world t s)
  end.

(** The jobs the worker has still to finish, in the order in which it will
    take them: the one it awaits, then the queue. *)
Definition backlog (s : Service) : list string :=
  match inflight s with
  | Some r => [runJobId r]
  | None => []
  end ++ queue s.
End Observed.

(** Every record of the registry is well shaped. *)
Definition Shaped (s : Service) : Prop :=
  forall id job, jobs s !! id = Some job -> wellShaped id job.

(** ** CrawlController (controllers/crawl.controller.ts) *)

(** What [bodySchema.parse(req.body)] followed by [new URL(parsed.url)]
    does with the body of a request; both belong to libraries. *)
Inductive Validation :=
| Parsed (request : BaseCrawlRequest)
| ZodError (details : string)
| UrlThrew (e : Thrown).

(** The JSON bodies the controller sends. *)
Inductive Json :=
| CrawlSuccess (c : Category) (site_ url_ : string) (data : Payload)
| InvalidPayload (details : string)
| CrawlFailure (error_ : string) (supportedCategories : list Category)
| Failure (error_ : string)
| JobAccepted (jobId_ : string) (status_ : CrawlJobStatus) (progress_ : Z)
    (message_ : string) (c : Category) (site_ url_ : string)
| JobStatus (job : CrawlJobRecord)
| JobPending (status_ : CrawlJobStatus) (message_ : string)
| JobFailed (errorMessage_ : string)
| JobDone (data : Payload).

Record Response := {
  httpCode : Z;
  json : Json
}.

(** [error instanceof Error ? error.message : fallback] *)
Definition messageOr (fallback : string) (e : Thrown) : string :=
  match e with
  | JsError m => m
  | JsOther => fallback
  end.

(** [CrawlService.getSupportedCategories]: the keys of [crawlers], in the
    order of the object literal. *)
Definition getSupportedCategories : list Category :=
  [news; hotels; restaurant; attraction; maps; landmarks].

(** [getCrawlStatus] *)
Definition getCrawlStatus (s : Service) (jobIdParam : string) : Response :=
  if decide (jobIdParam = "") then
    {| httpCode := 400; json := Failure "Missing jobId" |}
  else
    match getJob s jobIdParam with
    | None => {| httpCode := 404; json := Failure "Job not found" |}
    | Some job => {| httpCode := 200; json := JobStatus job |}
    end.

(** [getCrawlResult] *)
Definition getCrawlResult (s : Service) (jobIdParam : string) : Response :=
  if decide (jobIdParam = "") then
    {| httpCode := 400; json := Failure "Missing jobId" |}
  else
    match getJob s jobIdParam with
    | None => {| httpCode := 404; json := Failure "Job not found" |}
    | Some job =>
        match status job with
        | queued | running =>
            {| httpCode := 202;
               json := JobPending (status job)
                         "Job chưa hoàn thành, vui lòng kiểm tra lại sau." |}
        | error =>
            {| httpCode := 500;
               json := JobFailed (default "Unknown error" (errorMessage job)) |}
        | done =>
            if truthy (getResult s jobIdParam) then
              {| httpCode := 200; json := JobDone (getResult s jobIdParam) |}
            else {| httpCode := 404; json := Failure "Result not found" |}
        end
    end.

Section Controller.
Context {Page : Type}.
Variable cs : @CrawlService Page.

(** [handleCrawl], [handleCrawlList] and [handleCrawlDetail] differ in
    the service method they await and in the fallback text of the [catch]
    block. *)
Definition handleWith (run : BaseCrawlRequest -> M Payload) (fallback : string)
    (v : Validation) : RunState -> Response * RunState :=
  fun st =>
    match v with
    | Parsed request =>
        match run request st with
        | (Resolved data, st', _) =>
            ({| httpCode := 200;
                json := CrawlSuccess (category request) (site request)
                          (url request) data |}, st')
        | (Rejected e, st', _) =>
            ({| httpCode := 400;
                json := CrawlFailure (messageOr fallback e)
                          getSupportedCategories |}, st')
        end
    | ZodError details =>
        ({| httpCode := 400; json := InvalidPayload details |}, st)
    | UrlThrew e =>
        ({| httpCode := 400;
            json := CrawlFailure (messageOr fallback e) getSupportedCategories |},
         st)
    end.

Definition handleCrawl (env : RunEnv) :=
  handleWith (fun request => service_crawl cs request false env)
    "Failed to crawl".

Definition handleCrawlList (env : RunEnv) :=
  handleWith (fun request => service_crawlList cs request false env)
    "Failed to crawl list".

Definition handleCrawlDetail (env : RunEnv) :=
  handleWith (fun request => service_crawlDetail cs request false env)
    "Failed to crawl detail".

(** The promise chain of [handleCrawlStream] once the body has been
    accepted: the events are the frames written to the response.  The
    first reading of the clock goes into [streamRequestId]. *)
Definition streamFrames (request : BaseCrawlRequest) (env : RunEnv) : M unit :=
  (_ <- dateNow (clock env) ;;
   tryCatch
     (_ <- service_crawl cs request true env ;; ret tt)
     (fun e =>
        t1 <- dateNow (clock env) ;;
        t2 <- dateNow (clock env) ;;
        deliver {| body := EvError (error_message e);
                   requestId := Some ("error-" +:+ pretty t1);
                   timestamp := Some t2 |}))%run.

Variable world : string -> @RunEnv Page.

(** [handleCrawlJob] *)
Definition handleCrawlJob (s : Service) (v : Validation) (uuid : string)
    (now : Z) : Service * Response :=
  match v with
  | Parsed request =>
      let r := createJob cs world s request uuid now in
      (r.1,
       {| httpCode := 202;
          json := JobAccepted (jobId r.2) (status r.2) (progress r.2)
                    "Đã nhận yêu cầu crawl, vui lòng kiểm tra trạng thái qua endpoint /status."
                    (category request) (site request) (url request) |})
  | ZodError details =>
      (s, {| httpCode := 400; json := InvalidPayload details |})
  | UrlThrew e =>
      (s, {| httpCode := 400;
             json := Failure (messageOr "Failed to enqueue crawl job" e) |})
  end.
End Controller.

Section Resources.
Context {Page : Type}.

(** The handler calls that end in the [catch] block of the request
    handler: the navigation failed or the site handler threw. *)
Definition failedCalls (h : @Handler Page) (u : string) (l : list Attempt)
  : list Attempt :=
  filter (fun a => attemptResult h u a = None) l.
End Resources.

(** The answer of a crawl endpoint to a request whose crawl settled as
    [o]: 200 with the data, or 400 with the message of the failure. *)
Definition crawlAnswer (fallback : string) (request : BaseCrawlRequest)
    (o : Settled Payload) : Response :=
  match o with
  | Resolved data =>
      {| httpCode := 200;
         json := CrawlSuccess (category request) (site request) (url request)
                   data |}
  | Rejected e =>
      {| httpCode := 400;
         json := CrawlFailure (messageOr fallback e) getSupportedCategories |}
  end.

(** The answer of the result endpoint to a job whose crawl settled as
    [o]. *)
Definition resultAnswer (o : Settled Payload) : Response :=
  match o with
  | Resolved p => {| httpCode := 200; json := JobDone p |}
  | Rejected e => {| httpCode := 500; json := JobFailed (error_message e) |}
  end.

Section Trace.
Context {Page : Type}.

End Trace.

(** ** What is sent to the admin API (services/api-mappers) *)

(** A JavaScript string is a sequence of UTF-16 code units. *)
Definition JsString : Type := list N.

(** A literal of the source, all of whose characters are ASCII. *)
Definition lit (s : string) : JsString :=
  Ascii.N_of_ascii <$> String.list_ascii_of_string s.

(** The code units that [String.prototype.trim] strips and that [\s]
    matches: WhiteSpace and LineTerminator of the language. *)
Definition isWhiteSpace (c : N) : bool :=
  ((9 <=? c) && (c <=? 13) || (c =? 32) || (c =? 160) || (c =? 5760)
   || (8192 <=? c) && (c <=? 8202) || (c =? 8232) || (c =? 8233)
   || (c =? 8239) || (c =? 8287) || (c =? 12288) || (c =? 65279))%N.

(** The code units that [.] does not match. *)
Definition isLineTerminator (c : N) : bool :=
  ((c =? 10) || (c =? 13) || (c =? 8232) || (c =? 8233))%N.

Fixpoint trimStart (s : JsString) : JsString :=
  match s with
  | c :: s' => if isWhiteSpace c then trimStart s' else s
  | [] => []
  end.

Definition trimEnd (s : JsString) : JsString :=
  reverse (trimStart (reverse s)).

Definition trim (s : JsString) : JsString := trimEnd (trimStart s).

(** [s.split(sep)] for a separator of one code unit. *)
Fixpoint split (sep : N) (s : JsString) : list JsString :=
  match s with
  | [] => [[]]
  | c :: s' =>
      if (c =? sep)%N then [] :: split sep s'
      else match split sep s' with
           | part :: parts => (c :: part) :: parts
           | [] => [[c]]
           end
  end.

(** The truth value of a string: only the empty string is falsy. *)
Definition nonEmpty (s : JsString) : bool :=
  match s with
  | [] => false
  | _ :: _ => true
  end.

(** [x || undefined] for an optional string. *)
Definition orUndefined (x : option JsString) : option JsString :=
  match x with
  | Some s => if nonEmpty s then Some s else None
  | None => None
  end.

(** [x || y] for an optional string and a string. *)
Definition orElse (x : option JsString) (y : JsString) : JsString :=
  match x with
  | Some s => if nonEmpty s then s else y
  | None => y
  end.

(** [extractProvince] (hotel-api.mapper.ts) *)
Definition extractProvince (address : option JsString) : option JsString :=
  match address with
  | None => None
  | Some a =>
      if nonEmpty a then
        last (filter (fun part => nonEmpty part = true) (trim <$> split 44 a))
      else None
  end.

(** *** Regular expressions *)

(** The patterns of the mappers use classes, sequence, alternation and
    repetition, between [^] and [$] and without flags: [test] asks whether
    the whole string is in the language of the pattern. *)
Inductive Regex :=
| Void
| Eps
| Chars (p : N -> bool)
| Cat (r1 r2 : Regex)
| Alt (r1 r2 : Regex)
| Star (r : Regex).

Definition Opt (r : Regex) : Regex := Alt r Eps.
Definition Plus (r : Regex) : Regex := Cat r (Star r).
Definition Chr (c : N) : Regex := Chars (N.eqb c).

Fixpoint Str (s : JsString) : Regex :=
  match s with
  | [] => Eps
  | c :: s' => Cat (Chr c) (Str s')
  end.

Fixpoint nullable (r : Regex) : bool :=
  match r with
  | Void => false
  | Eps => true
  | Chars _ => false
  | Cat r1 r2 => nullable r1 && nullable r2
  | Alt r1 r2 => nullable r1 || nullable r2
  | Star _ => true
  end.

(** What is left of the pattern once it has read [c]. *)
Fixpoint deriv (c : N) (r : Regex) : Regex :=
  match r with
  | Void => Void
  | Eps => Void
  | Chars p => if p c then Eps else Void
  | Cat r1 r2 =>
      if nullable r1 then Alt (Cat (deriv c r1) r2) (deriv c r2)
      else Cat (deriv c r1) r2
  | Alt r1 r2 => Alt (deriv c r1) (deriv c r2)
  | Star r1 => Cat (deriv c r1) (Star r1)
  end.

(** [/^r$/.test(s)] *)
Definition test (r : Regex) (s : JsString) : bool :=
  nullable (foldl (fun r c => deriv c r) r s).

(** [/^\+?[0-9\-\s]*$/] *)
Definition phoneChar (c : N) : bool :=
  ((48 <=? c) && (c <=? 57) || (c =? 45) || isWhiteSpace c)%N.

Definition PHONE_PATTERN : Regex :=
  Cat (Opt (Chr 43)) (Star (Chars phoneChar)).

(** [/^(https?|ftp):\/\/[^\s\/$.?#].[^\s]*$/] *)
Definition hostStart (c : N) : bool :=
  negb (isWhiteSpace c || (c =? 47) || (c =? 36) || (c =? 46) || (c =? 63)
        || (c =? 35))%N.

Definition URL_PATTERN : Regex :=
  Cat (Alt (Cat (Str (lit "http")) (Opt (Chr 115))) (Str (lit "ftp")))
    (Cat (Str (lit "://"))
       (Cat (Chars hostStart)
          (Cat (Chars (fun c => negb (isLineTerminator c)))
             (Star (Chars (fun c => negb (isWhiteSpace c))))))).

(** [/^[^\s@]+@[^\s@]+\.[^\s@]+$/] *)
Definition emailChar (c : N) : bool :=
  negb (isWhiteSpace c || (c =? 64))%N.

Definition EMAIL_PATTERN : Regex :=
  Cat (Plus (Chars emailChar))
    (Cat (Chr 64)
       (Cat (Plus (Chars emailChar))
          (Cat (Chr 46) (Plus (Chars emailChar))))).

(** [isValidPhone], [isValidUrl], [isValidEmail] *)
Definition isValidPhone (phone : option JsString) : bool :=
  match phone with
  | Some s => nonEmpty s && test PHONE_PATTERN (trim s)
  | None => false
  end.

Definition isValidUrl (url_ : option JsString) : bool :=
  match url_ with
  | Some s => nonEmpty s && test URL_PATTERN (trim s)
  | None => false
  end.

Definition isValidEmail (email : option JsString) : bool :=
  match email with
  | Some s => nonEmpty s && test EMAIL_PATTERN (trim s)
  | None => false
  end.

(** [x && valid(x) ? x : undefined] *)
Definition validOr (valid : option JsString -> bool) (x : option JsString)
  : option JsString :=
  match x with
  | Some s => if nonEmpty s && valid x then Some s else None
  | None => None
  end.

(** A JavaScript number: NaN, an infinity, or the finite value
    [m * 2 ^ e]. *)
Inductive JsNumber :=
| NaN
| Infinity (negative : bool)
| Num (m e : Z).

Definition isFinite (v : JsNumber) : bool :=
  match v with
  | Num _ _ => true
  | NaN | Infinity _ => false
  end.

(** [score >= 0.0] and [score <= 5.0] *)
Definition geZero (v : JsNumber) : bool :=
  match v with
  | NaN => false
  | Infinity negative => negb negative
  | Num m _ => 0 <=? m
  end.

Definition leFive (v : JsNumber) : bool :=
  match v with
  | NaN => false
  | Infinity negative => negative
  | Num m e => if 0 <=? e then m * 2 ^ e <=? 5 else m <=? 5 * 2 ^ (- e)
  end.

Definition isNaN (v : JsNumber) : bool :=
  match v with
  | NaN => true
  | Infinity _ | Num _ _ => false
  end.

(** [isValidScore] *)
Definition isValidScore (score : option JsNumber) : bool :=
  match score with
  | None => false
  | Some v => negb (isNaN v) && geZero v && leFive v
  end.

Record RestaurantItem := {
  ri_name : option JsString;
  ri_address : option JsString;
  ri_province : option JsString;
  ri_phone : option JsString;
  ri_mobilePhone : option JsString;
  ri_email : option JsString;
  ri_website : option JsString;
  ri_imageUrl : option JsString;
  ri_score : option JsNumber;
  ri_latitude : option JsNumber;
  ri_longitude : option JsNumber
}.

(** The fields that are [null] rather than left out when empty are [None]
    as well. *)
Record RestaurantCreateRequest := {
  rq_name : JsString;
  rq_address : option JsString;
  rq_province : option JsString;
  rq_phone : option JsString;
  rq_mobilePhone : option JsString;
  rq_email : option JsString;
  rq_website : option JsString;
  rq_imageUrl : option JsString;
  rq_detailLink : option JsString;
  rq_score : option JsNumber;
  rq_lat : option JsString;
  rq_lng : option JsString;
  rq_crawledBy : option JsString;
  rq_crawlerName : option JsString
}.

Record LandmarkItem := {
  li_name : option JsString;
  li_address : option JsString;
  li_province : option JsString;
  li_phone : option JsString;
  li_mobilePhone : option JsString;
  li_email : option JsString;
  li_website : option JsString;
  li_imageUrl : option JsString;
  li_latitude : option JsNumber;
  li_longitude : option JsNumber
}.

Record LandmarkCreateRequest := {
  lq_name : JsString;
  lq_address : option JsString;
  lq_province : option JsString;
  lq_phone : option JsString;
  lq_mobilePhone : option JsString;
  lq_email : option JsString;
  lq_website : option JsString;
  lq_imageUrl : option JsString;
  lq_detailLink : JsString;
  lq_lat : option JsString;
  lq_lng : option JsString;
  lq_crawledBy : option JsString;
  lq_crawlerName : option JsString
}.

Section Mappers.
(** [Number.prototype.toString] *)
Variable numberToString : JsNumber -> JsString.

(** [formatCoordinate] *)
Definition formatCoordinate (value : option JsNumber) : option JsString :=
  match value with
  | Some v => if isFinite v then Some (numberToString v) else None
  | None => None
  end.

(** [mapRestaurantItemToApiRequest] (restaurant-api.mapper.ts) *)
Definition mapRestaurantItemToApiRequest (restaurant : RestaurantItem)
    (detailLink : JsString) (crawledBy crawlerName : option JsString)
  : RestaurantCreateRequest :=
  let name := trim <$> ri_name restaurant in
  let safeName := orElse name (lit "Unknown restaurant") in
  let phone := trim <$> ri_phone restaurant in
  let validPhone := validOr isValidPhone phone in
  let mobilePhone := trim <$> ri_mobilePhone restaurant in
  let validMobilePhone := validOr isValidPhone mobilePhone in
  let email := trim <$> ri_email restaurant in
  let validEmail := validOr isValidEmail email in
  let website := trim <$> ri_website restaurant in
  let validWebsite := validOr isValidUrl website in
  let imageUrl := trim <$> ri_imageUrl restaurant in
  let validImageUrl := validOr isValidUrl imageUrl in
  let validDetailLink := validOr isValidUrl (Some detailLink) in
  let score :=
    if isValidScore (ri_score restaurant) then ri_score restaurant else None in
  {| rq_name := safeName;
     rq_address := orUndefined (trim <$> ri_address restaurant);
     rq_province := orUndefined (trim <$> ri_province restaurant);
     rq_phone := orUndefined validPhone;
     rq_mobilePhone := orUndefined validMobilePhone;
     rq_email := orUndefined validEmail;
     rq_website := orUndefined validWebsite;
     rq_imageUrl := orUndefined validImageUrl;
     rq_detailLink := orUndefined validDetailLink;
     rq_score := score;
     rq_lat := formatCoordinate (ri_latitude restaurant);
     rq_lng := formatCoordinate (ri_longitude restaurant);
     rq_crawledBy := orUndefined crawledBy;
     rq_crawlerName := orUndefined crawlerName |}.

(** [mapLandmarkItemToApiRequest] (landmark-api.mapper.ts) *)
Definition mapLandmarkItemToApiRequest (landmark : LandmarkItem)
    (detailLink : JsString) (crawledBy crawlerName : option JsString)
  : LandmarkCreateRequest :=
  let name := trim <$> li_name landmark in
  let safeName := orElse name (lit "Unknown landmark") in
  {| lq_name := safeName;
     lq_address := orUndefined (trim <$> li_address landmark);
     lq_province := orUndefined (trim <$> li_province landmark);
     lq_phone := orUndefined (trim <$> li_phone landmark);
     lq_mobilePhone := orUndefined (trim <$> li_mobilePhone landmark);
     lq_email := orUndefined (trim <$> li_email landmark);
     lq_website := orUndefined (trim <$> li_website landmark);
     lq_imageUrl := orUndefined (trim <$> li_imageUrl landmark);
     lq_detailLink := detailLink;
     lq_lat := formatCoordinate (li_latitude landmark);
     lq_lng := formatCoordinate (li_longitude landmark);
     lq_crawledBy := orUndefined crawledBy;
     lq_crawlerName := orUndefined crawlerName |}.
End Mappers.

(** *** The language of a pattern *)

Inductive Matches : Regex -> JsString -> Prop :=
| MEps : Matches Eps []
| MChars p c : p c = true -> Matches (Chars p) [c]
| MCat r1 r2 s1 s2 : Matches r1 s1 -> Matches r2 s2 -> Matches (Cat r1 r2) (s1 ++ s2)
| MAltL r1 r2 s : Matches r1 s -> Matches (Alt r1 r2) s
| MAltR r1 r2 s : Matches r2 s -> Matches (Alt r1 r2) s
| MStarNil r : Matches (Star r) []
| MStarCons r s1 s2 :
    Matches r s1 -> Matches (Star r) s2 -> Matches (Star r) (s1 ++ s2).

(** A string free of blanks at both ends. *)
Definition trimmed (s : JsString) : Prop :=
  match s with
  | [] => True
  | c :: _ => isWhiteSpace c = false
  end /\
  match last s with
  | None => True
  | Some c => isWhiteSpace c = false
  end.

Definition blank (s : JsString) : Prop :=
  Forall (fun c => isWhiteSpace c = true) s.

(** The prefixes a URL accepted by the pattern can start with. *)
Definition schemes : list JsString :=
  [lit "http://"; lit "https://"; lit "ftp://"].

(** * Properties *)

(** ** The orchestrator monad *)

(** ** Events delivered by a computation *)

Lemma emits_ret {A} P (a : A) : emits P (ret a).
Proof. intros st. constructor. Qed.

Lemma emits_throw {A} P e : emits P (@throw A e).
Proof. intros st. constructor. Qed.

Lemma emits_await {A} P (p : Settled A) : emits P (await p).
Proof. intros st. constructor. Qed.

Lemma emits_deliver P e : P e -> emits P (deliver e).
Proof. intros H st. repeat constructor. exact H. Qed.

Lemma emits_setResult P p : emits P (setResult p).
Proof. intros st. constructor. Qed.

Lemma emits_getResultVar P : emits P getResultVar.
Proof. intros st. constructor. Qed.

Lemma emits_newPlaywrightCrawler P : emits P newPlaywrightCrawler.
Proof. intros st. constructor. Qed.

Lemma emits_logError P l : emits P (logError l).
Proof. intros st. constructor. Qed.

Lemma emits_dateNow P c : emits P (dateNow c).
Proof. intros st. constructor. Qed.

Lemma emits_bind {A B} P (m : M A) (k : A -> M B) :
  emits P m -> (forall a, emits P (k a)) -> emits P (bind m k).
Proof.
  intros Hm Hk st. unfold bind, events. specialize (Hm st).
  destruct (m st) as [[[a|e] st1] o1]; simpl in *; [|exact Hm].
  specialize (Hk a st1). destruct (k a st1) as [[r st2] o2]; simpl in *.
  apply Forall_app; split; assumption.
Qed.

Lemma emits_tryCatch {A} P (m : M A) h :
  emits P m -> (forall e, emits P (h e)) -> emits P (tryCatch m h).
Proof.
  intros Hm Hh st. unfold tryCatch, events. specialize (Hm st).
  destruct (m st) as [[[a|e] st1] o1]; simpl in *; [exact Hm|].
  specialize (Hh e st1). destruct (h e st1) as [[r st2] o2]; simpl in *.
  apply Forall_app; split; assumption.
Qed.

Lemma emits_forEach {A} P (f : A -> M unit) (l : list A) (Q : A -> Prop) :
  Forall Q l -> (forall x, Q x -> emits P (f x)) -> emits P (forEach f l).
Proof.
  intros Hl Hf. induction Hl as [|x l Hx Hl IH]; simpl.
  - apply emits_ret.
  - apply emits_bind; [by apply Hf | intros _; exact IH].
Qed.

Create HintDb emits.
#[local] Hint Resolve emits_ret emits_throw emits_await emits_setResult
  emits_getResultVar emits_newPlaywrightCrawler emits_logError emits_dateNow
  : emits.

(** Splits a sequence of steps into its steps and closes those that
    deliver nothing. *)
Ltac emits_seq :=
  repeat first
    [ apply emits_bind; [|intros ?]
    | apply emits_tryCatch; [|intros ?] ];
  eauto with emits.

Lemma bind_resolved {A B} (m : M A) (k : A -> M B) st a st1 o1 :
  m st = (Resolved a, st1, o1) ->
  bind m k st = (outcome (k a st1), final (k a st1), o1 ++ events (k a st1)).
Proof.
  intros H. unfold bind, outcome, final, events. rewrite H.
  by destruct (k a st1) as [[r st2] o2].
Qed.

Lemma bind_rejected {A B} (m : M A) (k : A -> M B) st e st1 o1 :
  m st = (Rejected e, st1, o1) -> bind m k st = (Rejected e, st1, o1).
Proof. intros H. unfold bind. by rewrite H. Qed.

Lemma tryCatch_resolved {A} (m : M A) h st a st1 o1 :
  m st = (Resolved a, st1, o1) -> tryCatch m h st = (Resolved a, st1, o1).
Proof. intros H. unfold tryCatch. by rewrite H. Qed.

Lemma tryCatch_rejected {A} (m : M A) h st e st1 o1 :
  m st = (Rejected e, st1, o1) ->
  tryCatch m h st = (outcome (h e st1), final (h e st1), o1 ++ events (h e st1)).
Proof.
  intros H. unfold tryCatch, outcome, final, events. rewrite H.
  by destruct (h e st1) as [[r st2] o2].
Qed.

Section MonadFacts.
Context {Page : Type}.
Implicit Types (env : @RunEnv Page) (h : @Handler Page).

Lemma emits_emitEvent env b (P : StreamEvent -> Prop) body0 :
  (forall t, P {| body := body0; requestId := Some (runId env); timestamp := Some t |}) ->
  emits P (emitEvent b env body0).
Proof.
  intros H. unfold emitEvent. destruct b; [|apply emits_ret].
  apply emits_bind; [apply emits_dateNow|]. intros t. apply emits_deliver, H.
Qed.

Lemma emits_wrapped env b he (P : StreamEvent -> Prop) :
  (forall e, relayed env he e -> P e) ->
  emits P (wrappedStreamCallback b env he).
Proof.
  intros H. unfold wrappedStreamCallback. destruct b; [|apply emits_ret].
  apply emits_bind.
  - unfold timestampOr. destruct (timestamp he); [case_decide|];
      auto using emits_dateNow, emits_ret.
  - intros t. apply emits_deliver, H. repeat split; simpl; eauto.
Qed.
End MonadFacts.


(** ** What a run delivers *)

Section RunFacts.
Context {Page : Type}.
Implicit Types (env : @RunEnv Page) (h : @Handler Page) (m : @Mode Page).

Lemma requestHandler_emits m req b env h a :
  a ∈ attempts (crawlerRun env) ->
  emits (checkpoint_or_relayed env h (url req)) (requestHandler m req b env h a).
Proof.
  intros Ha. unfold requestHandler.
  assert (Hown : forall msg pct,
    emits (checkpoint_or_relayed env h (url req))
      (emitEvent b env (EvProgress msg pct))).
  { intros msg pct. apply emits_emitEvent. intros t. left.
    split; [reflexivity|]. split; simpl; eauto. }
  emits_seq.
  apply (emits_forEach _ _ _ (fun he => he ∈ (h (page a) (url req)).1)).
  - apply Forall_forall. auto.
  - intros he Hhe. apply emits_wrapped. intros e He. right. eauto.
Qed.

Lemma runCrawler_emits m req b env h :
  emits (checkpoint_or_relayed env h (url req)) (runCrawler m req b env h).
Proof.
  unfold runCrawler. apply emits_bind; [|intros _; apply emits_await].
  apply (emits_forEach _ _ _ (fun a => a ∈ attempts (crawlerRun env))).
  - apply Forall_forall. auto.
  - intros a Ha. apply emits_tryCatch.
    + by apply requestHandler_emits.
    + intros _. apply emits_ret.
Qed.

Lemma forEach_wrapped_run b env (l : list StreamEvent) st :
  exists st' o,
    forEach (wrappedStreamCallback b env) l st = (Resolved tt, st', o) /\
    result st' = result st.
Proof.
  revert st. induction l as [|he l IH]; intros st; simpl.
  - by exists st, [].
  - unfold bind at 1.
    assert (exists st1 o1, wrappedStreamCallback b env he st = (Resolved tt, st1, o1)
                           /\ result st1 = result st) as (st1 & o1 & -> & H1).
    { unfold wrappedStreamCallback, timestampOr. destruct b; [|by exists st, []].
      destruct (timestamp he) as [t|]; [case_decide|]; simpl; eauto. }
    destruct (IH st1) as (st2 & o2 & -> & H2). exists st2, (o1 ++ o2).
    split; [reflexivity | congruence].
Qed.

(** The state a handler call leaves behind. *)
Lemma requestHandler_result m req b env h a st :
  result (final (requestHandler m req b env h a st)) =
  default (result st) (attemptResult h (url req) a).
Proof.
  unfold requestHandler, attemptResult.
  destruct (forEach_wrapped_run b env (h (page a) (url req)).1
              (final (emitEvent b env (EvProgress "Processing data..." (Some 50))
                 (final (smartWait env
                  (final (emitEvent b env (EvProgress "Page loaded, extracting data..." (Some 30))
                    (final (emitEvent b env (EvProgress "Loading page..." (Some 10)) st)))))))))
    as (st' & o & Hrun & Hres).
  revert Hrun Hres.
  unfold tryCatch, bind, emitEvent, smartWait, await, final, dateNow, deliver,
    setResult, logError, throw, ret.
  destruct b; simpl; intros Hrun Hres;
    (destruct (gotoOutcome a) as [[]|e]; simpl; [|reflexivity]);
    rewrite Hrun;
    (destruct (h (page a) (url req)).2 as [p|e]; simpl; [reflexivity | exact Hres]).
Qed.

Lemma attempts_result m req b env h (l : list Attempt) st :
  truthy (result st) = false -> Forall (fruitless h (url req)) l ->
  truthy (result (final
    (forEach (fun a => tryCatch (requestHandler m req b env h a) (fun _ => ret tt))
       l st))) = false.
Proof.
  intros Hst Hl. revert st Hst.
  induction Hl as [|a l Ha Hl IH]; intros st Hst; simpl; [exact Hst|].
  pose proof (requestHandler_result m req b env h a st) as Hr.
  unfold bind, tryCatch, final in *.
  destruct (requestHandler m req b env h a st) as [[[[]|e] st1] o1]; simpl in *.
  - specialize (IH st1).
    destruct (forEach _ l st1) as [[r st2] o2]; simpl in *. apply IH.
    rewrite Hr. unfold fruitless in Ha.
    destruct (attemptResult h (url req) a); simpl; auto.
  - specialize (IH st1).
    destruct (forEach _ l st1) as [[r st2] o2]; simpl in *. apply IH.
    rewrite Hr. unfold fruitless in Ha.
    destruct (attemptResult h (url req) a); simpl; auto.
Qed.
Lemma runAttempts_run m req b env h st :
  exists st' o,
    runAttempts m req b env h st = (Resolved tt, st', o) /\
    Forall (checkpoint_or_relayed env h (url req)) o.
Proof.
  pose proof (runCrawler_emits m req b env h st) as Hem.
  unfold runCrawler, events, bind in Hem. fold (runAttempts m req b env h) in Hem.
  assert (exists st' o, runAttempts m req b env h st = (Resolved tt, st', o))
    as (st' & o & Hrun).
  { clear Hem. unfold runAttempts. generalize (attempts (crawlerRun env)).
    intros l. revert st. induction l as [|a l IH]; intros st; simpl; [by eexists _, _|].
    unfold bind at 1, tryCatch at 1.
    destruct (requestHandler m req b env h a st) as [[[[]|e] st1] o1];
      destruct (IH st1) as (st2 & o2 & Heq); cbn [ret];
      rewrite Heq; by eexists _, _. }
  exists st', o. split; [exact Hrun|]. rewrite Hrun in Hem. simpl in Hem.
  by rewrite app_nil_r in Hem.
Qed.

Lemma crawlBody_run m req env h t0 st :
  let r := crawlBody m req true env (h, t0) st in
  let p := result (final (runAttempts m req true env h st)) in
  exists mid last,
    events r = mid ++ [last] /\
    Forall (checkpoint_or_relayed env h (url req)) mid /\
    own env last /\
    match runOutcome (crawlerRun env) with
    | Rejected e => outcome r = Rejected e /\ body last = EvError (error_message e)
    | Resolved _ =>
        if truthy p then
          outcome r = Resolved p /\
          exists d, body last = EvComplete (totalItemsOf m p) (Some d)
        else
          outcome r = Rejected (JsError (missingMessage m (site req))) /\
          body last = EvError (missingMessage m (site req))
    end.
Proof.
  destruct (runAttempts_run m req true env h st) as (st2 & o & Hrun & Ho).
  cbv zeta. rewrite Hrun. unfold final at 1. simpl fst. simpl snd.
  assert (Hrc : runCrawler m req true env h st
                = (runOutcome (crawlerRun env), st2, o ++ [])).
  { unfold runCrawler. fold (runAttempts m req true env h).
    by rewrite (bind_resolved _ _ _ _ _ _ Hrun). }
  unfold crawlBody. cbn [fst snd].
  destruct (runOutcome (crawlerRun env)) as [[]|e].
  - destruct (truthy (result st2)) eqn:Ht.
    + erewrite tryCatch_resolved.
      2:{ rewrite (bind_resolved _ _ _ _ _ _ Hrc). unfold getResultVar.
          cbn. rewrite Ht. cbn. reflexivity. }
      eexists o, _. split; [cbn; by rewrite !app_nil_r|].
      split; [exact Ho|]. split; [split; simpl; eauto|].
      split; [reflexivity|]. simpl. eauto.
    + erewrite tryCatch_rejected.
      2:{ rewrite (bind_resolved _ _ _ _ _ _ Hrc). unfold getResultVar.
          cbn. rewrite Ht. cbn. reflexivity. }
      eexists o, _. split; [cbn; by rewrite !app_nil_r|].
      split; [exact Ho|]. split; [split; simpl; eauto|].
      split; reflexivity.
  - erewrite tryCatch_rejected.
    2:{ by rewrite (bind_rejected _ _ _ _ _ _ Hrc). }
    eexists o, _. split; [cbn; by rewrite !app_nil_r|].
    split; [exact Ho|]. split; [split; simpl; eauto|].
    split; reflexivity.
Qed.
End RunFacts.


Section ServiceFacts.
Context {Page : Type}.
Implicit Types (env : @RunEnv Page) (h : @Handler Page) (m : @Mode Page)
  (c : @Crawler Page) (cs : @CrawlService Page).

Lemma crawlPrologue_unsupported m c req b env st :
  table m c !! site req = None ->
  crawlPrologue m c req b env st
  = (Rejected (JsError (unsupportedMessage m req)), st, []).
Proof. intros H. unfold crawlPrologue. by rewrite H. Qed.

Lemma crawlWith_unsupported m c req b env st :
  table m c !! site req = None ->
  crawlWith m c req b env st
  = (Rejected (JsError (unsupportedMessage m req)), st, []).
Proof.
  intros H. unfold crawlWith.
  by rewrite (bind_rejected _ _ _ _ _ _ (crawlPrologue_unsupported _ _ _ _ _ _ H)).
Qed.

Lemma crawlPrologue_run m c req env h st :
  table m c !! site req = Some h ->
  crawlPrologue m c req true env st
  = (Resolved (h, clock env (reads st)),
     {| result := PUndefined; contexts := S (contexts st);
        reads := S (S (reads st)); logged := logged st |},
     [ {| body := EvProgress (startMessage m (site req)) (Some 0);
          requestId := Some (runId env);
          timestamp := Some (clock env (S (reads st))) |} ]).
Proof. intros H. unfold crawlPrologue. by rewrite H. Qed.

(** The shape of a run once the handler has been found. *)
Lemma crawlWith_run m c req env h st :
  table m c !! site req = Some h ->
  let r := crawlWith m c req true env st in
  exists first mid last,
    events r = first :: mid ++ [last] /\
    body first = EvProgress (startMessage m (site req)) (Some 0) /\
    own env first /\
    Forall (checkpoint_or_relayed env h (url req)) mid /\
    own env last /\
    match outcome r with
    | Resolved p =>
        truthy p = true /\
        runOutcome (crawlerRun env) = Resolved tt /\
        ~ Forall (fruitless h (url req)) (attempts (crawlerRun env)) /\
        exists d, body last = EvComplete (totalItemsOf m p) (Some d)
    | Rejected e =>
        body last = EvError (error_message e) /\
        (runOutcome (crawlerRun env) = Rejected e \/
         runOutcome (crawlerRun env) = Resolved tt /\
         e = JsError (missingMessage m (site req)))
    end.
Proof.
  intros H. cbv zeta. unfold crawlWith.
  rewrite (bind_resolved _ _ _ _ _ _ (crawlPrologue_run _ _ _ _ _ st H)).
  set (st1 := {| result := PUndefined; contexts := S (contexts st);
                 reads := S (S (reads st)); logged := logged st |}).
  destruct (crawlBody_run m req env h (clock env (reads st)) st1)
    as (mid & last & Hev & Hmid & Hlast & Hout).
  eexists _, mid, last. unfold events at 1, outcome at 1. cbn [fst snd].
  rewrite Hev. split; [reflexivity|]. split; [reflexivity|].
  split; [split; simpl; eauto|]. split; [exact Hmid|]. split; [exact Hlast|].
  destruct (runOutcome (crawlerRun env)) as [[]|e].
  - destruct (truthy (result (final (runAttempts m req true env h st1)))) eqn:Ht.
    + destruct Hout as [-> Hb]. split; [exact Ht|]. split; [reflexivity|].
      split; [|exact Hb]. intros Hfr.
      pose proof (attempts_result m req true env h _ st1 eq_refl Hfr) as Hf.
      unfold runAttempts in Ht. congruence.
    + destruct Hout as [-> Hb]. split; [exact Hb | by right].
  - destruct Hout as [-> Hb]. split; [exact Hb | by left].
Qed.

(** ** persist and the crawl service *)

Lemma persist_run req data env st :
  exists st', persist req data env st = (Resolved tt, st', []).
Proof.
  unfold persist. destruct (persistHandlers (category req)) as [ph|];
    [|by eexists].
  unfold tryCatch, runPersistHandler.
  destruct ph; (destruct (truthy data); [|by eexists]);
    unfold await; (destruct (adminApi env) as [[]|e]; by eexists).
Qed.

Lemma then_persist (mc : M Payload) req env st :
  exists st',
    (data <- mc ;; persist req data env ;; ret data)%run st
    = (outcome (mc st), st', events (mc st)).
Proof.
  unfold outcome, events.
  destruct (mc st) as [[[data|e] st1] o1] eqn:Hmc.
  - rewrite (bind_resolved _ _ _ _ _ _ Hmc).
    destruct (persist_run req data env st1) as (st2 & Hp).
    rewrite (bind_resolved _ _ _ _ _ _ Hp). cbn. rewrite app_nil_r. by eexists.
  - rewrite (bind_rejected _ _ _ _ _ _ Hmc). by eexists.
Qed.

Lemma service_crawl_outcome cs req b env st :
  outcome (service_crawl cs req b env st)
  = outcome (crawl (crawlers cs (category req)) req b env st).
Proof.
  unfold service_crawl.
  by destruct (then_persist (crawl (crawlers cs (category req)) req b env) req env st)
    as (st' & ->).
Qed.

Lemma service_crawl_events cs req b env st :
  events (service_crawl cs req b env st)
  = events (crawl (crawlers cs (category req)) req b env st).
Proof.
  unfold service_crawl.
  by destruct (then_persist (crawl (crawlers cs (category req)) req b env) req env st)
    as (st' & ->).
Qed.

Lemma script_of_spec cs req env :
  settlesAs (script_of cs req env)
  = outcome (service_crawl cs req true env initRun) /\
  syncEvents (script_of cs req env) ++ asyncEvents (script_of cs req env)
  = events (service_crawl cs req true env initRun).
Proof.
  rewrite service_crawl_outcome, service_crawl_events.
  unfold script_of, crawl, crawlWith, jobPrologue.
  destruct (crawlPrologue crawlMode (crawlers cs (category req)) req true env initRun)
    as [[[hs|e] st1] o1] eqn:Hp.
  - rewrite (bind_resolved _ _ _ _ _ _ Hp).
    destruct (then_persist (crawlBody crawlMode req true env hs) req env st1)
      as (st2 & Hb).
    unfold jobBody. rewrite Hb. done.
  - rewrite (bind_rejected _ _ _ _ _ _ Hp). simpl. by rewrite app_nil_r.
Qed.

Lemma crawlWith_truthy m c req env st p :
  outcome (crawlWith m c req true env st) = Resolved p -> truthy p = true.
Proof.
  destruct (table m c !! site req) as [h|] eqn:Hh.
  - destruct (crawlWith_run m c req env h st Hh)
      as (first & mid & last & _ & _ & _ & _ & _ & Hout).
    intros Hp. rewrite Hp in Hout. tauto.
  - by rewrite (crawlWith_unsupported _ _ _ _ _ _ Hh).
Qed.

Lemma script_of_truthy cs req env p :
  settlesAs (script_of cs req env) = Resolved p -> truthy p = true.
Proof.
  destruct (script_of_spec cs req env) as [-> _].
  rewrite service_crawl_outcome. apply crawlWith_truthy.
Qed.
End ServiceFacts.


(** ** The invariant of the job registry *)

Section InvFacts.
Context {Page : Type}.
Variable cs : @CrawlService Page.
Variable world : string -> @RunEnv Page.
Local Abbreviation Core := (Core cs world).
Local Abbreviation Inv := (Inv cs world).
Local Abbreviation fate := (fate cs world).

Lemma foldEvent_status e job : status (foldEvent e job) = status job.
Proof. unfold foldEvent. by destruct (body e). Qed.

Lemma foldEvent_params e job : params (foldEvent e job) = params job.
Proof. unfold foldEvent. by destruct (body e). Qed.

Lemma Core_set_isProcessing b s : Core s -> Core (set_isProcessing b s).
Proof. intros []. by constructor. Qed.

(** Rewriting the record of the running job, status and request kept. *)
Lemma Core_update s id job job' :
  Core s -> jobs s !! id = Some job -> status job = running ->
  status job' = running -> params job' = params job ->
  Core (set_jobs <[id := job']> s).
Proof.
  intros [Hq Hnd Hqd Hrun Hin Hres Hdone Herr] Hjob Hst Hst' Hpar.
  constructor; simpl.
  - intros i Hi. destruct (Hq i Hi) as (Hne & j & Hj & Hjs). split; [done|].
    destruct (decide (id = i)) as [->|Hd].
    + congruence.
    + exists j. by rewrite lookup_insert_ne.
  - done.
  - intros i j. destruct (decide (id = i)) as [->|Hd].
    + rewrite lookup_insert_eq. intros [= <-]. congruence.
    + rewrite lookup_insert_ne by done. apply Hqd.
  - intros i j. destruct (decide (id = i)) as [->|Hd].
    + rewrite lookup_insert_eq. intros [= <-] _. eauto.
    + rewrite lookup_insert_ne by done. apply Hrun.
  - intros r Hr. destruct (Hin r Hr) as (j & Hj & Hjs & Hse).
    destruct (decide (id = runJobId r)) as [->|Hd].
    + exists job'. rewrite lookup_insert_eq. split; [done|]. split; [done|].
      rewrite Hse. unfold fate. rewrite Hpar. congruence.
    + exists j. by rewrite lookup_insert_ne.
  - intros i p Hp. destruct (Hres i p Hp) as (Ht & j & Hj & Hjs). split; [done|].
    destruct (decide (id = i)) as [->|Hd].
    + congruence.
    + exists j. by rewrite lookup_insert_ne.
  - intros i j. destruct (decide (id = i)) as [->|Hd].
    + rewrite lookup_insert_eq. intros [= <-]. congruence.
    + rewrite lookup_insert_ne by done. apply Hdone.
  - intros i j. destruct (decide (id = i)) as [->|Hd].
    + rewrite lookup_insert_eq. intros [= <-]. congruence.
    + rewrite lookup_insert_ne by done. apply Herr.
Qed.

Lemma Core_handleStreamEvent s r e :
  Core s -> inflight s = Some r -> Core (handleStreamEvent (runJobId r) e s).
Proof.
  intros HC Hr. destruct (core_inflight _ _ _ HC r Hr) as (job & Hjob & Hst & _).
  unfold handleStreamEvent. rewrite Hjob.
  eapply Core_update; eauto using foldEvent_status, foldEvent_params.
  by rewrite foldEvent_status.
Qed.

Lemma handleStreamEvent_inflight id e s :
  inflight (handleStreamEvent id e s) = inflight s.
Proof. unfold handleStreamEvent. by destruct (jobs s !! id). Qed.

(** Rewriting a record without touching its status, its request, or the
    message and the finishing date of a failure. *)
Lemma Core_touch s id job job' :
  Core s -> jobs s !! id = Some job ->
  status job' = status job -> params job' = params job ->
  errorMessage job' = errorMessage job -> finishedAt job' = finishedAt job ->
  Core (set_jobs <[id := job']> s).
Proof.
  intros [Hq Hnd Hqd Hrun Hin Hres Hdone Herr] Hjob Hst Hpar Hmsg Hfin.
  constructor; simpl.
  - intros i Hi. destruct (Hq i Hi) as (Hne & j & Hj & Hjs). split; [done|].
    destruct (decide (id = i)) as [->|Hd].
    + exists job'. rewrite lookup_insert_eq. split; [done|]. congruence.
    + exists j. by rewrite lookup_insert_ne.
  - done.
  - intros i j. destruct (decide (id = i)) as [->|Hd].
    + rewrite lookup_insert_eq. intros [= <-] Hs. apply (Hqd i job); congruence.
    + rewrite lookup_insert_ne by done. apply Hqd.
  - intros i j. destruct (decide (id = i)) as [->|Hd].
    + rewrite lookup_insert_eq. intros [= <-] Hs. apply (Hrun i job); congruence.
    + rewrite lookup_insert_ne by done. apply Hrun.
  - intros r Hr. destruct (Hin r Hr) as (j & Hj & Hjs & Hse).
    destruct (decide (id = runJobId r)) as [->|Hd].
    + exists job'. rewrite lookup_insert_eq. split; [done|].
      assert (j = job) as -> by congruence. split; [congruence|].
      rewrite Hse. unfold fate. by rewrite Hpar.
    + exists j. by rewrite lookup_insert_ne.
  - intros i p Hp. destruct (Hres i p Hp) as (Ht & j & Hj & Hjs). split; [done|].
    destruct (decide (id = i)) as [->|Hd].
    + exists job'. rewrite lookup_insert_eq. split; [done|]. congruence.
    + exists j. by rewrite lookup_insert_ne.
  - intros i j. destruct (decide (id = i)) as [->|Hd].
    + rewrite lookup_insert_eq. intros [= <-] Hs.
      destruct (Hdone i job) as (p & Hp & Hf); [done|congruence|].
      exists p. split; [done|]. unfold fate in *. by rewrite Hpar.
    + rewrite lookup_insert_ne by done. apply Hdone.
  - intros i j. destruct (decide (id = i)) as [->|Hd].
    + rewrite lookup_insert_eq. intros [= <-] Hs.
      destruct (Herr i job) as (e & Hf & Hm & Hfi); [done|congruence|].
      exists e. unfold fate in *. rewrite Hpar, Hmsg, Hfin. done.
    + rewrite lookup_insert_ne by done. apply Herr.
Qed.

Lemma foldEvent_kept e job :
  is_error e = false ->
  errorMessage (foldEvent e job) = errorMessage job /\
  finishedAt (foldEvent e job) = finishedAt job.
Proof. unfold is_error, foldEvent. by destruct (body e). Qed.

(** An event that is no error event leaves the invariant alone, whichever
    record it reaches. *)
Lemma Core_stray s id e :
  Core s -> is_error e = false -> Core (handleStreamEvent id e s).
Proof.
  intros HC He. unfold handleStreamEvent.
  destruct (jobs s !! id) as [job|] eqn:Hjob; [|done].
  destruct (foldEvent_kept e job He) as [Hm Hf].
  eapply Core_touch; eauto using foldEvent_status, foldEvent_params.
Qed.

Lemma Core_foldl_handle s r (evs : list StreamEvent) :
  Core s -> inflight s = Some r ->
  Core (foldl (fun s e => handleStreamEvent (runJobId r) e s) s evs) /\
  inflight (foldl (fun s e => handleStreamEvent (runJobId r) e s) s evs) = Some r.
Proof.
  revert s. induction evs as [|e evs IH]; intros s HC Hr; simpl; [done|].
  apply IH.
  - by apply Core_handleStreamEvent.
  - by rewrite handleStreamEvent_inflight.
Qed.

(** The next event of the run has been taken off the pending list. *)
Lemma Core_next_event s r r' :
  Core s -> inflight s = Some r ->
  runJobId r' = runJobId r -> settles r' = settles r ->
  Core (set_inflight (Some r') s).
Proof.
  intros [Hq Hnd Hqd Hrun Hin Hres Hdone Herr] Hr Hid Hse.
  constructor; simpl; try done.
  - intros i j Hj Hjs. destruct (Hrun i j Hj Hjs) as (r0 & Hr0 & Hi).
    exists r'. split; [done|]. congruence.
  - intros r0 [= <-]. rewrite Hid, Hse. by apply Hin.
Qed.

Lemma handleStreamEvent_set_inflight id e x s :
  handleStreamEvent id e (set_inflight x s)
  = set_inflight x (handleStreamEvent id e s).
Proof. unfold handleStreamEvent. simpl. by destruct (jobs s !! id). Qed.

Lemma foldl_handle_set_inflight id x (evs : list StreamEvent) s :
  set_inflight x (foldl (fun s e => handleStreamEvent id e s) s evs)
  = foldl (fun s e => handleStreamEvent id e s) (set_inflight x s) evs.
Proof.
  revert s. induction evs as [|e evs IH]; intros s; simpl; [done|].
  by rewrite IH, handleStreamEvent_set_inflight.
Qed.

Lemma Core_startJob s now id q' job :
  Core s -> inflight s = None -> queue s = id :: q' ->
  jobs s !! id = Some job ->
  Core (startJob cs world now id job (set_queue q' s)) /\
  inflight (startJob cs world now id job (set_queue q' s))
  = Some {| runJobId := id;
            pendingEvents := asyncEvents (script_of cs (params job) (world id));
            settles := settlesAs (script_of cs (params job) (world id)) |}.
Proof.
  intros [Hq Hnd Hqd Hrun Hin Hres Hdone Herr] Hnone Hqueue Hjob.
  unfold startJob.
  set (run0 := {| runJobId := id;
                  pendingEvents := asyncEvents (script_of cs (params job) (world id));
                  settles := settlesAs (script_of cs (params job) (world id)) |}).
  rewrite foldl_handle_set_inflight.
  apply (Core_foldl_handle _ run0); [|done].
  rewrite Hqueue in Hq, Hnd, Hqd. apply NoDup_cons in Hnd as [Hnotin Hnd].
  assert (Hjq : status job = queued).
  { destruct (Hq id) as (_ & j & Hj & Hjs); [apply elem_of_cons; by left|].
    congruence. }
  constructor; simpl.
  - intros i Hi.
    destruct (Hq i) as (Hne & j & Hj & Hjs); [apply elem_of_cons; by right|].
    split; [done|]. exists j. rewrite lookup_insert_ne; [done|].
    intros ->. done.
  - done.
  - intros i j. destruct (decide (id = i)) as [->|Hd].
    + rewrite lookup_insert_eq. by intros [= <-].
    + rewrite lookup_insert_ne by done. intros Hj Hjs.
      specialize (Hqd i j Hj Hjs).
      apply elem_of_cons in Hqd as [Heq|Hmem]; [congruence|done].
  - intros i j. destruct (decide (id = i)) as [->|Hd].
    + rewrite lookup_insert_eq. intros _ _. by exists run0.
    + rewrite lookup_insert_ne by done. intros Hj Hjs.
      destruct (Hrun i j Hj Hjs) as (r & Hr & _). congruence.
  - intros r [= <-]. simpl. exists (startedRecord now job).
    by rewrite lookup_insert_eq.
  - intros i p Hp. destruct (Hres i p Hp) as (Ht & j & Hj & Hjs). split; [done|].
    exists j. rewrite lookup_insert_ne; [done|]. intros ->. congruence.
  - intros i j. destruct (decide (id = i)) as [->|Hd].
    + rewrite lookup_insert_eq. by intros [= <-].
    + rewrite lookup_insert_ne by done. apply Hdone.
  - intros i j. destruct (decide (id = i)) as [->|Hd].
    + rewrite lookup_insert_eq. by intros [= <-].
    + rewrite lookup_insert_ne by done. apply Herr.
Qed.

Lemma Core_finishJob s now r :
  Core s -> inflight s = Some r ->
  Core (finishJob now r (set_inflight None s)).
Proof.
  intros [Hq Hnd Hqd Hrun Hin Hres Hdone Herr] Hr.
  destruct (Hin r Hr) as (job & Hjob & Hst & Hse).
  unfold finishJob. simpl. rewrite Hjob.
  assert (Hnq : forall i, i ∈ queue s -> runJobId r <> i).
  { intros i Hi <-. destruct (Hq _ Hi) as (_ & j & Hj & Hjs). congruence. }
  assert (Hother : forall i j, runJobId r <> i -> jobs s !! i = Some j ->
                               status j <> running).
  { intros i j Hd Hj Hjs. destruct (Hrun i j Hj Hjs) as (r0 & Hr0 & Hi).
    congruence. }
  destruct (settles r) as [data|e] eqn:Hsr; constructor; simpl.
  - intros i Hi. destruct (Hq i Hi) as (Hne & j & Hj & Hjs). split; [done|].
    exists j. rewrite lookup_insert_ne; [done|]. by apply Hnq.
  - done.
  - intros i j. destruct (decide (runJobId r = i)) as [<-|Hd].
    + rewrite lookup_insert_eq. by intros [= <-].
    + rewrite lookup_insert_ne by done. apply Hqd.
  - intros i j. destruct (decide (runJobId r = i)) as [<-|Hd].
    + rewrite lookup_insert_eq. by intros [= <-].
    + rewrite lookup_insert_ne by done. intros Hj Hjs.
      by destruct (Hother i j Hd Hj).
  - done.
  - intros i p. destruct (decide (runJobId r = i)) as [<-|Hd].
    + rewrite !lookup_insert_eq. intros [= <-]. split.
      * apply (script_of_truthy cs (params job) (world (runJobId r))).
        unfold fate in Hse. congruence.
      * eexists. split; [reflexivity|]. done.
    + rewrite !lookup_insert_ne by done. apply Hres.
  - intros i j. destruct (decide (runJobId r = i)) as [<-|Hd].
    + rewrite !lookup_insert_eq. intros [= <-] _. exists data.
      split; [done|]. unfold fate in *. simpl. congruence.
    + rewrite !lookup_insert_ne by done. apply Hdone.
  - intros i j. destruct (decide (runJobId r = i)) as [<-|Hd].
    + rewrite lookup_insert_eq. by intros [= <-].
    + rewrite lookup_insert_ne by done. apply Herr.
  - intros i Hi. destruct (Hq i Hi) as (Hne & j & Hj & Hjs). split; [done|].
    exists j. rewrite lookup_insert_ne; [done|]. by apply Hnq.
  - done.
  - intros i j. destruct (decide (runJobId r = i)) as [<-|Hd].
    + rewrite lookup_insert_eq. by intros [= <-].
    + rewrite lookup_insert_ne by done. apply Hqd.
  - intros i j. destruct (decide (runJobId r = i)) as [<-|Hd].
    + rewrite lookup_insert_eq. by intros [= <-].
    + rewrite lookup_insert_ne by done. intros Hj Hjs.
      by destruct (Hother i j Hd Hj).
  - done.
  - intros i p Hp. destruct (Hres i p Hp) as (Ht & j & Hj & Hjs). split; [done|].
    exists j. rewrite lookup_insert_ne; [done|]. intros <-. congruence.
  - intros i j. destruct (decide (runJobId r = i)) as [<-|Hd].
    + rewrite lookup_insert_eq. by intros [= <-].
    + rewrite lookup_insert_ne by done. apply Hdone.
  - intros i j. destruct (decide (runJobId r = i)) as [<-|Hd].
    + rewrite lookup_insert_eq. intros [= <-] _. exists e. simpl.
      split; [|by eauto]. unfold fate in *. simpl. congruence.
    + rewrite lookup_insert_ne by done. apply Herr.
Qed.

Lemma finishJob_frame now r s :
  queue (finishJob now r s) = queue s /\
  isProcessing (finishJob now r s) = isProcessing s /\
  inflight (finishJob now r s) = inflight s.
Proof.
  unfold finishJob. destruct (jobs s !! runJobId r); [|done].
  by destruct (settles r).
Qed.

Lemma processLoop_head s now :
  Core s ->
  processLoop cs world now (queue s) s
  = match queue s with
    | [] => set_isProcessing false s
    | id :: q' =>
        match jobs s !! id with
        | Some job => startJob cs world now id job (set_queue q' s)
        | None => s
        end
    end.
Proof.
  intros HC. destruct (queue s) as [|id q'] eqn:Hqueue; [done|].
  destruct (core_queue _ _ _ HC id) as (Hne & job & Hjob & _);
    [rewrite Hqueue; set_solver|].
  simpl. rewrite decide_False by done. by rewrite Hjob.
Qed.

Lemma Inv_processLoop s now :
  Core s -> inflight s = None -> isProcessing s = true ->
  Inv (processLoop cs world now (queue s) s).
Proof.
  intros HC Hnone Hproc. rewrite processLoop_head by done.
  destruct (queue s) as [|id q'] eqn:Hqueue.
  - split; [by apply Core_set_isProcessing|]. simpl. by rewrite Hnone.
  - destruct (core_queue _ _ _ HC id) as (Hne & job & Hjob & _);
      [rewrite Hqueue; set_solver|].
    rewrite Hjob.
    destruct (Core_startJob s now id q' job HC Hnone Hqueue Hjob) as [HC' Hin'].
    split; [done|]. rewrite Hin'.
    unfold startJob. simpl.
    generalize (syncEvents (script_of cs (params job) (world id))).
    intros evs.
    assert (forall s0, isProcessing
              (foldl (fun s e => handleStreamEvent id e s) s0 evs)
            = isProcessing s0) as ->.
    { induction evs as [|e evs IH]; intros s0; simpl; [done|].
      rewrite IH. unfold handleStreamEvent. by destruct (jobs s0 !! id). }
    done.
Qed.

Lemma Core_add s request uuid now :
  Core s -> uuid <> "" -> jobs s !! uuid = None ->
  Core (set_queue (queue s ++ [uuid])
          (set_jobs <[uuid := newJob request uuid now]> s)).
Proof.
  intros [Hq Hnd Hqd Hrun Hin Hres Hdone Herr] Hne Hfresh.
  constructor; simpl.
  - intros i Hi. apply elem_of_app in Hi as [Hi|Hi].
    + destruct (Hq i Hi) as (Hn & j & Hj & Hjs). split; [done|].
      exists j. rewrite lookup_insert_ne; [done|]. intros ->. congruence.
    + apply list_elem_of_singleton in Hi as ->. split; [done|].
      eexists. by rewrite lookup_insert_eq.
  - apply NoDup_app. split; [done|]. split; [|apply NoDup_singleton].
    intros i Hi Hi'. apply list_elem_of_singleton in Hi' as ->.
    destruct (Hq _ Hi) as (_ & j & Hj & _). congruence.
  - intros i j. destruct (decide (uuid = i)) as [->|Hd].
    + intros _ _. apply elem_of_app. right. by apply list_elem_of_singleton.
    + rewrite lookup_insert_ne by done. intros Hj Hjs.
      apply elem_of_app. left. by apply (Hqd i j).
  - intros i j. destruct (decide (uuid = i)) as [->|Hd].
    + rewrite lookup_insert_eq. by intros [= <-].
    + rewrite lookup_insert_ne by done. apply Hrun.
  - intros r Hr. destruct (Hin r Hr) as (j & Hj & Hjs & Hse).
    exists j. rewrite lookup_insert_ne; [done|]. intros ->. congruence.
  - intros i p Hp. destruct (Hres i p Hp) as (Ht & j & Hj & Hjs). split; [done|].
    exists j. rewrite lookup_insert_ne; [done|]. intros ->. congruence.
  - intros i j. destruct (decide (uuid = i)) as [->|Hd].
    + rewrite lookup_insert_eq. by intros [= <-].
    + rewrite lookup_insert_ne by done. apply Hdone.
  - intros i j. destruct (decide (uuid = i)) as [->|Hd].
    + rewrite lookup_insert_eq. by intros [= <-].
    + rewrite lookup_insert_ne by done. apply Herr.
Qed.

Lemma Inv_createJob s request uuid now :
  Inv s -> uuid <> "" -> jobs s !! uuid = None ->
  Inv (createJob cs world s request uuid now).1.
Proof.
  intros [HC Hflag] Hne Hfresh.
  pose proof (Core_add s request uuid now HC Hne Hfresh) as HC1.
  unfold createJob, processQueue. simpl.
  destruct (isProcessing s) eqn:Hproc.
  - split; [done|]. simpl. destruct (inflight s); [done|]. by destruct Hflag.
  - destruct (inflight s) eqn:Hin; [congruence|].
    match goal with
    | |- Inv (processLoop _ _ _ ?q ?s1) =>
        change q with (queue s1)
    end.
    apply Inv_processLoop; [|done..].
    by apply Core_set_isProcessing.
Qed.

Lemma Inv_workerStep s now : Inv s -> Inv (workerStep cs world now s).
Proof.
  intros [HC Hflag]. unfold workerStep.
  destruct (inflight s) as [r|] eqn:Hr; [|by split; [|rewrite Hr]].
  destruct (pendingEvents r) as [|e es] eqn:Hev.
  - pose proof (Core_finishJob s now r HC Hr) as HC1.
    destruct (finishJob_frame now r (set_inflight None s)) as (Hq1 & Hp1 & Hi1).
    apply Inv_processLoop; [done| by rewrite Hi1 | by rewrite Hp1].
  - split.
    + eapply Core_next_event with (r := r); try done.
      * by apply Core_handleStreamEvent.
      * by rewrite handleStreamEvent_inflight.
    + simpl. unfold handleStreamEvent. by destruct (jobs s !! runJobId r).
Qed.

Lemma Inv_initial : Inv initial.
Proof.
  split; [|done]. constructor; simpl; try done.
  - intros i Hi. set_solver.
  - apply NoDup_nil_2.
Qed.

Lemma Inv_stray s id e :
  Inv s -> is_error e = false -> Inv (handleStreamEvent id e s).
Proof.
  intros [HC Hflag] He. split; [by apply Core_stray|].
  unfold handleStreamEvent. by destruct (jobs s !! id).
Qed.

Lemma step_Inv s s' : Inv s -> step cs world s s' -> Inv s'.
Proof.
  intros HI Hs. destruct Hs.
  - by apply Inv_createJob.
  - by apply Inv_workerStep.
  - by apply Inv_stray.
Qed.

Lemma reachable_Inv s : reachable cs world s -> Inv s.
Proof.
  unfold reachable. revert s.
  apply (rtc_ind_r (fun s => Inv s) initial); [apply Inv_initial|].
  intros s1 s2 _ Hs IH. by eapply step_Inv.
Qed.
End InvFacts.


(** ** Records over time *)

Section StepFacts.
Context {Page : Type}.
Variable cs : @CrawlService Page.
Variable world : string -> @RunEnv Page.
Local Abbreviation Core := (Core cs world).
Local Abbreviation Inv := (Inv cs world).

Lemma evolves_refl job : evolves job job.
Proof. by repeat split. Qed.

Lemma evolves_trans j1 j2 j3 : evolves j1 j2 -> evolves j2 j3 -> evolves j1 j3.
Proof.
  intros (Hp1 & Hs1) (Hp2 & Hs2). split; [congruence | by etrans].
Qed.

Lemma evolves_same_status j1 j2 :
  params j2 = params j1 -> status j2 = status j1 -> evolves j1 j2.
Proof. intros Hp Hs. split; [done|]. by rewrite Hs. Qed.

Lemma evolves_step j1 j2 :
  params j2 = params j1 -> status_step (status j1) (status j2) ->
  evolves j1 j2.
Proof.
  intros Hp Hs. split; [done | by apply rtc_once].
Qed.

Lemma handle_lookup id e s i :
  jobs (handleStreamEvent id e s) !! i
  = if decide (id = i) then foldEvent e <$> jobs s !! i else jobs s !! i.
Proof.
  unfold handleStreamEvent. case_decide as Hd.
  - subst i. destruct (jobs s !! id) as [job|] eqn:Hj; simpl.
    + by rewrite lookup_insert_eq.
    + by rewrite Hj.
  - destruct (jobs s !! id); simpl; [by rewrite lookup_insert_ne|done].
Qed.

Lemma handle_frame id e s :
  results (handleStreamEvent id e s) = results s /\
  queue (handleStreamEvent id e s) = queue s /\
  isProcessing (handleStreamEvent id e s) = isProcessing s /\
  inflight (handleStreamEvent id e s) = inflight s.
Proof. unfold handleStreamEvent. by destruct (jobs s !! id). Qed.

Lemma foldl_handle_frame id (evs : list StreamEvent) s :
  let s' := foldl (fun s e => handleStreamEvent id e s) s evs in
  results s' = results s /\ queue s' = queue s /\
  isProcessing s' = isProcessing s /\ inflight s' = inflight s.
Proof.
  revert s. induction evs as [|e evs IH]; intros s; simpl; [done|].
  destruct (IH (handleStreamEvent id e s)) as (-> & -> & -> & ->).
  apply handle_frame.
Qed.

Lemma foldl_handle_other id (evs : list StreamEvent) s i :
  id <> i ->
  jobs (foldl (fun s e => handleStreamEvent id e s) s evs) !! i = jobs s !! i.
Proof.
  intros Hd. revert s. induction evs as [|e evs IH]; intros s; simpl; [done|].
  rewrite IH, handle_lookup. by rewrite decide_False.
Qed.

Lemma foldl_handle_same id (evs : list StreamEvent) s job :
  jobs s !! id = Some job ->
  exists job', jobs (foldl (fun s e => handleStreamEvent id e s) s evs) !! id
               = Some job' /\
               status job' = status job /\ params job' = params job.
Proof.
  revert s job. induction evs as [|e evs IH]; intros s job Hj; simpl; [eauto|].
  destruct (IH (handleStreamEvent id e s) (foldEvent e job))
    as (job' & Hj' & Hs & Hp).
  { rewrite handle_lookup, decide_True by done. by rewrite Hj. }
  exists job'. rewrite Hs, Hp, foldEvent_status, foldEvent_params. done.
Qed.

Lemma startJob_frame now id job s :
  let s' := startJob cs world now id job s in
  results s' = results s /\ queue s' = queue s /\
  isProcessing s' = isProcessing s /\
  (forall i, id <> i -> jobs s' !! i = jobs s !! i) /\
  exists job', jobs s' !! id = Some job' /\ status job' = running /\
               params job' = params job.
Proof.
  unfold startJob. cbv zeta. simpl.
  match goal with
  | |- context [foldl ?f ?s0 ?evs] =>
      destruct (foldl_handle_frame id evs s0) as (-> & -> & -> & _);
      pose proof (fun i => foldl_handle_other id evs s0 i) as Ho;
      destruct (foldl_handle_same id evs s0 (startedRecord now job))
        as (job' & Hj' & Hs' & Hp')
  end.
  { simpl. by rewrite lookup_insert_eq. }
  repeat split; try done.
  - intros i Hd. rewrite Ho by done. simpl. by rewrite lookup_insert_ne.
  - exists job'. done.
Qed.

(** [handleStreamEvent] writes neither the request nor the status. *)
Lemma evolves_handle s id0 e id job :
  jobs s !! id = Some job ->
  exists job', jobs (handleStreamEvent id0 e s) !! id = Some job' /\
               evolves job job'.
Proof.
  intros Hj. rewrite handle_lookup. case_decide as Hd.
  - subst id. rewrite Hj. simpl. eexists. split; [done|].
    apply evolves_same_status;
      rewrite ?foldEvent_params, ?foldEvent_status; done.
  - exists job. split; [done | apply evolves_refl].
Qed.

Lemma finishJob_jobs now r s job :
  jobs s !! runJobId r = Some job ->
  (forall i, runJobId r <> i -> jobs (finishJob now r s) !! i = jobs s !! i) /\
  exists job', jobs (finishJob now r s) !! runJobId r = Some job' /\
               params job' = params job /\
               status job' = match settles r with
                             | Resolved _ => done
                             | Rejected _ => error
                             end.
Proof.
  intros Hj. unfold finishJob. rewrite Hj. destruct (settles r); simpl.
  - split; [intros i Hd; by rewrite lookup_insert_ne|].
    eexists. by rewrite lookup_insert_eq.
  - split; [intros i Hd; by rewrite lookup_insert_ne|].
    eexists. by rewrite lookup_insert_eq.
Qed.

Lemma evolves_finish s now r id job :
  Core s -> inflight s = Some r -> jobs s !! id = Some job ->
  exists job', jobs (finishJob now r (set_inflight None s)) !! id = Some job' /\
               evolves job job'.
Proof.
  intros HC Hr Hj.
  destruct (core_inflight _ _ _ HC r Hr) as (j & Hj' & Hst & _).
  destruct (finishJob_jobs now r (set_inflight None s) j Hj')
    as (Hother & j' & Hj'' & Hp & Hs).
  destruct (decide (runJobId r = id)) as [<-|Hd].
  - assert (j = job) as -> by congruence.
    exists j'. split; [done|]. apply evolves_step; [done|].
    rewrite Hs, Hst. destruct (settles r); constructor.
  - exists job. rewrite Hother by done. split; [done | apply evolves_refl].
Qed.

Lemma evolves_loop s now id job :
  Core s -> inflight s = None -> jobs s !! id = Some job ->
  exists job', jobs (processLoop cs world now (queue s) s) !! id = Some job' /\
               evolves job job'.
Proof.
  intros HC Hnone Hj. rewrite (processLoop_head cs world) by done.
  destruct (queue s) as [|id0 q'] eqn:Hqueue.
  - exists job. split; [done | apply evolves_refl].
  - destruct (core_queue _ _ _ HC id0) as (Hne & job0 & Hjob0 & Hq0);
      [rewrite Hqueue; set_solver|].
    rewrite Hjob0.
    destruct (startJob_frame now id0 job0 (set_queue q' s))
      as (_ & _ & _ & Hother & job' & Hj' & Hs' & Hp').
    destruct (decide (id0 = id)) as [->|Hd].
    + assert (job0 = job) as -> by congruence.
      exists job'. split; [done|]. apply evolves_step; [done|].
      rewrite Hs', Hq0. constructor.
    + exists job. rewrite Hother by done. split; [done | apply evolves_refl].
Qed.

Lemma step_evolves s s' id job :
  Inv s -> step cs world s s' -> jobs s !! id = Some job ->
  exists job', jobs s' !! id = Some job' /\ evolves job job'.
Proof.
  intros [HC Hflag] Hstep Hj.
  destruct Hstep as [s request uuid now Hne Hfresh|s now|s id0 job0 e _ _ _];
    [| |by apply evolves_handle].
  - assert (Hd : uuid <> id) by congruence.
    pose proof (Core_add cs world s request uuid now HC Hne Hfresh) as HC1.
    unfold createJob, processQueue. simpl.
    destruct (isProcessing s) eqn:Hproc.
    + exists job. simpl. rewrite lookup_insert_ne by done.
      split; [done | apply evolves_refl].
    + destruct (inflight s) eqn:Hin; [congruence|].
      match goal with
      | |- context [processLoop _ _ _ ?q ?s1] => change q with (queue s1)
      end.
      apply evolves_loop; [by apply Core_set_isProcessing|done|].
      simpl. by rewrite lookup_insert_ne.
  - unfold workerStep. destruct (inflight s) as [r|] eqn:Hr;
      [|exists job; split; [done | apply evolves_refl]].
    destruct (pendingEvents r) as [|e es].
    + destruct (evolves_finish s now r id job HC Hr Hj) as (j1 & Hj1 & He1).
      destruct (finishJob_frame now r (set_inflight None s)) as (_ & _ & Hi1).
      destruct (evolves_loop (finishJob now r (set_inflight None s)) now id j1)
        as (j2 & Hj2 & He2); [by apply Core_finishJob|by rewrite Hi1|done|].
      exists j2. split; [done|]. by eapply evolves_trans.
    + simpl. by apply evolves_handle.
Qed.

Lemma steps_Inv s s' : Inv s -> rtc (step cs world) s s' -> Inv s'.
Proof.
  intros HI Hsteps. induction Hsteps as [|s1 s2 s3 Hs _ IH]; [done|].
  apply IH. by eapply (step_Inv cs world).
Qed.

Lemma steps_evolves s s' id job :
  Inv s -> rtc (step cs world) s s' -> jobs s !! id = Some job ->
  exists job', jobs s' !! id = Some job' /\ evolves job job'.
Proof.
  intros HI Hsteps. revert job. induction Hsteps as [|s1 s2 s3 Hs Hrest IH];
    intros job Hj.
  - exists job. split; [done | apply evolves_refl].
  - destruct (step_evolves s1 s2 id job HI Hs Hj) as (j2 & Hj2 & He2).
    destruct (IH (steps_Inv s1 s2 HI (rtc_once _ _ Hs)) j2 Hj2) as (j3 & Hj3 & He3).
    exists j3. split; [done|]. by eapply evolves_trans.
Qed.

Lemma drain_steps ts s : rtc (step cs world) s (drain cs world ts s).
Proof.
  revert s. induction ts as [|t ts IH]; intros s; simpl; [done|].
  eapply rtc_l; [apply (step_worker cs world s t)|]. apply IH.
Qed.
End StepFacts.


(** ** The worker run to rest *)

Section DrainFacts.
Context {Page : Type}.
Variable cs : @CrawlService Page.
Variable world : string -> @RunEnv Page.
Local Abbreviation Core := (Core cs world).
Local Abbreviation Inv := (Inv cs world).

Lemma weight_stable s s' id job job' :
  jobs s !! id = Some job -> jobs s' !! id = Some job' ->
  params job' = params job ->
  weight cs world s' id = weight cs world s id.
Proof. intros Hj Hj' Hp. unfold weight. by rewrite Hj, Hj', Hp. Qed.

Lemma weights_stable s s' (q : list string) :
  Core s -> (forall id, id ∈ q -> id ∈ queue s) ->
  (forall id job, jobs s !! id = Some job ->
     exists job', jobs s' !! id = Some job' /\ evolves job job') ->
  sum_list (weight cs world s' <$> q) = sum_list (weight cs world s <$> q).
Proof.
  intros HC Hsub Hev. induction q as [|id q IH]; csimpl; [done|].
  rewrite IH by set_solver.
  destruct (core_queue _ _ _ HC id) as (_ & job & Hj & _); [set_solver|].
  destruct (Hev id job Hj) as (job' & Hj' & Hp & _).
  by rewrite (weight_stable s s' id job job').
Qed.

Lemma work_step s now r :
  Inv s -> inflight s = Some r ->
  S (work cs world (workerStep cs world now s)) = work cs world s.
Proof.
  intros HI Hr. pose proof HI as [HC Hflag].
  pose proof (fun id job => step_evolves cs world s _ id job HI
                              (step_worker cs world s now)) as Hev.
  revert Hev. unfold work at 2. rewrite Hr. unfold workerStep. rewrite Hr.
  destruct (pendingEvents r) as [|e es] eqn:Hpe; intros Hev.
  - destruct (finishJob_frame now r (set_inflight None s)) as (Hq1 & _ & Hi1).
    simpl in Hq1, Hi1.
    pose proof (Core_finishJob cs world s now r HC Hr) as HC1.
    revert Hev. rewrite (processLoop_head cs world) by done.
    rewrite Hq1.
    destruct (queue s) as [|id q'] eqn:Hqueue; intros Hev.
    + unfold work. simpl. by rewrite Hi1, Hq1.
    + destruct (core_queue _ _ _ HC1 id) as (_ & job1 & Hj1 & _);
        [rewrite Hq1; set_solver|].
      revert Hev. rewrite Hj1. intros Hev.
      destruct (Core_startJob cs world (finishJob now r (set_inflight None s))
                  now id q' job1 HC1) as [_ Hin']; [done| |done|].
      { by rewrite Hq1. }
      destruct (startJob_frame cs world now id job1
                  (set_queue q' (finishJob now r (set_inflight None s))))
        as (_ & Hq' & _).
      unfold work. rewrite Hin', Hq'. simpl.
      rewrite (weights_stable s _ q' HC); [|rewrite Hqueue; set_solver|done].
      destruct (core_queue _ _ _ HC id) as (_ & job & Hj & _);
        [rewrite Hqueue; set_solver|].
      destruct (evolves_finish cs world s now r id job HC Hr Hj)
        as (j1 & Hj1' & Hp & _).
      assert (j1 = job1) as -> by congruence.
      unfold weight at 2. rewrite Hj, Hp. reflexivity.
  - unfold work. simpl.
    destruct (handle_frame (runJobId r) e s) as (_ & -> & _).
    rewrite (weights_stable s _ (queue s) HC); [lia|done|done].
Qed.

Lemma drain_cons t ts s :
  drain cs world (t :: ts) s = drain cs world ts (workerStep cs world t s).
Proof. reflexivity. Qed.

Lemma workerStep_idle t s : inflight s = None -> workerStep cs world t s = s.
Proof. intros Hn. unfold workerStep. by rewrite Hn. Qed.

Lemma drain_idle ts s : inflight s = None -> drain cs world ts s = s.
Proof.
  intros Hn. induction ts as [|t ts IH]; [done|].
  by rewrite drain_cons, workerStep_idle.
Qed.

(** Resumed often enough, the worker comes to rest. *)
Lemma drain_rests ts s :
  Inv s -> (work cs world s <= length ts)%nat ->
  inflight (drain cs world ts s) = None.
Proof.
  revert s. induction ts as [|t ts IH]; intros s HI Hw.
  - simpl in *. unfold work in Hw. destruct (inflight s); [lia|done].
  - rewrite drain_cons. destruct (inflight s) as [r|] eqn:Hr.
    + apply IH; [by apply Inv_workerStep|].
      pose proof (work_step s t r HI Hr). simpl in Hw. lia.
    + rewrite workerStep_idle by done. by rewrite drain_idle.
Qed.

(** Where every job stands once the worker is at rest. *)
Lemma rest_fate s id job :
  Inv s -> inflight s = None -> jobs s !! id = Some job ->
  match fate cs world id job with
  | Resolved p => status job = done /\ getResult s id = p
  | Rejected e => status job = error /\
                  errorMessage job = Some (error_message e) /\
                  is_Some (finishedAt job)
  end.
Proof.
  intros [HC Hflag] Hn Hj. rewrite Hn in Hflag. destruct Hflag as [_ Hq].
  destruct (status job) eqn:Hs.
  - pose proof (core_queued _ _ _ HC id job Hj Hs) as Hin.
    rewrite Hq in Hin. set_solver.
  - destruct (core_running _ _ _ HC id job Hj Hs) as (r & Hr & _). congruence.
  - destruct (core_done _ _ _ HC id job Hj Hs) as (p & Hp & ->).
    split; [done|]. unfold getResult. by rewrite Hp.
  - destruct (core_error _ _ _ HC id job Hj Hs) as (e & -> & He). done.
Qed.

Lemma drain_fate s ts id job :
  Inv s -> (work cs world s <= length ts)%nat -> jobs s !! id = Some job ->
  exists job', jobs (drain cs world ts s) !! id = Some job' /\
    params job' = params job /\
    match fate cs world id job with
    | Resolved p => status job' = done /\ getResult (drain cs world ts s) id = p
    | Rejected e => status job' = error /\
                    errorMessage job' = Some (error_message e) /\
                    is_Some (finishedAt job')
    end.
Proof.
  intros HI Hw Hj.
  destruct (steps_evolves cs world s _ id job HI (drain_steps cs world ts s) Hj)
    as (job' & Hj' & Hp & _).
  exists job'. split; [done|]. split; [done|].
  pose proof (rest_fate (drain cs world ts s) id job') as Hf.
  unfold fate in *. rewrite Hp in Hf. apply Hf; [|by apply drain_rests|done].
  eapply steps_Inv; [done | apply drain_steps].
Qed.
End DrainFacts.
Section TraceFacts.
Context {Page : Type}.
Implicit Types (env : @RunEnv Page) (h : @Handler Page) (m : @Mode Page)
  (c : @Crawler Page).

Lemma emitEvent_body env b st :
  exists st' e, emitEvent true env b st = (Resolved tt, st', [e]) /\ body e = b.
Proof. unfold emitEvent. cbn. by eexists _, _. Qed.

Lemma forEach_wrapped_bodies env (l : list StreamEvent) st :
  exists st' o,
    forEach (wrappedStreamCallback true env) l st = (Resolved tt, st', o) /\
    body <$> o = body <$> l.
Proof.
  revert st. induction l as [|he l IH]; intros st; cbn [forEach].
  - by exists st, [].
  - unfold bind at 1.
    assert (exists st1 e1, wrappedStreamCallback true env he st
                           = (Resolved tt, st1, [e1]) /\ body e1 = body he)
      as (st1 & e1 & -> & H1).
    { unfold wrappedStreamCallback, timestampOr.
      destruct (timestamp he) as [t|]; [case_decide|]; cbn; by eexists _, _. }
    destruct (IH st1) as (st2 & o2 & -> & H2). exists st2, ([e1] ++ o2).
    split; [reflexivity|]. csimpl. by rewrite H1, H2.
Qed.



Lemma crawlBody_trace m req env h t0 st :
  let r := crawlBody m req true env (h, t0) st in
  exists last,
    events r = events (runAttempts m req true env h st) ++ [last] /\
    match outcome r with
    | Resolved p => exists d, body last = EvComplete (totalItemsOf m p) (Some d)
    | Rejected e => body last = EvError (error_message e)
    end.
Proof.
  destruct (runAttempts_run m req true env h st) as (st2 & o & Hrun & _).
  cbv zeta. rewrite Hrun. unfold events at 2. cbn [snd].
  assert (Hrc : runCrawler m req true env h st
                = (runOutcome (crawlerRun env), st2, o ++ [])).
  { unfold runCrawler. fold (runAttempts m req true env h).
    by rewrite (bind_resolved _ _ _ _ _ _ Hrun). }
  unfold crawlBody. cbn [fst snd].
  destruct (runOutcome (crawlerRun env)) as [[]|e].
  - destruct (truthy (result st2)) eqn:Ht.
    + erewrite tryCatch_resolved.
      2:{ rewrite (bind_resolved _ _ _ _ _ _ Hrc). unfold getResultVar.
          cbn. rewrite Ht. cbn. reflexivity. }
      eexists. split; [cbn; by rewrite !app_nil_r|]. simpl. eauto.
    + erewrite tryCatch_rejected.
      2:{ rewrite (bind_resolved _ _ _ _ _ _ Hrc). unfold getResultVar.
          cbn. rewrite Ht. cbn. reflexivity. }
      eexists. split; [cbn; by rewrite !app_nil_r|]. reflexivity.
  - erewrite tryCatch_rejected.
    2:{ by rewrite (bind_rejected _ _ _ _ _ _ Hrc). }
    eexists. split; [cbn; by rewrite !app_nil_r|]. reflexivity.
Qed.


(** *** Handler events on their way to the sink *)

Lemma wrapped_relays env he st :
  exists st' e,
    wrappedStreamCallback true env he st = (Resolved tt, st', [e]) /\
    passedOn env he e.
Proof.
  unfold wrappedStreamCallback, timestampOr, passedOn, relayed.
  destruct (timestamp he) as [t|]; [case_decide|]; cbn; eexists _, _;
    (split; [reflexivity|]); simpl; (split; [eauto|]); intros t0 Ht0 Hne;
    congruence.
Qed.

Lemma forEach_wrapped_relays env (l : list StreamEvent) st he :
  he ∈ l ->
  exists e, e ∈ events (forEach (wrappedStreamCallback true env) l st) /\
            passedOn env he e.
Proof.
  revert st. induction l as [|he0 l IH]; intros st Hin;
    [by apply elem_of_nil in Hin|].
  cbn [forEach]. destruct (wrapped_relays env he0 st) as (st1 & e1 & Hw & Hrel).
  rewrite (bind_resolved _ _ _ _ _ _ Hw). unfold events at 1. cbn [snd].
  apply elem_of_cons in Hin as [->|Hin].
  - exists e1. split; [apply elem_of_cons; by left | done].
  - destruct (IH st1 Hin) as (e & He & Hr). exists e.
    split; [apply elem_of_cons; by right | done].
Qed.

Lemma requestHandler_relays m req env h a st he :
  gotoOutcome a = Resolved tt -> he ∈ (h (page a) (url req)).1 ->
  exists e, e ∈ events (requestHandler m req true env h a st) /\
            passedOn env he e.
Proof.
  intros Hgoto Hin. unfold requestHandler.
  set (st3 := final (emitEvent true env (EvProgress "Processing data..." (Some 50))
                 (final (smartWait env
                  (final (emitEvent true env (EvProgress "Page loaded, extracting data..." (Some 30))
                    (final (emitEvent true env (EvProgress "Loading page..." (Some 10)) st)))))))).
  destruct (forEach_wrapped_relays env _ st3 he Hin) as (e & He & Hrel).
  exists e. split; [|done]. revert He. subst st3.
  destruct (forEach_wrapped_bodies env (h (page a) (url req)).1
              (final (emitEvent true env (EvProgress "Processing data..." (Some 50))
                 (final (smartWait env
                  (final (emitEvent true env (EvProgress "Page loaded, extracting data..." (Some 30))
                    (final (emitEvent true env (EvProgress "Loading page..." (Some 10)) st)))))))))
    as (st' & o & Hrun & _).
  revert Hrun.
  unfold tryCatch, bind, emitEvent, smartWait, await, final, events, dateNow,
    deliver, setResult, logError, throw, ret.
  rewrite Hgoto. simpl. intros Hrun. rewrite Hrun. simpl. intros He.
  destruct (h (page a) (url req)).2 as [p|e0]; simpl;
    rewrite ?elem_of_cons, ?elem_of_app; tauto.
Qed.

Lemma attempts_relay m req env h (l : list Attempt) st a he :
  a ∈ l -> gotoOutcome a = Resolved tt -> he ∈ (h (page a) (url req)).1 ->
  exists e,
    e ∈ events (forEach (fun a => tryCatch (requestHandler m req true env h a)
                                    (fun _ => ret tt)) l st) /\
    passedOn env he e.
Proof.
  intros Ha Hgoto Hhe. revert st.
  induction l as [|a0 l IH]; intros st; [by apply elem_of_nil in Ha|].
  cbn [forEach]. unfold events, bind at 1, tryCatch at 1.
  apply elem_of_cons in Ha as [<-|Ha].
  - destruct (requestHandler_relays m req env h a st he Hgoto Hhe)
      as (e & He & Hrel).
    exists e. split; [|done]. unfold events in He.
    destruct (requestHandler m req true env h a st) as [[[[]|e0] st1] o1];
      cbn [ret snd] in *.
    + destruct (forEach _ l st1) as [[r st2] o2]. simpl.
      apply elem_of_app. by left.
    + destruct (forEach _ l st1) as [[r st2] o2]. simpl.
      rewrite app_nil_r. apply elem_of_app. by left.
  - destruct (requestHandler m req true env h a0 st) as [[[[]|e0] st1] o1];
      cbn [ret]; destruct (IH Ha st1) as (e & He & Hrel); exists e;
      (split; [|done]); unfold events in He;
      destruct (forEach _ l st1) as [[r st2] o2]; simpl in *;
      rewrite ?app_nil_r; apply elem_of_app; by right.
Qed.

Lemma crawlWith_relays m c req env h st a he :
  table m c !! site req = Some h ->
  a ∈ attempts (crawlerRun env) -> gotoOutcome a = Resolved tt ->
  he ∈ (h (page a) (url req)).1 ->
  exists e, e ∈ events (crawlWith m c req true env st) /\ passedOn env he e.
Proof.
  intros H Ha Hgoto Hhe. unfold crawlWith.
  rewrite (bind_resolved _ _ _ _ _ _ (crawlPrologue_run _ _ _ _ _ st H)).
  set (st1 := {| result := PUndefined; contexts := S (contexts st);
                 reads := S (S (reads st)); logged := logged st |}).
  destruct (crawlBody_trace m req env h (clock env (reads st)) st1)
    as (last & Hev & _).
  destruct (attempts_relay m req env h _ st1 a he Ha Hgoto Hhe)
    as (e & He & Hrel).
  exists e. split; [|done]. unfold events at 1. cbn [snd]. rewrite Hev.
  apply elem_of_cons. right. apply elem_of_app. left. exact He.
Qed.
End TraceFacts.

Section SettlementFacts.
Context {Page : Type}.
Implicit Types (env : @RunEnv Page) (h : @Handler Page) (m : @Mode Page)
  (c : @Crawler Page) (cs : @CrawlService Page).

Lemma attempts_fold m req b env h (l : list Attempt) st :
  exists st' o,
    forEach (fun a => tryCatch (requestHandler m req b env h a) (fun _ => ret tt))
      l st = (Resolved tt, st', o) /\
    result st' = foldl (fun r a => default r (attemptResult h (url req) a))
                   (result st) l.
Proof.
  revert st. induction l as [|a l IH]; intros st; simpl; [by eexists _, _|].
  pose proof (requestHandler_result m req b env h a st) as Hr.
  unfold final in Hr. unfold bind at 1, tryCatch at 1.
  destruct (requestHandler m req b env h a st) as [[[[]|e] st1] o1];
    simpl in Hr; destruct (IH st1) as (st2 & o2 & Heq & Hres); cbn [ret];
    rewrite Heq; eexists _, _; (split; [reflexivity|]); by rewrite Hres, Hr.
Qed.

Lemma emitEvent_resolves b env ev st :
  exists st', (exists o, emitEvent b env ev st = (Resolved tt, st', o)) /\
              result st' = result st /\ contexts st' = contexts st /\
              (reads st <= reads st')%nat.
Proof.
  unfold emitEvent. destruct b; cbn.
  - eexists. split; [by eexists|]. simpl. repeat split; lia.
  - eexists. split; [by eexists|]. repeat split; lia.
Qed.

Lemma crawlBody_outcome m req b env h t0 st :
  outcome (crawlBody m req b env (h, t0) st)
  = match runOutcome (crawlerRun env) with
    | Rejected e => Rejected e
    | Resolved _ =>
        let p := foldl (fun r a => default r (attemptResult h (url req) a))
                   (result st) (attempts (crawlerRun env)) in
        if truthy p then Resolved p
        else Rejected (JsError (missingMessage m (site req)))
    end.
Proof.
  destruct (attempts_fold m req b env h (attempts (crawlerRun env)) st)
    as (st2 & o & Hrun & Hres).
  assert (Hrc : runCrawler m req b env h st
                = (runOutcome (crawlerRun env), st2, o ++ [])).
  { unfold runCrawler. by rewrite (bind_resolved _ _ _ _ _ _ Hrun). }
  cbv zeta. rewrite <- Hres. unfold crawlBody. cbn [fst snd].
  destruct (runOutcome (crawlerRun env)) as [[]|e].
  - destruct (truthy (result st2)) eqn:Ht.
    + erewrite tryCatch_resolved; [reflexivity|].
      rewrite (bind_resolved _ _ _ _ _ _ Hrc). unfold getResultVar. cbn.
      rewrite Ht.
      destruct (emitEvent_resolves b env
                  (EvComplete (totalItemsOf m (result st2))
                     (Some (clock env (reads st2) - t0)))
                  {| result := result st2; contexts := contexts st2;
                     reads := S (reads st2); logged := logged st2 |})
        as (st3 & [o3 He] & _).
      unfold bind at 1, dateNow. cbn. unfold bind at 1. rewrite He. cbn.
      reflexivity.
    + erewrite tryCatch_rejected.
      2:{ rewrite (bind_resolved _ _ _ _ _ _ Hrc). unfold getResultVar.
          cbn. rewrite Ht. cbn. reflexivity. }
      destruct (emitEvent_resolves b env
                  (EvError (error_message (JsError (missingMessage m (site req)))))
                  st2) as (st3 & [o3 He] & _).
      unfold outcome. cbn [fst]. unfold bind. rewrite He. reflexivity.
  - erewrite tryCatch_rejected; [|by rewrite (bind_rejected _ _ _ _ _ _ Hrc)].
    destruct (emitEvent_resolves b env (EvError (error_message e)) st2)
      as (st3 & [o3 He] & _).
    unfold outcome. cbn [fst]. unfold bind. rewrite He. reflexivity.
Qed.

Lemma crawlPrologue_found m c req b env h st :
  table m c !! site req = Some h ->
  exists st1 o1,
    crawlPrologue m c req b env st = (Resolved (h, clock env (reads st)), st1, o1) /\
    result st1 = PUndefined /\ contexts st1 = S (contexts st).
Proof.
  intros Hh. unfold crawlPrologue. rewrite Hh. destruct b; cbn; by eexists _, _.
Qed.

Lemma crawlWith_settlement m c req b env st :
  outcome (crawlWith m c req b env st) = settlement m c req env.
Proof.
  unfold settlement. destruct (table m c !! site req) as [h|] eqn:Hh.
  - destruct (crawlPrologue_found m c req b env h st Hh)
      as (st1 & o1 & Hp & Hres & _).
    unfold crawlWith. rewrite (bind_resolved _ _ _ _ _ _ Hp).
    unfold outcome at 1. cbn [fst].
    rewrite crawlBody_outcome, Hres. reflexivity.
  - by rewrite (crawlWith_unsupported _ _ _ _ _ _ Hh).
Qed.
End SettlementFacts.

Section RunOfTheService.
Context {Page : Type}.
Implicit Types (env : @RunEnv Page) (cs : @CrawlService Page).





End RunOfTheService.


(** * The claims *)

Section Claims.
Context {Page : Type}.
Implicit Types (env : @RunEnv Page) (h : @Handler Page) (m : @Mode Page)
  (c : @Crawler Page) (cs : @CrawlService Page).

Lemma emitEvent_silent env b0 : emits (fun _ => False) (emitEvent false env b0).
Proof. apply emits_ret. Qed.

Lemma wrapped_silent env he :
  emits (fun _ => False) (wrappedStreamCallback false env he).
Proof. apply emits_ret. Qed.

Lemma forEach_silent {A} (f : A -> M unit) (l : list A) :
  (forall x, emits (fun _ => False) (f x)) ->
  emits (fun _ => False) (forEach f l).
Proof.
  intros Hf. apply (emits_forEach _ _ _ (fun _ => True)); [|auto].
  by apply Forall_true.
Qed.

#[local] Hint Resolve emitEvent_silent wrapped_silent forEach_silent : emits.

Lemma requestHandler_silent m req env h a :
  emits (fun _ => False) (requestHandler m req false env h a).
Proof. unfold requestHandler. emits_seq. Qed.

Lemma crawlBody_silent m req env hs :
  emits (fun _ => False) (crawlBody m req false env hs).
Proof.
  unfold crawlBody, runCrawler. emits_seq.
  - apply forEach_silent. intros a. apply emits_tryCatch; [|auto with emits].
    apply requestHandler_silent.
  - match goal with |- context [truthy ?r] => destruct (truthy r) end;
      emits_seq.
Qed.

Lemma crawlWith_silent m c req env st :
  events (crawlWith m c req false env st) = [].
Proof.
  assert (H : emits (fun _ => False) (crawlWith m c req false env)).
  { unfold crawlWith. apply emits_bind; [|intros hs; apply crawlBody_silent].
    unfold crawlPrologue. destruct (table m c !! site req); emits_seq. }
  specialize (H st). destruct (events (crawlWith m c req false env st)); [done|].
  by apply Forall_cons in H as [[] _].
Qed.

(** C7 (as amended).  Every event delivered by an entry point carries a
    request id and a timestamp.  The request id is the run's own, except
    on an event that the handler passed with a non-empty request id of its
    own.  And every event the handler passes once the page has loaded is
    delivered, under the handler's request id when it has a non-empty one
    and under the run's id when it has none, and with the handler's
    timestamp when it has one. *)
Theorem events_carry_request_id m c req onStream env st :
  Forall
    (fun e =>
       is_Some (timestamp e) /\ is_Some (requestId e) /\
       (requestId e = Some (runId env) \/
        exists h a he rid,
          table m c !! site req = Some h /\
          a ∈ attempts (crawlerRun env) /\
          he ∈ (h (page a) (url req)).1 /\
          body e = body he /\
          requestId he = Some rid /\ rid <> "" /\
          requestId e = Some rid))
    (events (crawlWith m c req onStream env st)) /\
  (forall h a he,
     table m c !! site req = Some h ->
     a ∈ attempts (crawlerRun env) -> gotoOutcome a = Resolved tt ->
     he ∈ (h (page a) (url req)).1 ->
     exists e,
       e ∈ events (crawlWith m c req true env st) /\
       body e = body he /\
       requestId e
       = Some (match requestId he with
               | Some rid => if decide (rid = "") then runId env else rid
               | None => runId env
               end) /\
       is_Some (timestamp e) /\
       (forall t, timestamp he = Some t -> t <> 0 -> timestamp e = Some t)).
Proof.
  split.
  - destruct onStream; [|by rewrite crawlWith_silent].
    destruct (table m c !! site req) as [h|] eqn:Hh;
      [|by rewrite (crawlWith_unsupported _ _ _ _ _ _ Hh)].
    destruct (crawlWith_run m c req env h st Hh)
      as (first & mid & last & -> & _ & Hfirst & Hmid & Hlast & _).
    assert (Hcases : Forall (fun e => own env e \/
              exists a he, a ∈ attempts (crawlerRun env) /\
                           he ∈ (h (page a) (url req)).1 /\ relayed env he e)
              (first :: mid ++ [last])).
    { apply Forall_cons. split; [by left|]. apply Forall_app. split.
      - eapply Forall_impl; [exact Hmid|].
        intros e [[_ He]|He]; [by left|by right].
      - apply Forall_singleton. by left. }
    eapply Forall_impl; [exact Hcases|]. clear Hcases. simpl.
    intros e [[He1 He2]|(a & he & Ha & Hhe & Hb & Hr & Ht)].
    + split; [done|]. rewrite He1. split; [by eexists|]. by left.
    + split; [done|]. rewrite Hr. split; [by eexists|].
      unfold requestIdOr. destruct (requestId he) as [rid|] eqn:Hrid; [|by left].
      case_decide as Hd; [by left|]. right. by exists h, a, he, rid.
  - intros h a he Hh Ha Hgoto Hhe.
    destruct (crawlWith_relays m c req env h st a he Hh Ha Hgoto Hhe)
      as (e & He & (Hb & Hid & Ht) & Hkept).
    exists e. split; [done|]. split; [done|]. split; [exact Hid|].
    split; [done | exact Hkept].
Qed.



Section Registry.
Variable cs : @CrawlService Page.
Variable world : string -> @RunEnv Page.

Lemma syncEvents_progress request env e :
  e ∈ syncEvents (script_of cs request env) ->
  exists msg, body e = EvProgress msg (Some 0).
Proof.
  unfold script_of, jobPrologue.
  destruct (table crawlMode (crawlers cs (category request)) !! site request)
    as [h|] eqn:Hh.
  - rewrite (crawlPrologue_run _ _ _ _ _ initRun Hh).
    destruct (jobBody cs request env _ _) as [[r st2] o2]. simpl.
    intros He. apply list_elem_of_singleton in He as ->. by eexists.
  - rewrite (crawlPrologue_unsupported _ _ _ _ _ initRun Hh). simpl.
    by intros ?%elem_of_nil.
Qed.

Lemma foldEvent_jobId e job : jobId (foldEvent e job) = jobId job.
Proof. unfold foldEvent. by destruct (body e). Qed.

Lemma foldl_handle_progress id (evs : list StreamEvent) s job :
  (forall e, e ∈ evs -> exists msg, body e = EvProgress msg (Some 0)) ->
  jobs s !! id = Some job -> progress job = 0 ->
  exists job', jobs (foldl (fun s e => handleStreamEvent id e s) s evs) !! id
               = Some job' /\ progress job' = 0 /\ jobId job' = jobId job.
Proof.
  revert s job. induction evs as [|e evs IH]; intros s job Hevs Hj Hp; simpl;
    [eauto|].
  destruct (IH (handleStreamEvent id e s) (foldEvent e job))
    as (job' & Hj' & Hp' & Hid').
  - intros e' He'. apply Hevs, elem_of_cons. by right.
  - rewrite handle_lookup, decide_True by done. by rewrite Hj.
  - destruct (Hevs e) as (msg & Hb); [apply elem_of_cons; by left|].
    unfold foldEvent. by rewrite Hb.
  - exists job'. by rewrite Hid', foldEvent_jobId.
Qed.

(** What [createJob] hands back: the stored record, at progress 0, still
    queued when the worker is busy and already running when it was idle. *)
Lemma createJob_snapshot s request uuid now :
  Inv cs world s -> uuid <> "" -> jobs s !! uuid = None ->
  let r := createJob cs world s request uuid now in
  getJob r.1 uuid = Some r.2 /\
  jobId r.2 = uuid /\
  progress r.2 = 0 /\
  params r.2 = request /\
  status r.2 = if isProcessing s then queued else running.
Proof.
  intros [HC Hflag] Hne Hfresh. cbv zeta. unfold createJob, processQueue, getJob.
  simpl. destruct (isProcessing s) eqn:Hproc; simpl.
  - rewrite lookup_insert_eq. done.
  - destruct (inflight s) eqn:Hin; [congruence|]. destruct Hflag as [_ Hq].
    rewrite Hq. simpl. rewrite decide_False by done.
    rewrite lookup_insert_eq.
    match goal with
    | |- context [startJob cs world now uuid ?j ?s0] =>
        destruct (startJob_frame cs world now uuid j s0)
          as (_ & _ & _ & _ & job' & Hj' & Hs' & Hp');
        unfold startJob in *; simpl in *;
        match type of Hj' with
        | context [foldl ?f ?s1 ?evs] =>
            destruct (foldl_handle_progress uuid evs s1 (startedRecord now j))
              as (job'' & Hj'' & Hp'' & Hid'')
        end
    end.
    + intros e He. by eapply syncEvents_progress.
    + simpl. by rewrite lookup_insert_eq.
    + done.
    + rewrite Hj'. simpl. assert (job'' = job') as -> by congruence. done.
Qed.

(** C2.  In every reachable state at most one record is running, and a
    submission that finds the worker busy appends its id to the queue and
    changes nothing else: the flag and the awaited crawl are as before. *)
Theorem single_flight s :
  reachable cs world s ->
  (forall i j ji jj,
     jobs s !! i = Some ji -> jobs s !! j = Some jj ->
     status ji = running -> status jj = running -> i = j) /\
  (forall request uuid now,
     isProcessing s = true ->
     (createJob cs world s request uuid now).1
     = set_queue (queue s ++ [uuid])
         (set_jobs <[uuid := newJob request uuid now]> s) /\
     status (createJob cs world s request uuid now).2 = queued).
Proof.
  intros Hr. apply reachable_Inv in Hr as [HC Hflag]. split.
  - intros i j ji jj Hi Hj Hsi Hsj.
    destruct (core_running _ _ _ HC i ji Hi Hsi) as (r & Hr & <-).
    destruct (core_running _ _ _ HC j jj Hj Hsj) as (r' & Hr' & <-).
    congruence.
  - intros request uuid now Hp. unfold createJob, processQueue. simpl.
    rewrite Hp. simpl. by rewrite lookup_insert_eq.
Qed.

(** Along any sequence of submissions, worker resumptions and stray
    events a record keeps its request, and its status moves only along
    queued, running, then done or error. *)
Lemma status_moves_forward s s' id job :
  reachable cs world s -> rtc (step cs world) s s' ->
  jobs s !! id = Some job ->
  exists job',
    jobs s' !! id = Some job' /\
    params job' = params job /\
    rtc status_step (status job) (status job').
Proof.
  intros Hr Hsteps Hj.
  by apply (steps_evolves cs world s s' id job (reachable_Inv cs world s Hr)).
Qed.

(** C4.  In every reachable state [getResult] returns a result for an id
    exactly when the record of that id is done. *)
Theorem result_iff_done s id :
  reachable cs world s ->
  getResult s id <> PUndefined <->
  exists job, getJob s id = Some job /\ status job = done.
Proof.
  intros Hr. apply reachable_Inv in Hr as [HC _]. unfold getResult, getJob.
  split.
  - destruct (results s !! id) as [p|] eqn:Hp; [|done]. intros _.
    by destruct (core_results _ _ _ HC id p Hp) as (_ & job & Hj & Hs); eauto.
  - intros (job & Hj & Hs).
    destruct (core_done _ _ _ HC id job Hj Hs) as (p & Hp & _).
    rewrite Hp. simpl. destruct (core_results _ _ _ HC id p Hp) as (Ht & _).
    by destruct p.
Qed.

Lemma fate_outcome id job :
  fate cs world id job
  = outcome (service_crawl cs (params job) true (world id) initRun).
Proof. unfold fate. by destruct (script_of_spec cs (params job) (world id)). Qed.


(** When the read of the table finds nothing, [crawl], [crawlList] and
    [crawlDetail] reject with the unsupported-site error at once: no event
    is delivered and the state, the count of constructed crawlers
    included, is as it was.  A job with such a request ends with status
    error and that message. *)
Lemma unsupported_source_fails_first :
  (forall (c : @Crawler Page) request onStream env st,
     siteHandlers c !! site request = None ->
     crawl c request onStream env st
     = (Rejected (JsError ("Unsupported site '" +:+ site request
                           +:+ "' for category "
                           +:+ category_name (category request))), st, [])) /\
  (forall (c : @Crawler Page) request onStream env st,
     listHandlers c !! site request = None ->
     crawlList c request onStream env st
     = (Rejected (JsError ("Unsupported site '" +:+ site request
                           +:+ "' for list crawl in category "
                           +:+ category_name (category request))), st, [])) /\
  (forall (c : @Crawler Page) request onStream env st,
     detailHandlers c !! site request = None ->
     crawlDetail c request onStream env st
     = (Rejected (JsError ("Unsupported site '" +:+ site request
                           +:+ "' for detail crawl in category "
                           +:+ category_name (category request) +:+ " ")),
        st, [])) /\
  (forall s ts id job,
     reachable cs world s -> jobs s !! id = Some job ->
     siteHandlers (crawlers cs (category (params job))) !! site (params job)
     = None ->
     (work cs world s <= length ts)%nat ->
     exists job',
       jobs (drain cs world ts s) !! id = Some job' /\
       status job' = error /\
       errorMessage job'
       = Some ("Unsupported site '" +:+ site (params job)
               +:+ "' for category "
               +:+ category_name (category (params job)))).
Proof.
  split; [|split; [|split]].
  - intros c request b env st H. by apply (crawlWith_unsupported crawlMode).
  - intros c request b env st H. by apply (crawlWith_unsupported listMode).
  - intros c request b env st H. by apply (crawlWith_unsupported detailMode).
  - intros s ts id job Hr Hj Hnone Hw. apply reachable_Inv in Hr.
    destruct (drain_fate cs world s ts id job Hr Hw Hj) as (job' & Hj' & _ & Hf).
    exists job'. split; [done|]. revert Hf. rewrite fate_outcome.
    rewrite service_crawl_outcome. unfold crawl.
    rewrite (crawlWith_unsupported crawlMode _ _ _ _ _ Hnone). simpl. tauto.
Qed.

End Registry.
End Claims.

(** ** The claims in the small world *)

(** C1.  On a service at rest, [createJob] has already started the job
    when it takes its snapshot: the record it returns, and the one
    [getJob] returns at that moment, is running, not queued. *)
Theorem createJob_on_idle_service_returns_running :
  let r := createJob demoService demoWorld initial (demoRequest "booking")
             "job-7" 5 in
  isProcessing initial = false /\
  status r.2 = running /\
  progress r.2 = 0 /\
  currentStep r.2 = Some "Starting crawl for booking..." /\
  getJob r.1 "job-7" = Some r.2.
Proof. vm_compute. done. Qed.

Lemma oneJob_reachable : reachable demoService demoWorld oneJob.
Proof. apply rtc_once. by apply step_create. Qed.

Lemma twoJobs_reachable : reachable demoService demoWorld twoJobs.
Proof.
  eapply rtc_r; [apply oneJob_reachable|]. by apply step_create.
Qed.

Lemma single_flight_witness :
  reachable demoService demoWorld oneJob /\
  isProcessing oneJob = true /\
  (createJob demoService demoWorld oneJob (demoRequest "booking") "job-2" 6).1
  = set_queue (queue oneJob ++ ["job-2"])
      (set_jobs <["job-2" := newJob (demoRequest "booking") "job-2" 6]> oneJob) /\
  status (createJob demoService demoWorld oneJob (demoRequest "booking")
            "job-2" 6).2 = queued.
Proof.
  split; [apply oneJob_reachable|]. split; [reflexivity|].
  apply (single_flight demoService demoWorld oneJob oneJob_reachable).
  reflexivity.
Defined.

Lemma drained_reachable :
  reachable demoService demoWorld (drain demoService demoWorld (ticks 12) twoJobs).
Proof.
  unfold reachable. etrans; [apply twoJobs_reachable | apply drain_steps].
Qed.

(** C3.  A record that is done is written again: [handleStreamEvent]
    does not look at the status, and the callback of a job outlives its
    run.  Here job-2 has finished, done with progress 100 and the step
    Completed; a progress event that arrives afterwards leaves it done
    with progress 10 and the step late. *)
Theorem finished_record_is_written_again :
  let s := drain demoService demoWorld (ticks 12) twoJobs in
  let s' := handleStreamEvent "job-2" lateEvent s in
  reachable demoService demoWorld s /\
  step demoService demoWorld s s' /\
  (exists job,
     getJob s "job-2" = Some job /\ status job = done /\
     progress job = 100 /\ currentStep job = Some "Completed") /\
  (exists job',
     getJob s' "job-2" = Some job' /\ status job' = done /\
     progress job' = 10 /\ currentStep job' = Some "late").
Proof.
  cbv zeta. split; [apply drained_reachable|]. split.
  - assert (Hj : exists job,
               jobs (drain demoService demoWorld (ticks 12) twoJobs) !! "job-2"
               = Some job /\ status job = done)
      by (vm_compute; eauto).
    destruct Hj as (job & Hj & Hs).
    apply (step_stray demoService demoWorld _ "job-2" job lateEvent Hj);
      [by rewrite Hs | reflexivity].
  - split; vm_compute; eauto 10.
Qed.

Lemma result_iff_done_witness :
  reachable demoService demoWorld
    (drain demoService demoWorld (ticks 12) twoJobs) /\
  (getResult (drain demoService demoWorld (ticks 12) twoJobs) "job-2"
   <> PUndefined <->
   exists job,
     getJob (drain demoService demoWorld (ticks 12) twoJobs) "job-2" = Some job /\
     status job = done).
Proof.
  split; [apply drained_reachable|].
  apply (result_iff_done demoService demoWorld _ "job-2" drained_reachable).
Defined.


Lemma strayJob_reachable : reachable demoService demoWorld strayJob.
Proof. apply rtc_once. by apply step_create. Qed.

Lemma unsupported_source_fails_first_witness :
  siteHandlers demoCrawler !! site (demoRequest "nowhere") = None /\
  crawl demoCrawler (demoRequest "nowhere") true (demoEnv hotelHandler) initRun
  = (Rejected (JsError "Unsupported site 'nowhere' for category hotels"),
     initRun, []) /\
  reachable demoService demoWorld strayJob /\
  (work demoService demoWorld strayJob <= length (ticks 1))%nat /\
  exists job',
    jobs (drain demoService demoWorld (ticks 1) strayJob) !! "job-9" = Some job' /\
    status job' = error /\
    errorMessage job' = Some "Unsupported site 'nowhere' for category hotels".
Proof.
  assert (Hw : (work demoService demoWorld strayJob <= length (ticks 1))%nat)
    by (vm_compute; lia).
  split; [reflexivity|]. split.
  { apply (proj1 (unsupported_source_fails_first demoService demoWorld)).
    reflexivity. }
  split; [apply strayJob_reachable|]. split; [exact Hw|].
  apply (proj2 (proj2 (proj2 (unsupported_source_fails_first demoService demoWorld)))
           strayJob (ticks 1) "job-9"
           (createJob demoService demoWorld initial (demoRequest "nowhere")
              "job-9" 5).2 strayJob_reachable);
    [reflexivity | reflexivity | exact Hw].
Defined.

(** C5.  A site that no table registers is crawled all the same when its
    name is that of a member of [Object.prototype].  For the site toString
    the read [siteHandlers[request.site]] finds the inherited function,
    the guard [!handler] lets it through, a crawler is constructed and
    six events are delivered; the call resolves with what that function
    returns, and the job ends done with it as its result. *)
Theorem unregistered_site_is_crawled :
  let r := crawl literalCrawler toStringRequest true (demoEnv objectToString)
             initRun in
  let s := drain literalService literalWorld (ticks 6) toStringJob in
  siteHandlers demoCrawler !! site toStringRequest = None /\
  siteHandlers literalCrawler !! site toStringRequest = Some objectToString /\
  outcome r = Resolved (PItem "[object Undefined]") /\
  contexts (final r) = 1%nat /\
  body <$> events r
  = [ EvProgress "Starting crawl for toString..." (Some 0);
      EvProgress "Loading page..." (Some 10);
      EvProgress "Page loaded, extracting data..." (Some 30);
      EvProgress "Processing data..." (Some 50);
      EvProgress "Crawl completed" (Some 100);
      EvComplete (Some 1) (Some 8) ] /\
  (exists job, getJob s "job-3" = Some job /\ status job = done /\
               errorMessage job = None) /\
  getResult s "job-3" = PItem "[object Undefined]".
Proof. vm_compute. eauto 10. Qed.



Lemma events_carry_request_id_witness :
  siteHandlers demoCrawler !! site (demoRequest "agoda") = Some fullEventHandler /\
  visit ∈ attempts (crawlerRun (demoEnv fullEventHandler)) /\
  gotoOutcome visit = Resolved tt /\
  exists e,
    e ∈ events (crawl demoCrawler (demoRequest "agoda") true
                  (demoEnv fullEventHandler) initRun) /\
    body e = EvData (PItem "Hotel Sol") None None /\
    requestId e = Some "picked-by-handler" /\
    timestamp e = Some 42.
Proof.
  assert (Hv : visit ∈ attempts (crawlerRun (demoEnv fullEventHandler)))
    by (apply list_elem_of_singleton; reflexivity).
  split; [reflexivity|]. split; [exact Hv|]. split; [reflexivity|].
  destruct (proj2 (events_carry_request_id crawlMode demoCrawler
                     (demoRequest "agoda") true (demoEnv fullEventHandler)
                     initRun)
              fullEventHandler visit
              {| body := EvData (PItem "Hotel Sol") None None;
                 requestId := Some "picked-by-handler"; timestamp := Some 42 |})
    as (e & He & Hb & Hid & _ & Hkept).
  - reflexivity.
  - exact Hv.
  - reflexivity.
  - apply list_elem_of_singleton. reflexivity.
  - exists e. split; [exact He|]. split; [exact Hb|]. split; [exact Hid|].
    by apply Hkept.
Defined.



(** C7, as it was stated, fails: an event that the handler passes with a
    request id of its own reaches the sink with that id and not with the
    id of the run. *)
Lemma handler_request_id_is_kept :
  let r := crawl demoCrawler (demoRequest "agoda") true
             (demoEnv fullEventHandler) initRun in
  runId (demoEnv fullEventHandler) = "run-1" /\
  events r !! 4%nat
  = Some {| body := EvData (PItem "Hotel Sol") None None;
            requestId := Some "picked-by-handler"; timestamp := Some 42 |}.
Proof. vm_compute. done. Qed.

(** * Lemmas for the further properties *)


Section ObservedFacts.
Context {Page : Type}.
Variable cs : @CrawlService Page.
Variable world : string -> @RunEnv Page.

(** What one resumption does to the awaited crawl and to the queue. *)
Lemma workerStep_backlog s now r :
  Inv cs world s -> inflight s = Some r ->
  match pendingEvents r with
  | _ :: es =>
      inflight (workerStep cs world now s)
      = Some {| runJobId := runJobId r; pendingEvents := es;
                settles := settles r |} /\
      queue (workerStep cs world now s) = queue s
  | [] => backlog (workerStep cs world now s) = queue s
  end.
Proof.
  intros [HC Hflag] Hr. unfold workerStep. rewrite Hr.
  destruct (pendingEvents r) as [|e es] eqn:Hpe.
  - destruct (finishJob_frame now r (set_inflight None s)) as (Hq1 & _ & Hi1).
    simpl in Hq1, Hi1.
    pose proof (Core_finishJob cs world s now r HC Hr) as HC1.
    rewrite (processLoop_head cs world) by done. rewrite Hq1.
    destruct (queue s) as [|id q'] eqn:Hqueue.
    + unfold backlog. simpl. by rewrite Hi1, Hq1.
    + destruct (core_queue _ _ _ HC1 id) as (_ & job1 & Hj1 & _);
        [rewrite Hq1; apply elem_of_cons; by left|].
      rewrite Hj1.
      destruct (Core_startJob cs world (finishJob now r (set_inflight None s))
                  now id q' job1 HC1) as [_ Hin']; [done|done|done|].
      destruct (startJob_frame cs world now id job1
                  (set_queue q' (finishJob now r (set_inflight None s))))
        as (_ & Hq' & _).
      unfold backlog. by rewrite Hin', Hq'.
  - simpl. split; [done|].
    by destruct (handle_frame (runJobId r) e s) as (_ & -> & _).
Qed.

Lemma finished_idle ts s : inflight s = None -> finished cs world ts s = [].
Proof.
  revert s. induction ts as [|t ts IH]; intros s Hn; simpl; [done|].
  rewrite Hn. simpl. rewrite workerStep_idle by done. by apply IH.
Qed.

Lemma finished_backlog ts s :
  Inv cs world s -> (work cs world s <= length ts)%nat ->
  finished cs world ts s = backlog s.
Proof.
  revert s. induction ts as [|t ts IH]; intros s HI Hw.
  - simpl in *. unfold work in Hw. unfold backlog.
    destruct (inflight s) eqn:Hr; [lia|]. destruct HI as [_ Hflag].
    rewrite Hr in Hflag. by destruct Hflag as [_ ->].
  - simpl. destruct (inflight s) as [r|] eqn:Hr.
    + pose proof (work_step cs world s t r HI Hr) as Hws.
      pose proof (workerStep_backlog s t r HI Hr) as Hb.
      rewrite IH; [|by apply Inv_workerStep|simpl in Hw; lia].
      unfold backlog at 2. rewrite Hr.
      destruct (pendingEvents r) as [|e es].
      * by rewrite Hb.
      * destruct Hb as [Hi Hq]. unfold backlog. by rewrite Hi, Hq.
    + simpl. rewrite workerStep_idle by done.
      rewrite finished_idle by done. destruct HI as [_ Hflag].
      rewrite Hr in Hflag. destruct Hflag as [_ Hq]. unfold backlog.
      by rewrite Hr, Hq.
Qed.
End ObservedFacts.

Section ShapeFacts.
Context {Page : Type}.
Variable cs : @CrawlService Page.
Variable world : string -> @RunEnv Page.

Lemma wellShaped_foldEvent id e job :
  status job <> queued -> wellShaped id job -> wellShaped id (foldEvent e job).
Proof.
  intros Hs [Hid Hsh]. split.
  - by rewrite foldEvent_jobId.
  - rewrite foldEvent_status. destruct (status job); [done| | |];
      unfold foldEvent; destruct (body e); simpl; try done.
    destruct Hsh as (_ & ? & ?). by eauto.
Qed.

Lemma Shaped_handle id e s :
  (forall job, jobs s !! id = Some job -> status job <> queued) ->
  Shaped s -> Shaped (handleStreamEvent id e s).
Proof.
  intros Hrun Hsh i job'. rewrite handle_lookup. case_decide as Hd.
  - subst i. destruct (jobs s !! id) as [job|] eqn:Hj; [|done].
    intros [= <-]. apply wellShaped_foldEvent; auto.
  - apply Hsh.
Qed.

Lemma Shaped_foldl_handle id (evs : list StreamEvent) s :
  (forall job, jobs s !! id = Some job -> status job <> queued) ->
  Shaped s -> Shaped (foldl (fun s e => handleStreamEvent id e s) s evs).
Proof.
  revert s. induction evs as [|e evs IH]; intros s Hrun Hsh; simpl; [done|].
  apply IH; [|by apply Shaped_handle].
  intros job. rewrite handle_lookup, decide_True by done.
  destruct (jobs s !! id) as [j|] eqn:Hj; [|done]. intros [= <-].
  rewrite foldEvent_status. by apply Hrun.
Qed.

Lemma Shaped_startJob now id job s :
  Shaped s -> jobs s !! id = Some job -> status job = queued ->
  Shaped (startJob cs world now id job s).
Proof.
  intros Hsh Hj Hq. unfold startJob. intros i job'. simpl.
  apply Shaped_foldl_handle.
  - simpl. intros j. rewrite lookup_insert_eq. by intros [= <-].
  - intros i' j'. simpl. destruct (decide (id = i')) as [<-|Hd].
    + rewrite lookup_insert_eq. intros [= <-].
      destruct (Hsh id job Hj) as [Hid Hshape]. rewrite Hq in Hshape.
      split; [done|]. simpl. destruct Hshape as (_ & _ & _ & -> & _).
      split; [by eexists | done].
    + rewrite lookup_insert_ne by done. apply Hsh.
Qed.

Lemma Shaped_finishJob now r s job :
  Shaped s -> jobs s !! runJobId r = Some job -> status job = running ->
  Shaped (finishJob now r s).
Proof.
  intros Hsh Hj Hs. unfold finishJob. rewrite Hj.
  destruct (Hsh _ job Hj) as [Hid Hshape]. rewrite Hs in Hshape.
  destruct Hshape as [Hst _].
  destruct (settles r); intros i job'; simpl;
    (destruct (decide (runJobId r = i)) as [<-|Hd];
     [rewrite lookup_insert_eq; intros [= <-]; split; [done|]; simpl;
      repeat split; eauto
     |rewrite lookup_insert_ne by done; apply Hsh]).
Qed.

Lemma Shaped_processLoop s now :
  Core cs world s -> Shaped s ->
  Shaped (processLoop cs world now (queue s) s).
Proof.
  intros HC Hsh. rewrite (processLoop_head cs world) by done.
  destruct (queue s) as [|id q'] eqn:Hqueue; [done|].
  destruct (core_queue _ _ _ HC id) as (_ & job & Hj & Hq);
    [rewrite Hqueue; apply elem_of_cons; by left|].
  rewrite Hj. by apply Shaped_startJob.
Qed.

Lemma Shaped_step s s' :
  Inv cs world s -> Shaped s -> step cs world s s' -> Shaped s'.
Proof.
  intros [HC Hflag] Hsh Hstep.
  destruct Hstep as [s request uuid now Hne Hfresh|s now|s id job e Hj Hs _];
    [| |apply Shaped_handle; [intros j Hj'; congruence | done]].
  - pose proof (Core_add cs world s request uuid now HC Hne Hfresh) as HC1.
    assert (Hsh1 : Shaped (set_queue (queue s ++ [uuid])
                             (set_jobs <[uuid := newJob request uuid now]> s))).
    { intros i job. simpl. destruct (decide (uuid = i)) as [<-|Hd].
      - rewrite lookup_insert_eq. intros [= <-]. by repeat split.
      - rewrite lookup_insert_ne by done. apply Hsh. }
    unfold createJob, processQueue. simpl.
    destruct (isProcessing s) eqn:Hproc; [done|].
    match goal with
    | |- context [processLoop _ _ _ ?q ?s1] => change q with (queue s1)
    end.
    apply Shaped_processLoop; [by apply Core_set_isProcessing|done].
  - unfold workerStep. destruct (inflight s) as [r|] eqn:Hr; [|done].
    destruct (core_inflight _ _ _ HC r Hr) as (job & Hj & Hs & _).
    destruct (pendingEvents r) as [|e es].
    + apply Shaped_processLoop; [by apply Core_finishJob|].
      by apply (Shaped_finishJob now r (set_inflight None s) job).
    + intros i job'. simpl. apply Shaped_handle; [|done].
      intros j Hj'. congruence.
Qed.

Lemma reachable_Shaped s : reachable cs world s -> Shaped s.
Proof.
  unfold reachable. intros Hr.
  assert (H : Inv cs world s /\ Shaped s); [|by destruct H].
  revert s Hr. apply (rtc_ind_r (fun s => Inv cs world s /\ Shaped s) initial).
  - split; [apply Inv_initial|]. intros i job Hj. simpl in Hj.
    by rewrite lookup_empty in Hj.
  - intros s1 s2 _ Hs [HI Hsh]. split.
    + by eapply step_Inv.
    + by eapply Shaped_step.
Qed.
End ShapeFacts.

Section ControllerFacts.
Context {Page : Type}.
Variable cs : @CrawlService Page.
Variable world : string -> @RunEnv Page.

Lemma getCrawlResult_reachable s id :
  reachable cs world s -> id <> "" ->
  getCrawlResult s id
  = match getJob s id with
    | None => {| httpCode := 404; json := Failure "Job not found" |}
    | Some job =>
        match status job with
        | queued | running =>
            {| httpCode := 202;
               json := JobPending (status job)
                         "Job chưa hoàn thành, vui lòng kiểm tra lại sau." |}
        | done | error =>
            match outcome (service_crawl cs (params job) true (world id)
                             initRun) with
            | Resolved p => {| httpCode := 200; json := JobDone p |}
            | Rejected e =>
                {| httpCode := 500; json := JobFailed (error_message e) |}
            end
        end
    end.
Proof.
  intros Hr Hne. apply reachable_Inv in Hr as [HC _].
  unfold getCrawlResult, getJob. rewrite decide_False by done.
  destruct (jobs s !! id) as [job|] eqn:Hj; [|done].
  destruct (status job) eqn:Hs; try done.
  - destruct (core_done _ _ _ HC id job Hj Hs) as (p & Hp & Hf).
    destruct (core_results _ _ _ HC id p Hp) as (Ht & _).
    rewrite <- fate_outcome, Hf. unfold getResult. rewrite Hp. simpl.
    by rewrite Ht.
  - destruct (core_error _ _ _ HC id job Hj Hs) as (e & Hf & -> & _).
    by rewrite <- fate_outcome, Hf.
Qed.

Lemma createJob_work s request uuid now :
  Inv cs world s -> uuid <> "" -> jobs s !! uuid = None ->
  jobs (createJob cs world s request uuid now).1 !! uuid
  = Some (createJob cs world s request uuid now).2.
Proof.
  intros HI Hne Hf.
  by destruct (createJob_snapshot cs world s request uuid now HI Hne Hf)
    as (H & _).
Qed.

(** Submit, let the worker run, poll. *)
Lemma submit_then_poll s request uuid now ts :
  reachable cs world s -> uuid <> "" -> jobs s !! uuid = None ->
  (work cs world (handleCrawlJob cs world s (Parsed request) uuid now).1
   <= length ts)%nat ->
  httpCode (handleCrawlJob cs world s (Parsed request) uuid now).2 = 202 /\
  getCrawlResult
    (drain cs world ts (handleCrawlJob cs world s (Parsed request) uuid now).1)
    uuid
  = match outcome (service_crawl cs request true (world uuid) initRun) with
    | Resolved p => {| httpCode := 200; json := JobDone p |}
    | Rejected e => {| httpCode := 500; json := JobFailed (error_message e) |}
    end.
Proof.
  intros Hr Hne Hfresh Hw. split; [done|].
  change (handleCrawlJob cs world s (Parsed request) uuid now).1
    with (createJob cs world s request uuid now).1 in *.
  pose proof (reachable_Inv cs world s Hr) as HI.
  destruct (createJob_snapshot cs world s request uuid now HI Hne Hfresh)
    as (Hget & _ & _ & Hpar & _).
  set (s1 := (createJob cs world s request uuid now).1) in *.
  set (snap := (createJob cs world s request uuid now).2) in *.
  assert (Hr1 : reachable cs world s1).
  { eapply rtc_r; [exact Hr|]. by apply step_create. }
  assert (Hrd : reachable cs world (drain cs world ts s1)).
  { unfold reachable. etrans; [exact Hr1 | apply drain_steps]. }
  rewrite (getCrawlResult_reachable _ uuid Hrd Hne).
  destruct (drain_fate cs world s1 ts uuid snap (reachable_Inv cs world s1 Hr1)
              Hw Hget) as (job' & Hj' & Hp' & Hf).
  unfold getJob. rewrite Hj', Hp', Hpar.
  rewrite fate_outcome, Hpar in Hf.
  destruct (outcome (service_crawl cs request true (world uuid) initRun)).
  - by destruct Hf as [-> _].
  - by destruct Hf as [-> _].
Qed.

Lemma service_crawlList_run request b env st :
  service_crawlList cs request b env st
  = (outcome (crawlList (crawlers cs (category request)) request b env st),
     final (crawlList (crawlers cs (category request)) request b env st),
     events (crawlList (crawlers cs (category request)) request b env st)).
Proof.
  unfold service_crawlList, bind, outcome, final, events.
  destruct (crawlList _ _ _ _ _) as [[[data|e] st1] o1]; simpl; [|done].
  by rewrite app_nil_r.
Qed.

Lemma service_crawlDetail_outcome request b env st :
  outcome (service_crawlDetail cs request b env st)
  = outcome (crawlDetail (crawlers cs (category request)) request b env st).
Proof.
  unfold service_crawlDetail.
  by destruct (then_persist
                 (crawlDetail (crawlers cs (category request)) request b env)
                 request env st) as (st' & ->).
Qed.

Lemma handleWith_outcome run fallback request st :
  (handleWith run fallback (Parsed request) st).1
  = match outcome (run request st) with
    | Resolved data =>
        {| httpCode := 200;
           json := CrawlSuccess (category request) (site request) (url request)
                     data |}
    | Rejected e =>
        {| httpCode := 400;
           json := CrawlFailure (messageOr fallback e) getSupportedCategories |}
    end.
Proof.
  unfold handleWith, outcome.
  by destruct (run request st) as [[[data|e] st1] o1].
Qed.
End ControllerFacts.

Section ResourceFacts.
Context {Page : Type}.
Implicit Types (env : @RunEnv Page) (h : @Handler Page) (m : @Mode Page)
  (c : @Crawler Page).

Lemma emitEvent_books b env ev st :
  exists st' o, emitEvent b env ev st = (Resolved tt, st', o) /\
    contexts st' = contexts st /\ logged st' = logged st.
Proof. unfold emitEvent. destruct b; cbn; by eexists _, _. Qed.

Lemma forEach_wrapped_books b env (l : list StreamEvent) st :
  exists st' o,
    forEach (wrappedStreamCallback b env) l st = (Resolved tt, st', o) /\
    contexts st' = contexts st /\ logged st' = logged st.
Proof.
  revert st. induction l as [|he l IH]; intros st; simpl.
  - by exists st, [].
  - unfold bind at 1.
    assert (exists st1 o1, wrappedStreamCallback b env he st = (Resolved tt, st1, o1)
              /\ contexts st1 = contexts st /\ logged st1 = logged st)
      as (st1 & o1 & -> & H1 & H1').
    { unfold wrappedStreamCallback, timestampOr. destruct b; [|by exists st, []].
      destruct (timestamp he) as [t|]; [case_decide|]; simpl; eauto. }
    destruct (IH st1) as (st2 & o2 & -> & H2 & H2'). exists st2, (o1 ++ o2).
    split; [reflexivity|]. split; congruence.
Qed.

Lemma requestHandler_books m req b env h a st :
  contexts (final (requestHandler m req b env h a st)) = contexts st /\
  logged (final (requestHandler m req b env h a st))
  = logged st ++ match attemptResult h (url req) a with
                 | None => [handlerErrorLine m (site req)]
                 | Some _ => []
                 end.
Proof.
  unfold requestHandler, attemptResult.
  destruct (forEach_wrapped_books b env (h (page a) (url req)).1
              (final (emitEvent b env (EvProgress "Processing data..." (Some 50))
                 (final (smartWait env
                  (final (emitEvent b env (EvProgress "Page loaded, extracting data..." (Some 30))
                    (final (emitEvent b env (EvProgress "Loading page..." (Some 10)) st)))))))))
    as (st' & o & Hrun & Hc & Hl).
  revert Hrun Hc Hl.
  unfold tryCatch, bind, emitEvent, smartWait, await, final, dateNow, deliver,
    setResult, logError, throw, ret.
  destruct b; simpl; intros Hrun Hc Hl;
    (destruct (gotoOutcome a) as [[]|e]; simpl; [|done]);
    rewrite Hrun;
    (destruct (h (page a) (url req)).2 as [p|e]; simpl;
     rewrite Hc, Hl, ?app_nil_r; done).
Qed.

Lemma attempts_books m req b env h (l : list Attempt) st :
  exists st' o,
    forEach (fun a => tryCatch (requestHandler m req b env h a) (fun _ => ret tt))
      l st = (Resolved tt, st', o) /\
    contexts st' = contexts st /\
    logged st'
    = logged st ++ replicate (length (failedCalls h (url req) l))
                     (handlerErrorLine m (site req)).
Proof.
  revert st. induction l as [|a l IH]; intros st; simpl.
  { eexists _, _. split; [done|]. by rewrite app_nil_r. }
  destruct (requestHandler_books m req b env h a st) as [Hc Hl].
  unfold final in Hc, Hl. unfold bind at 1, tryCatch at 1.
  unfold failedCalls. rewrite filter_cons.
  destruct (requestHandler m req b env h a st) as [[[[]|e] st1] o1];
    simpl in Hc, Hl; destruct (IH st1) as (st2 & o2 & Heq & Hc2 & Hl2);
    cbn [ret]; rewrite Heq; eexists _, _; (split; [reflexivity|]);
    (split; [congruence|]); rewrite Hl2, Hl; fold (failedCalls h (url req) l);
    destruct (attemptResult h (url req) a) eqn:Ha;
    (case_decide; [try done|try done]); simpl;
    by rewrite <- ?app_assoc, ?app_nil_r.
Qed.

Lemma crawlBody_books m req b env h t0 st :
  contexts (final (crawlBody m req b env (h, t0) st)) = contexts st /\
  logged (final (crawlBody m req b env (h, t0) st))
  = logged st ++ replicate
                   (length (failedCalls h (url req) (attempts (crawlerRun env))))
                   (handlerErrorLine m (site req)).
Proof.
  destruct (attempts_books m req b env h (attempts (crawlerRun env)) st)
    as (st2 & o & Hrun & Hc & Hl).
  assert (Hrc : runCrawler m req b env h st
                = (runOutcome (crawlerRun env), st2, o ++ [])).
  { unfold runCrawler. by rewrite (bind_resolved _ _ _ _ _ _ Hrun). }
  rewrite <- Hc, <- Hl. unfold crawlBody. cbn [fst snd].
  destruct (runOutcome (crawlerRun env)) as [[]|e].
  - destruct (truthy (result st2)) eqn:Ht.
    + destruct (emitEvent_books b env
                  (EvComplete (totalItemsOf m (result st2))
                     (Some (clock env (reads st2) - t0)))
                  {| result := result st2; contexts := contexts st2;
                     reads := S (reads st2); logged := logged st2 |})
        as (st3 & o3 & He & Hc3 & Hl3).
      erewrite tryCatch_resolved.
      2:{ rewrite (bind_resolved _ _ _ _ _ _ Hrc). unfold getResultVar. cbn.
          rewrite Ht. unfold bind at 1, dateNow. cbn. unfold bind at 1.
          rewrite He. cbn. reflexivity. }
      unfold final, bind. rewrite He. simpl in *. by split.
    + erewrite tryCatch_rejected.
      2:{ rewrite (bind_resolved _ _ _ _ _ _ Hrc). unfold getResultVar.
          cbn. rewrite Ht. cbn. reflexivity. }
      destruct (emitEvent_books b env
                  (EvError (error_message (JsError (missingMessage m (site req)))))
                  st2) as (st3 & o3 & He & Hc3 & Hl3).
      unfold final. cbn [fst snd]. unfold bind. rewrite He. simpl. by split.
  - erewrite tryCatch_rejected; [|by rewrite (bind_rejected _ _ _ _ _ _ Hrc)].
    destruct (emitEvent_books b env (EvError (error_message e)) st2)
      as (st3 & o3 & He & Hc3 & Hl3).
    unfold final. cbn [fst snd]. unfold bind. rewrite He. done.
Qed.

Lemma crawlPrologue_books m c req b env h st :
  table m c !! site req = Some h ->
  exists st1 o1,
    crawlPrologue m c req b env st = (Resolved (h, clock env (reads st)), st1, o1) /\
    contexts st1 = S (contexts st) /\ logged st1 = logged st.
Proof.
  intros Hh. unfold crawlPrologue. rewrite Hh. destruct b; cbn; by eexists _, _.
Qed.

Lemma crawlWith_books m c req b env h st :
  table m c !! site req = Some h ->
  contexts (final (crawlWith m c req b env st)) = S (contexts st) /\
  logged (final (crawlWith m c req b env st))
  = logged st ++ replicate
                   (length (failedCalls h (url req) (attempts (crawlerRun env))))
                   (handlerErrorLine m (site req)).
Proof.
  intros Hh.
  destruct (crawlPrologue_books m c req b env h st Hh)
    as (st1 & o1 & Hp & Hc & Hl).
  unfold crawlWith. rewrite (bind_resolved _ _ _ _ _ _ Hp).
  unfold final at 1 3. cbn [fst snd].
  destruct (crawlBody_books m req b env h (clock env (reads st)) st1) as [-> ->].
  by rewrite Hc, Hl.
Qed.
End ResourceFacts.

Section RegistryFacts.
Context {Page : Type}.
Variable cs : @CrawlService Page.
Variable world : string -> @RunEnv Page.

Lemma createJob_others s request uuid now :
  Inv cs world s -> uuid <> "" -> jobs s !! uuid = None ->
  (forall id, id <> uuid ->
     jobs (createJob cs world s request uuid now).1 !! id = jobs s !! id) /\
  results (createJob cs world s request uuid now).1 = results s.
Proof.
  intros [HC Hflag] Hne Hfresh. unfold createJob, processQueue. simpl.
  destruct (isProcessing s) eqn:Hproc; simpl.
  - split; [|done]. intros id Hid. by rewrite lookup_insert_ne.
  - destruct (inflight s) eqn:Hin; [congruence|]. destruct Hflag as [_ Hq].
    rewrite Hq. simpl. rewrite decide_False by done. rewrite lookup_insert_eq.
    match goal with
    | |- context [startJob cs world now uuid ?j ?s0] =>
        destruct (startJob_frame cs world now uuid j s0)
          as (Hres & _ & _ & Hothers & _)
    end.
    split; [|by rewrite Hres].
    intros id Hid. rewrite Hothers by done. simpl. by rewrite lookup_insert_ne.
Qed.

Lemma createJob_backlog s request uuid now :
  Inv cs world s -> uuid <> "" -> jobs s !! uuid = None ->
  backlog (createJob cs world s request uuid now).1 = backlog s ++ [uuid].
Proof.
  intros [HC Hflag] Hne Hfresh. unfold createJob, processQueue, backlog. simpl.
  destruct (inflight s) as [r|] eqn:Hin.
  - rewrite Hflag. simpl. by rewrite Hin.
  - destruct Hflag as [-> Hq]. rewrite Hq. simpl.
    rewrite decide_False by done. rewrite lookup_insert_eq.
    match goal with
    | |- context [startJob cs world now uuid ?j ?s0] =>
        destruct (startJob_frame cs world now uuid j s0)
          as (_ & Hqueue & _)
    end.
    rewrite Hqueue. by simpl.
Qed.

Lemma busy_iff_unfinished s :
  Inv cs world s ->
  isProcessing s = true <->
  exists id job, jobs s !! id = Some job /\ terminal (status job) = false.
Proof.
  intros [HC Hflag]. split.
  - intros Hp. destruct (inflight s) as [r|] eqn:Hin.
    + destruct (core_inflight _ _ _ HC r Hin) as (job & Hj & Hs & _).
      exists (runJobId r), job. by rewrite Hs.
    + destruct Hflag; congruence.
  - intros (id & job & Hj & Ht). destruct (status job) eqn:Hs; try done.
    + pose proof (core_queued _ _ _ HC id job Hj Hs) as Hmem.
      destruct (inflight s); [done|]. destruct Hflag as [_ Hq].
      rewrite Hq in Hmem. by apply elem_of_nil in Hmem.
    + destruct (core_running _ _ _ HC id job Hj Hs) as (r & Hr & _).
      by rewrite Hr in Hflag.
Qed.
End RegistryFacts.

Section StreamFacts.
Context {Page : Type}.
Variable cs : @CrawlService Page.

Lemma streamFrames_run request env st :
  let st0 := {| result := result st; contexts := contexts st;
                reads := S (reads st); logged := logged st |} in
  let r := service_crawl cs request true env st0 in
  outcome (streamFrames cs request env st) = Resolved tt /\
  events (streamFrames cs request env st)
  = events r ++
    match outcome r with
    | Resolved _ => []
    | Rejected e =>
        [ {| body := EvError (error_message e);
             requestId :=
               Some ("error-" +:+ pretty.pretty (clock env (reads (final r))));
             timestamp := Some (clock env (S (reads (final r)))) |} ]
    end.
Proof.
  cbv zeta.
  destruct (service_crawl cs request true env _) as [[[p|e] st1] o1] eqn:Hrun;
    unfold streamFrames, outcome, events, final, bind, tryCatch, dateNow, ret,
      deliver; cbn [fst snd]; rewrite Hrun; cbn.
  - by rewrite !app_nil_r.
  - done.
Qed.
End StreamFacts.

Section SnapshotFacts.
Context {Page : Type}.
Variable cs : @CrawlService Page.
Variable world : string -> @RunEnv Page.

Lemma syncEvents_found request env h :
  siteHandlers (crawlers cs (category request)) !! site request = Some h ->
  syncEvents (script_of cs request env)
  = [ {| body := EvProgress ("Starting crawl for " +:+ site request +:+ "...")
                   (Some 0);
         requestId := Some (runId env);
         timestamp := Some (clock env 1) |} ].
Proof.
  intros Hh. unfold script_of, jobPrologue.
  rewrite (crawlPrologue_run crawlMode _ _ _ h _ Hh).
  by destruct (jobBody _ _ _ _ _) as [[r st2] o2].
Qed.

Lemma syncEvents_missing request env :
  siteHandlers (crawlers cs (category request)) !! site request = None ->
  syncEvents (script_of cs request env) = [].
Proof.
  intros Hh. unfold script_of, jobPrologue.
  by rewrite (crawlPrologue_unsupported crawlMode _ _ _ _ _ Hh).
Qed.

Lemma createJob_idle_snapshot s request uuid now :
  Inv cs world s -> isProcessing s = false -> uuid <> "" ->
  jobs s !! uuid = None ->
  (createJob cs world s request uuid now).2
  = {| jobId := uuid; status := running; progress := 0;
       currentStep :=
         Some (match siteHandlers (crawlers cs (category request))
                       !! site request with
               | Some _ => "Starting crawl for " +:+ site request +:+ "..."
               | None => "Initializing crawler"
               end);
       createdAt := now; startedAt := Some now; finishedAt := None;
       errorMessage := None; params := request |}.
Proof.
  intros [HC Hflag] Hproc Hne Hfresh. unfold createJob, processQueue. simpl.
  rewrite Hproc. destruct (inflight s) eqn:Hin; [congruence|].
  destruct Hflag as [_ Hq]. rewrite Hq. simpl. rewrite decide_False by done.
  rewrite lookup_insert_eq. unfold startJob. simpl.
  destruct (siteHandlers (crawlers cs (category request)) !! site request)
    as [h|] eqn:Hh.
  - rewrite (syncEvents_found request (world uuid) h Hh). simpl.
    unfold handleStreamEvent. simpl. rewrite lookup_insert_eq. simpl.
    rewrite lookup_insert_eq. simpl. unfold foldEvent. simpl.
    done.
  - rewrite (syncEvents_missing request (world uuid) Hh). simpl.
    by rewrite lookup_insert_eq.
Qed.
End SnapshotFacts.

(** ** Trimming and splitting *)

Lemma trimStart_split s :
  exists ws, s = ws ++ trimStart s /\ blank ws.
Proof.
  induction s as [|c s (ws & IH & Hws)]; simpl.
  - exists []. split; [done|constructor].
  - destruct (isWhiteSpace c) eqn:Hc.
    + exists (c :: ws). split; [simpl; by rewrite <- IH | by constructor].
    + exists []. split; [done|constructor].
Qed.

Lemma trimStart_head s :
  match trimStart s with
  | [] => True
  | c :: _ => isWhiteSpace c = false
  end.
Proof.
  induction s as [|c s IH]; simpl; [done|].
  destruct (isWhiteSpace c) eqn:Hc; [done|]. simpl. done.
Qed.

Lemma trimStart_blank s : blank s <-> trimStart s = [].
Proof.
  split.
  - induction 1 as [|c s Hc _ IH]; simpl; [done|]. by rewrite Hc.
  - intros H. destruct (trimStart_split s) as (ws & Hs & Hws).
    rewrite H, app_nil_r in Hs. by subst.
Qed.

Lemma trimStart_keep s :
  match s with [] => True | c :: _ => isWhiteSpace c = false end ->
  trimStart s = s.
Proof. destruct s as [|c s]; simpl; [done|]. by intros ->. Qed.

Lemma trimEnd_split s :
  exists ws, s = trimEnd s ++ ws /\ blank ws.
Proof.
  unfold trimEnd. destruct (trimStart_split (reverse s)) as (ws & Hs & Hws).
  exists (reverse ws). split.
  - rewrite <- reverse_app, <- Hs. by rewrite reverse_involutive.
  - unfold blank in *. by rewrite Forall_reverse.
Qed.

Lemma trimEnd_last s :
  match last (trimEnd s) with
  | None => True
  | Some c => isWhiteSpace c = false
  end.
Proof.
  unfold trimEnd. rewrite last_reverse.
  pose proof (trimStart_head (reverse s)) as H.
  by destruct (trimStart (reverse s)).
Qed.

Lemma trimEnd_keep s :
  match last s with None => True | Some c => isWhiteSpace c = false end ->
  trimEnd s = s.
Proof.
  intros H. unfold trimEnd. rewrite trimStart_keep.
  - by rewrite reverse_involutive.
  - rewrite <- head_reverse in H. by destruct (reverse s).
Qed.

Lemma trim_split s :
  exists ws1 ws2, s = ws1 ++ trim s ++ ws2 /\ blank ws1 /\ blank ws2.
Proof.
  destruct (trimStart_split s) as (ws1 & Hs & Hws1).
  destruct (trimEnd_split (trimStart s)) as (ws2 & Ht & Hws2).
  exists ws1, ws2. unfold trim. by rewrite <- Ht.
Qed.

Lemma trim_trimmed s : trimmed (trim s).
Proof.
  split; [|apply trimEnd_last]. unfold trim.
  destruct (trimEnd_split (trimStart s)) as (ws & Ht & _).
  pose proof (trimStart_head s) as Hh. rewrite Ht in Hh.
  by destruct (trimEnd (trimStart s)).
Qed.

Lemma trim_keep s : trimmed s -> trim s = s.
Proof.
  intros [Hh Hl]. unfold trim. rewrite trimStart_keep by done.
  by apply trimEnd_keep.
Qed.

Lemma trim_idemp s : trim (trim s) = trim s.
Proof. apply trim_keep, trim_trimmed. Qed.

Lemma trim_blank s : blank s <-> trim s = [].
Proof.
  split.
  - intros H. unfold trim. apply trimStart_blank in H. by rewrite H.
  - intros H. destruct (trim_split s) as (ws1 & ws2 & Hs & H1 & H2).
    rewrite H in Hs. simpl in Hs. subst s. by apply Forall_app.
Qed.

Lemma trim_elem c s : c ∈ trim s -> c ∈ s.
Proof.
  intros Hc. destruct (trim_split s) as (ws1 & ws2 & Hs & _).
  rewrite Hs, !elem_of_app. auto.
Qed.

Lemma nonEmpty_true s : nonEmpty s = true <-> s <> [].
Proof. by destruct s. Qed.

Lemma split_cons sep s : exists part parts, split sep s = part :: parts.
Proof.
  induction s as [|c s (part & parts & IH)]; simpl; [by eexists _, _|].
  destruct (c =? sep)%N; [by eexists _, _|]. rewrite IH. by eexists _, _.
Qed.

Lemma split_app sep a b :
  split sep (a ++ sep :: b) = split sep a ++ split sep b.
Proof.
  induction a as [|c a IH]; simpl.
  - by rewrite N.eqb_refl.
  - destruct (c =? sep)%N; [by rewrite IH|]. rewrite IH.
    by destruct (split_cons sep a) as (part & parts & ->).
Qed.

Lemma split_whole sep s : sep ∉ s -> split sep s = [s].
Proof.
  induction s as [|c s IH]; simpl; [done|]. intros Hn.
  rewrite not_elem_of_cons in Hn. destruct Hn as [Hc Hs].
  destruct (N.eqb_spec c sep) as [->|_]; [done|]. by rewrite IH.
Qed.

Lemma split_parts sep s : Forall (fun part => sep ∉ part) (split sep s).
Proof.
  induction s as [|c s IH]; simpl.
  - constructor; [|constructor]. apply not_elem_of_nil.
  - destruct (N.eqb_spec c sep) as [->|Hc].
    + constructor; [apply not_elem_of_nil|done].
    + destruct (split sep s) as [|part parts].
      * constructor; [|constructor]. rewrite not_elem_of_cons.
        split; [done|apply not_elem_of_nil].
      * inversion IH; subst. constructor; [|done].
        rewrite not_elem_of_cons. by split.
Qed.

Lemma split_blank sep s :
  Forall (fun c => isWhiteSpace c = true \/ c = sep) s ->
  Forall blank (split sep s).
Proof.
  induction 1 as [|c s Hc _ IH]; simpl.
  - repeat constructor.
  - destruct (N.eqb_spec c sep) as [->|Hne].
    + constructor; [constructor|done].
    + destruct Hc as [Hc|Hc]; [|done].
      destruct (split sep s) as [|part parts]; [repeat constructor; done|].
      inversion IH; subst. constructor; [by constructor|done].
Qed.

Lemma filter_blank (parts : list JsString) :
  Forall blank parts ->
  filter (fun part => nonEmpty part = true) (trim <$> parts) = [].
Proof.
  induction 1 as [|part parts Hb _ IH]; [done|]. csimpl.
  rewrite filter_cons, IH. apply trim_blank in Hb. by rewrite Hb.
Qed.

Lemma extractProvince_sound address p :
  extractProvince address = Some p ->
  p <> [] /\ trimmed p /\ 44%N ∉ p.
Proof.
  unfold extractProvince. destruct address as [a|]; [|done].
  destruct (nonEmpty a); [|done]. intros Hl.
  apply last_Some_elem_of in Hl. apply list_elem_of_filter in Hl as [Hne Hin].
  apply list_elem_of_fmap in Hin as (part & -> & Hpart).
  split; [by apply nonEmpty_true|]. split; [apply trim_trimmed|].
  intros Hc. apply trim_elem in Hc.
  pose proof (split_parts 44%N a) as Hall.
  rewrite Forall_forall in Hall. by apply (Hall part).
Qed.

Lemma extractProvince_last a p :
  44%N ∉ p -> ~ blank p ->
  extractProvince (Some (a ++ 44%N :: p)) = Some (trim p) /\
  extractProvince (Some p) = Some (trim p).
Proof.
  intros Hp Hb.
  assert (Hne : nonEmpty (trim p) = true).
  { apply nonEmpty_true. by rewrite <- trim_blank. }
  unfold extractProvince. split.
  - replace (nonEmpty (a ++ 44%N :: p)) with true by (by destruct a).
    rewrite split_app, (split_whole _ p Hp), fmap_app, filter_app. csimpl.
    rewrite (filter_cons _ (trim p)), Hne. simpl.
    rewrite filter_nil. by rewrite last_snoc.
  - replace (nonEmpty p) with true.
    2:{ destruct p; [|done]. destruct Hb. constructor. }
    rewrite (split_whole _ p Hp). csimpl.
    rewrite (filter_cons _ (trim p)), Hne. done.
Qed.

Lemma extractProvince_trailing a b :
  Forall (fun c => isWhiteSpace c = true \/ c = 44%N) b ->
  extractProvince (Some (a ++ 44%N :: b)) = extractProvince (Some a).
Proof.
  intros Hb. unfold extractProvince.
  replace (nonEmpty (a ++ 44%N :: b)) with true by (by destruct a).
  rewrite split_app, fmap_app, filter_app.
  rewrite (filter_blank (split 44%N b)) by (by apply split_blank).
  rewrite app_nil_r. destruct a as [|c a]; [|done]. simpl. done.
Qed.

(** ** Patterns *)

Lemma Matches_never s : ~ Matches Void s.
Proof. inversion 1. Qed.

Lemma Matches_empty s : Matches Eps s <-> s = [].
Proof. split; [by inversion 1 | intros ->; constructor]. Qed.

Lemma Matches_class p s :
  Matches (Chars p) s <-> exists c, s = [c] /\ p c = true.
Proof.
  split; [inversion 1; subst; by eexists | intros (c & -> & H); by constructor].
Qed.

Lemma Matches_cat r1 r2 s :
  Matches (Cat r1 r2) s <->
  exists s1 s2, s = s1 ++ s2 /\ Matches r1 s1 /\ Matches r2 s2.
Proof.
  split; [inversion 1; subst; by eexists _, _|].
  intros (s1 & s2 & -> & H1 & H2). by constructor.
Qed.

Lemma Matches_alt r1 r2 s :
  Matches (Alt r1 r2) s <-> Matches r1 s \/ Matches r2 s.
Proof.
  split; [inversion 1; subst; auto|]. intros [H|H]; by constructor.
Qed.

Lemma Matches_star_cons r c s :
  Matches (Star r) (c :: s) ->
  exists s1 s2, s = s1 ++ s2 /\ Matches r (c :: s1) /\ Matches (Star r) s2.
Proof.
  intros H. remember (Star r) as r' eqn:Hr. remember (c :: s) as t eqn:Ht.
  revert Hr Ht.
  induction H as [| | | | | |r0 s1 s2 H1 _ H2 IH2]; try discriminate.
  intros [= ->] Ht. destruct s1 as [|c1 s1]; simpl in Ht.
  - by apply IH2.
  - injection Ht as -> <-. by eexists _, _.
Qed.

Lemma nullable_spec r : nullable r = true <-> Matches r [].
Proof.
  split.
  - induction r as [| | |r1 IH1 r2 IH2|r1 IH1 r2 IH2|r IH]; simpl; try done.
    + constructor.
    + intros [H1 H2]%andb_prop. apply (MCat r1 r2 [] []); auto.
    + intros [H|H]%orb_prop; [apply MAltL | apply MAltR]; auto.
    + constructor.
  - intros H. remember [] as s eqn:Hs. revert Hs.
    induction H as [|p c Hc|r1 r2 s1 s2 _ IH1 _ IH2|r1 r2 s _ IH|r1 r2 s _ IH| |];
      intros Hs; simpl; try done.
    + apply app_eq_nil in Hs as [-> ->]. by rewrite IH1, IH2.
    + by rewrite IH.
    + rewrite IH by done. by rewrite orb_true_r.
Qed.

Lemma deriv_spec c r s : Matches (deriv c r) s <-> Matches r (c :: s).
Proof.
  revert s. induction r as [| |p|r1 IH1 r2 IH2|r1 IH1 r2 IH2|r IH];
    intros s; simpl.
  - split; intros H; by apply Matches_never in H.
  - split; intros H; [by apply Matches_never in H | by inversion H].
  - destruct (p c) eqn:Hp.
    + rewrite Matches_empty, Matches_class. split.
      * intros ->. by exists c.
      * by intros (c' & [= -> ->] & _).
    + rewrite Matches_class. split; [by intros H%Matches_never|].
      intros (c' & [= -> ->] & ?). congruence.
  - assert (Hcat : Matches (Cat (deriv c r1) r2) s <->
                   exists s1 s2, s = s1 ++ s2 /\ Matches r1 (c :: s1) /\
                                 Matches r2 s2).
    { rewrite Matches_cat. split; intros (s1 & s2 & -> & H1 & H2);
        exists s1, s2; (split; [done|]); split; try done; by apply IH1. }
    rewrite (Matches_cat r1 r2 (c :: s)).
    destruct (nullable r1) eqn:Hn.
    + rewrite Matches_alt, Hcat, IH2. split.
      * intros [(s1 & s2 & -> & H1 & H2)|H2].
        -- by exists (c :: s1), s2.
        -- exists [], (c :: s). split; [done|]. split; [|done].
           by apply nullable_spec.
      * intros (s1 & s2 & Hs & H1 & H2). destruct s1 as [|c1 s1]; simpl in Hs.
        -- right. by rewrite Hs.
        -- injection Hs as -> ->. left. by exists s1, s2.
    + rewrite Hcat. split.
      * intros (s1 & s2 & -> & H1 & H2). by exists (c :: s1), s2.
      * intros (s1 & s2 & Hs & H1 & H2). destruct s1 as [|c1 s1]; simpl in Hs.
        -- apply nullable_spec in H1. congruence.
        -- injection Hs as -> ->. by exists s1, s2.
  - rewrite !Matches_alt, IH1, IH2. done.
  - rewrite Matches_cat. split.
    + intros (s1 & s2 & -> & H1 & H2). apply IH in H1.
      by apply (MStarCons r (c :: s1) s2).
    + intros (s1 & s2 & -> & H1 & H2)%Matches_star_cons.
      exists s1, s2. split; [done|]. split; [by apply IH|done].
Qed.

Lemma test_spec r s : test r s = true <-> Matches r s.
Proof.
  unfold test. revert r. induction s as [|c s IH]; intros r; simpl.
  - apply nullable_spec.
  - rewrite IH. apply deriv_spec.
Qed.

Lemma Matches_star_class p s :
  Matches (Star (Chars p)) s <-> Forall (fun c => p c = true) s.
Proof.
  split.
  - intros H. remember (Star (Chars p)) as r eqn:Hr. revert Hr.
    induction H as [| | | | | |r0 s1 s2 H1 _ _ IH2]; try discriminate.
    + constructor.
    + intros [= ->]. apply Matches_class in H1 as (c & -> & Hc).
      constructor; [done|]. by apply IH2.
  - induction 1 as [|c s Hc _ IH]; [constructor|].
    apply (MStarCons _ [c] s); [by constructor|done].
Qed.

Lemma Matches_plus_class p s :
  Matches (Plus (Chars p)) s <-> s <> [] /\ Forall (fun c => p c = true) s.
Proof.
  unfold Plus. rewrite Matches_cat. split.
  - intros (s1 & s2 & -> & (c & -> & Hc)%Matches_class & H2%Matches_star_class).
    split; [done|]. by constructor.
  - intros [Hne H]. destruct H as [|c s Hc H]; [done|].
    exists [c], s. split; [done|]. split; [by constructor|].
    by apply Matches_star_class.
Qed.

Lemma Matches_chr c s : Matches (Chr c) s <-> s = [c].
Proof.
  unfold Chr. rewrite Matches_class. split.
  - intros (c' & -> & Hc). apply N.eqb_eq in Hc. by subst.
  - intros ->. exists c. split; [done|]. apply N.eqb_refl.
Qed.

Lemma Matches_str l s : Matches (Str l) s <-> s = l.
Proof.
  revert s. induction l as [|c l IH]; intros s; simpl.
  - apply Matches_empty.
  - rewrite Matches_cat. split.
    + intros (s1 & s2 & -> & ->%Matches_chr & ->%IH). done.
    + intros ->. exists [c], l. split; [done|].
      split; [by apply Matches_chr | by apply IH].
Qed.

Lemma Matches_opt r s : Matches (Opt r) s <-> Matches r s \/ s = [].
Proof. unfold Opt. by rewrite Matches_alt, Matches_empty. Qed.

(** What the three patterns accept. *)
Lemma phone_shape s :
  Matches PHONE_PATTERN s <->
  exists digits, (s = digits \/ s = 43%N :: digits) /\
                 Forall (fun c => phoneChar c = true) digits.
Proof.
  unfold PHONE_PATTERN. rewrite Matches_cat. split.
  - intros (s1 & s2 & -> & H1 & H2%Matches_star_class).
    apply Matches_opt in H1 as [->%Matches_chr | ->]; exists s2; auto.
  - intros (digits & [-> | ->] & H).
    + exists [], digits. split; [done|]. split.
      * apply Matches_opt. by right.
      * by apply Matches_star_class.
    + exists [43%N], digits. split; [done|]. split.
      * apply Matches_opt. left. by apply Matches_chr.
      * by apply Matches_star_class.
Qed.

Lemma url_shape s :
  Matches URL_PATTERN s ->
  exists scheme c1 c2 rest,
    scheme ∈ [lit "http://"; lit "https://"; lit "ftp://"] /\
    s = scheme ++ c1 :: c2 :: rest /\
    hostStart c1 = true /\ isLineTerminator c2 = false /\
    Forall (fun c => isWhiteSpace c = false) rest.
Proof.
  unfold URL_PATTERN.
  intros (s1 & t1 & -> & Hs & (s2 & t2 & -> & ->%Matches_str &
            (s3 & t3 & -> & (c1 & -> & Hc1)%Matches_class &
               (s4 & rest & -> & (c2 & -> & Hc2)%Matches_class &
                  Hrest%Matches_star_class)%Matches_cat)%Matches_cat)%Matches_cat)%Matches_cat.
  assert (Hscheme : s1 ++ lit "://" ∈ [lit "http://"; lit "https://"; lit "ftp://"]).
  { apply Matches_alt in Hs as [Hs | ->%Matches_str].
    - apply Matches_cat in Hs as (h & o & -> & ->%Matches_str & Ho).
      apply Matches_opt in Ho as [->%Matches_chr | ->].
      + apply elem_of_cons. right. apply elem_of_cons. by left.
      + apply elem_of_cons. by left.
    - do 2 (apply elem_of_cons; right). apply elem_of_cons. by left. }
  exists (s1 ++ lit "://"), c1, c2, rest. split; [done|].
  split; [by rewrite <- app_assoc|]. split; [done|].
  split; [by apply negb_true_iff in Hc2|].
  eapply Forall_impl; [exact Hrest|]. intros c Hc. by apply negb_true_iff in Hc.
Qed.

Lemma email_shape s :
  Matches EMAIL_PATTERN s ->
  exists local domain,
    s = local ++ 64%N :: domain /\ local <> [] /\
    Forall (fun c => emailChar c = true) local /\
    Forall (fun c => emailChar c = true) domain /\
    46%N ∈ domain.
Proof.
  unfold EMAIL_PATTERN.
  intros (l & t1 & -> & [Hl Hlf]%Matches_plus_class &
            (at_ & t2 & -> & ->%Matches_chr &
               (d1 & t3 & -> & [Hd1 Hd1f]%Matches_plus_class &
                  (dot & d2 & -> & ->%Matches_chr &
                     [Hd2 Hd2f]%Matches_plus_class)%Matches_cat)%Matches_cat)%Matches_cat)%Matches_cat.
  exists l, (d1 ++ [46%N] ++ d2). split; [done|]. split; [done|].
  split; [done|]. split.
  - apply Forall_app. split; [done|]. apply Forall_app. split; [|done].
    by repeat constructor.
  - rewrite !elem_of_app. right. left. apply list_elem_of_singleton. done.
Qed.

(** ** The mappers *)

Lemma orUndefined_Some x s :
  orUndefined x = Some s <-> x = Some s /\ s <> [].
Proof.
  unfold orUndefined. destruct x as [[|c t]|]; simpl; split; try done.
  - by intros [[= <-] ?].
  - by intros [= <-].
  - by intros [-> _].
  - by intros [? _].
Qed.

Lemma validOr_Some valid x s :
  validOr valid x = Some s <-> x = Some s /\ s <> [] /\ valid (Some s) = true.
Proof.
  unfold validOr. destruct x as [t|]; [|split; [done|by intros [? _]]].
  destruct (nonEmpty t) eqn:Hn; simpl.
  - destruct (valid (Some t)) eqn:Hv; split.
    + intros [= <-]. by apply nonEmpty_true in Hn.
    + by intros [-> _].
    + done.
    + intros ([= <-] & _ & ?). congruence.
  - split; [done|]. intros ([= <-] & H & _). by destruct t.
Qed.

Lemma trimmed_fmap (x : option JsString) s :
  trim <$> x = Some s -> trimmed s.
Proof. destruct x; [|done]. intros [= <-]. apply trim_trimmed. Qed.

Lemma orElse_shape x d :
  d <> [] -> trimmed d -> orElse (trim <$> x) d <> [] /\
  trimmed (orElse (trim <$> x) d).
Proof.
  intros Hd Ht. unfold orElse. destruct x as [t|]; simpl; [|done].
  destruct (nonEmpty (trim t)) eqn:Hn; [|done].
  split; [by apply nonEmpty_true | apply trim_trimmed].
Qed.

Lemma clean_field (x : option JsString) s :
  orUndefined (trim <$> x) = Some s -> s <> [] /\ trimmed s.
Proof.
  intros [Hx Hs]%orUndefined_Some. split; [done|]. by eapply trimmed_fmap.
Qed.

Lemma valid_field (pattern : Regex) valid (x : option JsString) s :
  (forall t, valid (Some t) = nonEmpty t && test pattern (trim t)) ->
  orUndefined (validOr valid (trim <$> x)) = Some s ->
  s <> [] /\ trimmed s /\ Matches pattern s.
Proof.
  intros Hvalid [Hv _]%orUndefined_Some.
  apply validOr_Some in Hv as (Hx & Hne & Hv).
  pose proof (trimmed_fmap _ _ Hx) as Ht.
  split; [done|]. split; [done|].
  rewrite Hvalid in Hv. apply andb_prop in Hv as [_ Hv].
  rewrite trim_keep in Hv by done. by apply test_spec.
Qed.
(** * Further properties of the orchestrator, the registry and the controller *)

Section Further.
Context {Page : Type}.
Implicit Types (env : @RunEnv Page) (h : @Handler Page) (m : @Mode Page)
  (c : @Crawler Page).

(** X1.  How [crawl], [crawlList] and [crawlDetail] settle is fixed by
    what the read of the handler table finds, by how [crawler.run] settles
    and by what the handler calls returned.  The call rejects with the
    unsupported-site error when the read [table[site]] finds nothing; a
    site that the table does not register but whose name is that of a
    member of [Object.prototype], toString for one, is not such a case,
    the read finds the inherited member.  The call rejects with the error
    of [crawler.run] when that rejects, and otherwise resolves with the
    value returned by the last handler call that returned, or rejects
    with the missing-data error when that value is falsy or no call
    returned.  Whether a callback was passed, the clock and the state the
    call starts in play no part. *)
Theorem entry_points_settle c request onStream env st :
  outcome (crawl c request onStream env st)
  = settlement crawlMode c request env /\
  outcome (crawlList c request onStream env st)
  = settlement listMode c request env /\
  outcome (crawlDetail c request onStream env st)
  = settlement detailMode c request env.
Proof. unfold crawl, crawlList, crawlDetail. by rewrite !crawlWith_settlement. Qed.


(** X3.  An entry point that finds its handler constructs exactly one
    [PlaywrightCrawler], however many times the handler is called, and
    writes to the error log one line for each handler call that failed
    (the navigation was rejected or the site handler threw) and nothing
    else. *)
Theorem one_crawler_and_one_log_line_per_failed_call
    m c request onStream env h st :
  table m c !! site request = Some h ->
  let r := crawlWith m c request onStream env st in
  contexts (final r) = S (contexts st) /\
  logged (final r)
  = logged st ++
    replicate
      (length (failedCalls h (url request) (attempts (crawlerRun env))))
      (handlerErrorLine m (site request)).
Proof. intros Hh. by apply crawlWith_books. Qed.

Section Registry.
Variable cs : @CrawlService Page.
Variable world : string -> @RunEnv Page.

(** X4.  Jobs are served first in, first out.  A submission with a fresh
    id puts the job behind the job in progress and the jobs already
    waiting, and once the worker has been resumed often enough the jobs
    have finished in exactly that order. *)
Theorem jobs_finish_in_submission_order s :
  reachable cs world s ->
  (forall request uuid now,
     uuid <> "" -> jobs s !! uuid = None ->
     backlog (createJob cs world s request uuid now).1 = backlog s ++ [uuid]) /\
  (forall ts,
     (work cs world s <= length ts)%nat ->
     finished cs world ts s = backlog s).
Proof.
  intros Hr. apply reachable_Inv in Hr. split.
  - intros request uuid now Hne Hfresh. by apply createJob_backlog.
  - intros ts Hw. by apply finished_backlog.
Qed.

(** X5.  In every reachable state, stray events included, each stored
    record carries the id it is stored under and has the dates of its
    status: a queued record has progress 0, the step Queued and no dates
    or error; a running record has a starting date and no finishing date;
    a done record has both dates; an error record has an error message
    and both dates.  The progress and the step of a record that has been
    started are not settled by its status: an event that arrives late
    rewrites them. *)
Theorem records_are_well_shaped s id job :
  reachable cs world s -> getJob s id = Some job -> wellShaped id job.
Proof. intros Hr Hj. by apply (reachable_Shaped cs world s Hr). Qed.

(** X6.  A submission with a fresh id adds one record and touches no
    other: the record and the result of every other id are as before.
    The snapshot it returns is the stored record of the new id, holds the
    request, and is queued when the worker is busy and running when it is
    not. *)
Theorem createJob_adds_one_record s request uuid now :
  reachable cs world s -> uuid <> "" -> jobs s !! uuid = None ->
  let r := createJob cs world s request uuid now in
  getJob r.1 uuid = Some r.2 /\
  jobId r.2 = uuid /\
  params r.2 = request /\
  status r.2 = (if isProcessing s then queued else running) /\
  forall id, id <> uuid ->
    getJob r.1 id = getJob s id /\ getResult r.1 id = getResult s id.
Proof.
  intros Hr Hne Hfresh. cbv zeta. apply reachable_Inv in Hr.
  destruct (createJob_snapshot cs world s request uuid now Hr Hne Hfresh)
    as (Hget & Hid & _ & Hpar & Hst).
  destruct (createJob_others cs world s request uuid now Hr Hne Hfresh)
    as (Hjobs & Hres).
  repeat split; try done.
  - unfold getJob. by apply Hjobs.
  - unfold getResult. by rewrite Hres.
Qed.

(** X7.  In every reachable state the worker flag is set exactly when some
    record is queued or running: no job waits without a worker, and the
    flag is cleared once every job is done or error. *)
Theorem worker_is_busy_iff_a_job_is_unfinished s :
  reachable cs world s ->
  isProcessing s = true <->
  exists id job, getJob s id = Some job /\ terminal (status job) = false.
Proof. intros Hr. apply (busy_iff_unfinished cs world). by apply reachable_Inv. Qed.

(** X8.  In every reachable state the result endpoint, asked for a known
    job, answers 202 while the job is queued or running, and afterwards
    what the job's own crawl came to: 200 with the value the crawl
    resolved with, or 500 with the message of the error it rejected with.
    An unknown id gets 404 'Job not found'; the answer 404 'Result not
    found' is never given. *)
Theorem result_endpoint_answers s id :
  reachable cs world s -> id <> "" ->
  getCrawlResult s id
  = match getJob s id with
    | None => {| httpCode := 404; json := Failure "Job not found" |}
    | Some job =>
        if terminal (status job) then
          resultAnswer
            (outcome (service_crawl cs (params job) true (world id) initRun))
        else
          {| httpCode := 202;
             json := JobPending (status job)
                       "Job chưa hoàn thành, vui lòng kiểm tra lại sau." |}
    end.
Proof.
  intros Hr Hne. rewrite (getCrawlResult_reachable cs world s id Hr Hne).
  destruct (getJob s id) as [job|]; [|done]. by destruct (status job).
Qed.

(** X9.  Submit, poll, wait, poll.  A request accepted by the job endpoint
    with a fresh id is answered 202 with the id, status and progress of
    the new record, and the status endpoint asked at once returns that
    same record.  Once the worker has been resumed often enough the result
    endpoint answers for that id what the crawl of that request came to:
    200 with its value, or 500 with the message of its error. *)
Theorem submitted_job_can_be_polled s request uuid now ts :
  reachable cs world s -> uuid <> "" -> jobs s !! uuid = None ->
  let accepted := handleCrawlJob cs world s (Parsed request) uuid now in
  (work cs world accepted.1 <= length ts)%nat ->
  (exists job,
     jobId job = uuid /\
     accepted.2
     = {| httpCode := 202;
          json := JobAccepted uuid (status job) (progress job)
                    "Đã nhận yêu cầu crawl, vui lòng kiểm tra trạng thái qua endpoint /status."
                    (category request) (site request) (url request) |} /\
     getCrawlStatus accepted.1 uuid
     = {| httpCode := 200; json := JobStatus job |}) /\
  getCrawlResult (drain cs world ts accepted.1) uuid
  = resultAnswer (outcome (service_crawl cs request true (world uuid) initRun)).
Proof.
  intros Hr Hne Hfresh. cbv zeta. intros Hw. split.
  - destruct (createJob_snapshot cs world s request uuid now
                (reachable_Inv cs world s Hr) Hne Hfresh)
      as (Hget & Hid & _).
    exists (createJob cs world s request uuid now).2. split; [done|].
    split.
    + unfold handleCrawlJob. cbn [snd]. by rewrite Hid.
    + unfold getCrawlStatus. rewrite decide_False by done.
      unfold handleCrawlJob. cbn [fst]. by rewrite Hget.
  - by apply (submit_then_poll cs world s request uuid now ts).
Qed.

(** X10.  On a service at rest, a submission with a fresh id returns a
    snapshot that is already running: it has a starting date, progress 0,
    no finishing date and no error.  Its step is the crawler's first
    progress message when the read [siteHandlers[site]] finds something,
    be it a registered handler or a member that every object inherits,
    and Initializing crawler when the read finds nothing. *)
Theorem snapshot_on_idle_service s request uuid now :
  reachable cs world s -> isProcessing s = false -> uuid <> "" ->
  jobs s !! uuid = None ->
  let job := (createJob cs world s request uuid now).2 in
  jobId job = uuid /\ params job = request /\
  status job = running /\ progress job = 0 /\
  currentStep job
  = Some (match siteHandlers (crawlers cs (category request))
                  !! site request with
          | Some _ => "Starting crawl for " +:+ site request +:+ "..."
          | None => "Initializing crawler"
          end) /\
  is_Some (startedAt job) /\ finishedAt job = None /\
  errorMessage job = None.
Proof.
  intros Hr Hidle Hne Hfresh. cbv zeta.
  rewrite (createJob_idle_snapshot cs world s request uuid now)
    by (try done; by apply reachable_Inv).
  simpl. repeat split; by eauto.
Qed.
End Registry.

Section Endpoints.
Variable cs : @CrawlService Page.

(** X11.  The three crawl endpoints answer an accepted request 200 with the
    data when the crawler's entry point settles with a value and 400 with
    the message of the failure otherwise; nothing the persistence step
    does changes the answer. *)
Theorem crawl_endpoints_answer env request st :
  let c := crawlers cs (category request) in
  (handleCrawl cs env (Parsed request) st).1
  = crawlAnswer "Failed to crawl" request (settlement crawlMode c request env) /\
  (handleCrawlList cs env (Parsed request) st).1
  = crawlAnswer "Failed to crawl list" request
      (settlement listMode c request env) /\
  (handleCrawlDetail cs env (Parsed request) st).1
  = crawlAnswer "Failed to crawl detail" request
      (settlement detailMode c request env).
Proof.
  cbv zeta. unfold handleCrawl, handleCrawlList, handleCrawlDetail.
  rewrite !handleWith_outcome.
  rewrite service_crawl_outcome, service_crawlDetail_outcome,
    service_crawlList_run.
  unfold outcome at 2. cbn [fst].
  unfold crawl, crawlList, crawlDetail. by rewrite !crawlWith_settlement.
Qed.

(** X12.  The promise chain of the streaming endpoint never rejects.  When
    the crawl resolves, the last frame written is the crawler's complete
    event.  When the crawl fails, the last frame is the controller's error
    event, whose request id is error- followed by a clock reading; for a
    site the crawler supports it comes right after the crawler's own
    error event with the same message, so the failure is reported twice,
    and for an unsupported site it is the only frame. *)
Theorem stream_reports_failure_twice request env st :
  let c := crawlers cs (category request) in
  let r := streamFrames cs request env st in
  outcome r = Resolved tt /\
  match settlement crawlMode c request env with
  | Resolved p =>
      exists pre last,
        events r = pre ++ [last] /\ is_complete last = true /\
        requestId last = Some (runId env)
  | Rejected e =>
      exists pre k,
        events r
        = pre ++ [ {| body := EvError (error_message e);
                      requestId := Some ("error-" +:+ pretty (clock env k));
                      timestamp := Some (clock env (S k)) |} ] /\
        match siteHandlers c !! site request with
        | None => pre = []
        | Some _ =>
            exists pre' f,
              pre = pre' ++ [f] /\ body f = EvError (error_message e) /\
              requestId f = Some (runId env)
        end
  end.
Proof.
  cbv zeta. destruct (streamFrames_run cs request env st) as [Ho Hev].
  split; [done|]. rewrite Hev. clear Ho Hev.
  rewrite service_crawl_outcome, service_crawl_events.
  set (st0 := {| result := result st; contexts := contexts st;
                 reads := S (reads st); logged := logged st |}).
  pose proof (crawlWith_settlement crawlMode (crawlers cs (category request))
                request true env st0) as Hs.
  fold (crawl (crawlers cs (category request)) request true env st0) in Hs.
  rewrite <- Hs.
  destruct (siteHandlers (crawlers cs (category request)) !! site request)
    as [h|] eqn:Hh.
  - destruct (crawlWith_run crawlMode (crawlers cs (category request)) request
                env h st0 Hh)
      as (first & mid & last & Hev & _ & _ & _ & [Hown _] & Hlast).
    cbv zeta in Hlast.
    fold (crawl (crawlers cs (category request)) request true env st0)
      in Hev, Hlast.
    rewrite Hev.
    destruct (outcome (crawl (crawlers cs (category request)) request true env
                         st0)) as [p|e].
    + destruct Hlast as (_ & _ & _ & d & Hd). exists (first :: mid), last.
      rewrite app_nil_r. split; [done|]. split; [|done].
      unfold is_complete. by rewrite Hd.
    + destruct Hlast as [Hb _]. eexists (first :: mid ++ [last]), _.
      split; [reflexivity|]. by exists (first :: mid), last.
  - unfold crawl in *.
    rewrite (crawlWith_unsupported crawlMode _ _ _ _ _ Hh).
    unfold outcome, events, final. cbn [fst snd]. eexists [], _.
    split; [reflexivity|done].
Qed.
End Endpoints.
End Further.

(** ** The further properties at work in the small world *)

Lemma one_crawler_and_one_log_line_per_failed_call_witness :
  table (@crawlMode unit) demoCrawler !! site (demoRequest "klook")
  = Some brokenHandler /\
  contexts (final (crawlWith crawlMode demoCrawler (demoRequest "klook") true
                     (demoEnv brokenHandler) initRun)) = 1%nat /\
  logged (final (crawlWith crawlMode demoCrawler (demoRequest "klook") true
                   (demoEnv brokenHandler) initRun))
  = ["Error in requestHandler for klook"].
Proof.
  split; [reflexivity|].
  apply (one_crawler_and_one_log_line_per_failed_call (@crawlMode unit)
           demoCrawler (demoRequest "klook") true (demoEnv brokenHandler)
           brokenHandler initRun).
  reflexivity.
Defined.

Lemma jobs_finish_in_submission_order_witness :
  reachable demoService demoWorld twoJobs /\
  (work demoService demoWorld twoJobs <= length (ticks 12))%nat /\
  finished demoService demoWorld (ticks 12) twoJobs = backlog twoJobs.
Proof.
  split; [apply twoJobs_reachable|]. split; [vm_compute; lia|].
  apply (proj2 (jobs_finish_in_submission_order demoService demoWorld twoJobs
                  twoJobs_reachable)).
  vm_compute. lia.
Defined.

Lemma records_are_well_shaped_witness :
  reachable demoService demoWorld oneJob /\
  getJob oneJob "job-1" = Some klookSnapshot /\
  wellShaped "job-1" klookSnapshot.
Proof.
  split; [apply oneJob_reachable|]. split; [reflexivity|].
  apply (records_are_well_shaped demoService demoWorld oneJob "job-1"
           klookSnapshot oneJob_reachable).
  reflexivity.
Defined.

Lemma createJob_adds_one_record_witness :
  reachable demoService demoWorld oneJob /\
  "job-2" <> "" /\
  jobs oneJob !! "job-2" = None /\
  status (createJob demoService demoWorld oneJob (demoRequest "booking")
            "job-2" 6).2 = queued /\
  getJob (createJob demoService demoWorld oneJob (demoRequest "booking")
            "job-2" 6).1 "job-1" = getJob oneJob "job-1".
Proof.
  split; [apply oneJob_reachable|]. split; [done|]. split; [reflexivity|].
  destruct (createJob_adds_one_record demoService demoWorld oneJob
              (demoRequest "booking") "job-2" 6 oneJob_reachable)
    as (_ & _ & _ & Hst & Hothers); [done|reflexivity|].
  split; [exact Hst|]. by apply Hothers.
Defined.

Lemma worker_is_busy_iff_a_job_is_unfinished_witness :
  reachable demoService demoWorld oneJob /\
  (isProcessing oneJob = true <->
   exists id job, getJob oneJob id = Some job /\ terminal (status job) = false).
Proof.
  split; [apply oneJob_reachable|].
  apply (worker_is_busy_iff_a_job_is_unfinished demoService demoWorld oneJob
           oneJob_reachable).
Defined.

Lemma result_endpoint_answers_witness :
  reachable demoService demoWorld
    (drain demoService demoWorld (ticks 12) twoJobs) /\
  "job-1" <> "" /\
  getCrawlResult (drain demoService demoWorld (ticks 12) twoJobs) "job-1"
  = {| httpCode := 500; json := JobFailed "selector not found" |}.
Proof.
  split; [apply drained_reachable|]. split; [done|].
  rewrite (result_endpoint_answers demoService demoWorld _ "job-1"
             drained_reachable); [reflexivity | done].
Defined.

Lemma submitted_job_can_be_polled_witness :
  reachable demoService demoWorld oneJob /\
  "job-2" <> "" /\
  jobs oneJob !! "job-2" = None /\
  (work demoService demoWorld
     (handleCrawlJob demoService demoWorld oneJob
        (Parsed (demoRequest "booking")) "job-2" 6).1
   <= length (ticks 12))%nat /\
  getCrawlResult
    (drain demoService demoWorld (ticks 12)
       (handleCrawlJob demoService demoWorld oneJob
          (Parsed (demoRequest "booking")) "job-2" 6).1) "job-2"
  = {| httpCode := 200; json := JobDone (PItem "Hotel Sol") |}.
Proof.
  split; [apply oneJob_reachable|]. split; [done|]. split; [reflexivity|].
  split; [vm_compute; lia|].
  apply (submitted_job_can_be_polled demoService demoWorld oneJob
           (demoRequest "booking") "job-2" 6 (ticks 12) oneJob_reachable).
  - done.
  - reflexivity.
  - vm_compute. lia.
Defined.

Lemma snapshot_on_idle_service_witness :
  reachable demoService demoWorld initial /\
  isProcessing initial = false /\
  "job-1" <> "" /\
  jobs initial !! "job-1" = None /\
  status klookSnapshot = running /\
  currentStep klookSnapshot = Some "Starting crawl for klook...".
Proof.
  assert (Hr : reachable demoService demoWorld initial) by apply rtc_refl.
  split; [exact Hr|]. split; [reflexivity|]. split; [done|].
  split; [reflexivity|].
  destruct (snapshot_on_idle_service demoService demoWorld initial
              (demoRequest "klook") "job-1" 5 Hr)
    as (_ & _ & Hst & _ & Hstep & _); [reflexivity | done | reflexivity |].
  split; [exact Hst | exact Hstep].
Defined.


(** * What the mappers send to the admin API *)

(** X13.  The province of a hotel is the last part of its address, split
    at commas and trimmed, that is not blank.  So whatever it returns is
    non-empty, free of commas and of blanks at both ends; what follows the
    last comma is the province when it is not blank; and a tail of commas
    and blanks is ignored. *)
Theorem province_is_last_named_part :
  (forall address p,
     extractProvince address = Some p ->
     p <> [] /\ trimmed p /\ 44%N ∉ p) /\
  (forall a p,
     44%N ∉ p -> ~ blank p ->
     extractProvince (Some (a ++ 44%N :: p)) = Some (trim p) /\
     extractProvince (Some p) = Some (trim p)) /\
  (forall a b,
     Forall (fun c => isWhiteSpace c = true \/ c = 44%N) b ->
     extractProvince (Some (a ++ 44%N :: b)) = extractProvince (Some a)).
Proof.
  split; [|split].
  - apply extractProvince_sound.
  - apply extractProvince_last.
  - apply extractProvince_trailing.
Qed.

Section MapperFacts.
Variable numberToString : JsNumber -> JsString.

(** X14.  The request built for a restaurant has a name that is never
    empty, and each text field taken from the item (address, province,
    phone, mobile phone, email, website, image URL) is left out or is
    non-empty without blanks at its ends.  A phone or mobile phone that is
    sent is an optional plus sign followed by digits, hyphens and blanks
    only; an email that is sent has no blank, exactly one at sign with
    text before it, and a dot after it; a website or image URL that is
    sent starts with http://, https:// or ftp://.  The detail link is
    sent as it was given, and only if it starts with one of those once
    trimmed.  The two fields that name the crawler, crawledBy and
    crawlerName, are sent as they were given, blanks included, and are
    left out only when empty. *)
Theorem restaurant_request_is_clean restaurant detailLink crawledBy crawlerName :
  let r := mapRestaurantItemToApiRequest numberToString restaurant detailLink
             crawledBy crawlerName in
  (rq_name r <> [] /\ trimmed (rq_name r)) /\
  (forall s,
     Some s ∈ [rq_address r; rq_province r; rq_phone r; rq_mobilePhone r;
               rq_email r; rq_website r; rq_imageUrl r] ->
     s <> [] /\ trimmed s) /\
  (forall s,
     Some s ∈ [rq_phone r; rq_mobilePhone r] ->
     exists digits, (s = digits \/ s = 43%N :: digits) /\
                    Forall (fun c => phoneChar c = true) digits) /\
  (forall s,
     rq_email r = Some s ->
     exists local domain,
       s = local ++ 64%N :: domain /\ local <> [] /\
       Forall (fun c => emailChar c = true) local /\
       Forall (fun c => emailChar c = true) domain /\
       46%N ∈ domain) /\
  (forall s,
     Some s ∈ [rq_website r; rq_imageUrl r] ->
     exists scheme rest, scheme ∈ schemes /\ s = scheme ++ rest) /\
  (forall s,
     rq_detailLink r = Some s ->
     s = detailLink /\
     exists scheme rest, scheme ∈ schemes /\ trim s = scheme ++ rest) /\
  (forall s, rq_crawledBy r = Some s <-> crawledBy = Some s /\ s <> []) /\
  (forall s, rq_crawlerName r = Some s <-> crawlerName = Some s /\ s <> []).
Proof.
  cbv zeta. unfold mapRestaurantItemToApiRequest. cbn [rq_name rq_address
    rq_province rq_phone rq_mobilePhone rq_email rq_website rq_imageUrl
    rq_detailLink rq_crawledBy rq_crawlerName].
  assert (Hphone : forall x s,
            orUndefined (validOr isValidPhone (trim <$> x)) = Some s ->
            s <> [] /\ trimmed s /\ Matches PHONE_PATTERN s).
  { intros x s. by apply valid_field. }
  assert (Hemail : forall x s,
            orUndefined (validOr isValidEmail (trim <$> x)) = Some s ->
            s <> [] /\ trimmed s /\ Matches EMAIL_PATTERN s).
  { intros x s. by apply valid_field. }
  assert (Hurl : forall x s,
            orUndefined (validOr isValidUrl (trim <$> x)) = Some s ->
            s <> [] /\ trimmed s /\ Matches URL_PATTERN s).
  { intros x s. by apply valid_field. }
  split; [|split; [|split; [|split; [|split; [|split; [|split]]]]]];
    [| | | | | |apply orUndefined_Some|apply orUndefined_Some].
  - by apply orElse_shape.
  - intros s Hin. rewrite !elem_of_cons, elem_of_nil in Hin.
    destruct Hin as [H|[H|[H|[H|[H|[H|[H|[]]]]]]]]; symmetry in H.
    + by eapply clean_field.
    + by eapply clean_field.
    + by destruct (Hphone _ _ H) as (? & ? & _).
    + by destruct (Hphone _ _ H) as (? & ? & _).
    + by destruct (Hemail _ _ H) as (? & ? & _).
    + by destruct (Hurl _ _ H) as (? & ? & _).
    + by destruct (Hurl _ _ H) as (? & ? & _).
  - intros s Hin. rewrite !elem_of_cons, elem_of_nil in Hin.
    destruct Hin as [H|[H|[]]]; symmetry in H;
      destruct (Hphone _ _ H) as (_ & _ & Hm); by apply phone_shape.
  - intros s H. destruct (Hemail _ _ H) as (_ & _ & Hm). by apply email_shape.
  - intros s Hin. rewrite !elem_of_cons, elem_of_nil in Hin.
    destruct Hin as [H|[H|[]]]; symmetry in H;
      destruct (Hurl _ _ H) as (_ & _ & Hm);
      destruct (url_shape _ Hm) as (scheme & c1 & c2 & rest & Hs & -> & _);
      by exists scheme, (c1 :: c2 :: rest).
  - intros s [Hv _]%orUndefined_Some.
    apply validOr_Some in Hv as ([= <-] & _ & Hv). split; [done|].
    unfold isValidUrl in Hv. apply andb_prop in Hv as [_ Hm%test_spec].
    destruct (url_shape _ Hm) as (scheme & c1 & c2 & rest & Hs & -> & _).
    by exists scheme, (c1 :: c2 :: rest).
Qed.

(** X15.  The request built for a landmark has the item's name, trimmed,
    or Unknown landmark when the name is missing or blank; every other
    text field taken from the item is left out or is non-empty without
    blanks at its ends; the detail link is passed on as given. *)
Theorem landmark_request_is_clean landmark detailLink crawledBy crawlerName :
  let r := mapLandmarkItemToApiRequest numberToString landmark detailLink
             crawledBy crawlerName in
  lq_name r
  = match li_name landmark with
    | Some n => if decide (blank n) then lit "Unknown landmark" else trim n
    | None => lit "Unknown landmark"
    end /\
  lq_name r <> [] /\ trimmed (lq_name r) /\
  lq_detailLink r = detailLink /\
  forall s,
    Some s ∈ [lq_address r; lq_province r; lq_phone r; lq_mobilePhone r;
              lq_email r; lq_website r; lq_imageUrl r] ->
    s <> [] /\ trimmed s.
Proof.
  cbv zeta. unfold mapLandmarkItemToApiRequest. cbn [lq_name lq_address
    lq_province lq_phone lq_mobilePhone lq_email lq_website lq_imageUrl
    lq_detailLink].
  split; [|split; [|split; [|split]]].
  - unfold orElse. destruct (li_name landmark) as [n|]; simpl; [|done].
    case_decide as Hb.
    + apply trim_blank in Hb. by rewrite Hb.
    + destruct (trim n) eqn:Ht; [|done]. by apply trim_blank in Ht.
  - by apply orElse_shape.
  - by apply orElse_shape.
  - done.
  - intros s Hin. rewrite !elem_of_cons, elem_of_nil in Hin.
    destruct Hin as [H|[H|[H|[H|[H|[H|[H|[]]]]]]]]; symmetry in H;
      by eapply clean_field.
Qed.
End MapperFacts.

Lemma province_is_last_named_part_witness :
  (44%N ∉ lit " Ha Noi ") /\
  ~ blank (lit " Ha Noi ") /\
  extractProvince (Some (lit "12 Hang Bai, Hoan Kiem " ++ (44%N :: lit " Ha Noi ")))
  = Some (lit "Ha Noi").
Proof.
  assert (H1 : 44%N ∉ lit " Ha Noi ")
    by (apply (bool_decide_unpack _); vm_compute; exact I).
  assert (H2 : ~ blank (lit " Ha Noi "))
    by (apply (bool_decide_unpack _); vm_compute; exact I).
  split; [exact H1|]. split; [exact H2|].
  destruct province_is_last_named_part as (_ & Hlast & _).
  by destruct (Hlast (lit "12 Hang Bai, Hoan Kiem ") (lit " Ha Noi ") H1 H2)
    as [-> _].
Defined.
